(** * Formatting-structure construction of WeasyPrint

    A shallow embedding of [weasy/formatting_structure/build.py]: the box tree
    built from a styled DOM ([dom_to_box], [add_list_marker]), the two
    anonymous-box passes ([inline_in_block], [block_in_inline] with its
    resumable search [_inner_block_in_inline]) and the white-space pass
    ([process_whitespace]).

    Conventions of the embedding.
    - Unicode text is a list of code points ([N]); the [utf8_text] payload of a
      text box is kept decoded, since the code only ever decodes it, edits the
      decoded string and encodes it back.
    - A Python function that updates its argument in place is a function from
      the old state of the object to its new state.
    - Python's object identity ([x is not y]) is used by the code only between
      the argument of a call and its result, which is either that very object
      or a newly allocated one; every such function returns, beside the box, a
      boolean that is [true] when the result is the argument object itself.
    - Exceptions are the [Raise] results of the [result] monad. *)

From Stdlib Require Import List String Ascii NArith Arith Bool Lia.
Import ListNotations.
Open Scope string_scope.
Open Scope list_scope.

Set Implicit Arguments.

(** ** Text *)

(** A decoded unicode string. *)
Definition text := list N.

Definition TAB : N := 9.
Definition LF : N := 10.
Definition CR : N := 13.
Definition SPACE : N := 32.
(** U+00A0, NO-BREAK SPACE *)
Definition NBSP : N := 160.
(** U+200B, ZERO WIDTH SPACE *)
Definition ZWSP : N := 8203.
(** U+2022 BULLET, U+25E6 WHITE BULLET, U+25AA BLACK SMALL SQUARE *)
Definition BULLET : N := 8226.
Definition WHITE_BULLET : N := 9702.
Definition BLACK_SMALL_SQUARE : N := 9642.

(** An ASCII literal as unicode text. *)
Definition u (s : string) : text := map N_of_ascii (list_ascii_of_string s).

(** Python truthiness of a string or of a list. *)
Definition truthy {A} (l : list A) : bool :=
  match l with [] => false | _ :: _ => true end.

(** ** Exceptions *)

Inductive exn :=
| NotImplementedError (msg : string)
| AssertionError
| KeyError (key : string)
| AttributeError.

(** The outcome of a call.  [OutOfFuel] is no outcome of the program: only the
    functions that take a [fuel] bound on their recursion return it, and only
    when the bound was too small. *)
Inductive result (A : Type) :=
| Ok (a : A)
| Raise (e : exn)
| OutOfFuel.
Arguments Ok {A} a.
Arguments Raise {A} e.
Arguments OutOfFuel {A}.

Definition bind {A B} (m : result A) (f : A -> result B) : result B :=
  match m with
  | Ok a => f a
  | Raise e => Raise e
  | OutOfFuel => OutOfFuel
  end.

Notation "x <- m ;; k" := (bind m (fun x => k))
  (at level 61, m at next level, right associativity).
Notation "' p <- m ;; k" := (bind m (fun x => let p := x in k))
  (at level 61, p pattern, m at next level, right associativity).

(** [for x in l: st = f(st, x)], left at the first exception. *)
Fixpoint for_each {A S} (f : S -> A -> result S) (l : list A) (st : S) : result S :=
  match l with
  | [] => Ok st
  | x :: l' => st' <- f st x ;; for_each f l' st'
  end.

(** ** Styles, documents and the DOM *)

(** Identity of a DOM element. *)
Definition elem := nat.
(** An image surface handle. *)
Definition surface := nat.

(** The computed values the builder reads.  A property holds its single keyword
    ([get_single_keyword] of the value); [list_style_image] is [None] for the
    keyword [none] and otherwise the absolute URI of the image. *)
Record style := {
  display : string;
  white_space : string;
  list_style_image : option string;
  list_style_type : string;
  list_style_position : string
}.

Record document := {
  style_for : elem -> style;
  get_image_surface_from_uri : string -> option surface
}.

(** An lxml node.  [tag] is [None] when the tag is not a string: the node is a
    comment or a processing instruction. *)
#[local] Unset Elimination Schemes.

Inductive element :=
| Element (tag : option string) (id : elem) (text_ : text)
          (children : list element) (tail : text).

Definition el_tag (e : element) := let 'Element t _ _ _ _ := e in t.
Definition el_id (e : element) := let 'Element _ i _ _ _ := e in i.
Definition el_text (e : element) := let 'Element _ _ t _ _ := e in t.
Definition el_children (e : element) := let 'Element _ _ _ c _ := e in c.
Definition el_tail (e : element) := let 'Element _ _ _ _ t := e in t.

(** ** Boxes *)

(** Modelled from the spec: the box classes of [boxes.py], which is not part of
    the sources, are the closed set of variants of the data model: two leaf
    classes and five parent classes. *)
Inductive parent_class :=
| InlineBox
| InlineBlockBox
| BlockBox
| AnonymousBlockBox
| LineBox.

Inductive box :=
| TextBox (element : elem) (utf8_text : text)
| ImageMarkerBox (element : elem) (replacement : surface)
| ParentBox (cls : parent_class) (element : elem) (children : list box)
            (outside_list_marker : option box).

#[local] Set Elimination Schemes.

Definition box_element (b : box) : elem :=
  match b with
  | TextBox e _ | ImageMarkerBox e _ | ParentBox _ e _ _ => e
  end.

(** [getattr(box, 'children', [])] *)
Definition box_children (b : box) : list box :=
  match b with
  | ParentBox _ _ cs _ => cs
  | _ => []
  end.

(** Modelled from the spec: the category predicates of the data model, the
    [isinstance] tests of the code. *)
Definition block_level (c : parent_class) : bool :=
  match c with BlockBox | AnonymousBlockBox => true | _ => false end.

Definition block_container (c : parent_class) : bool :=
  match c with BlockBox | AnonymousBlockBox | InlineBlockBox => true | _ => false end.

Definition is_ParentBox (b : box) : bool :=
  match b with ParentBox _ _ _ _ => true | _ => false end.

Definition is_BlockLevelBox (b : box) : bool :=
  match b with ParentBox c _ _ _ => block_level c | _ => false end.

Definition is_BlockContainerBox (b : box) : bool :=
  match b with ParentBox c _ _ _ => block_container c | _ => false end.

Definition is_LineBox (b : box) : bool :=
  match b with ParentBox LineBox _ _ _ => true | _ => false end.

Definition is_InlineBox (b : box) : bool :=
  match b with ParentBox InlineBox _ _ _ => true | _ => false end.

Definition is_TextBox (b : box) : bool :=
  match b with TextBox _ _ => true | _ => false end.

(** [box.add_child(child)]; only parent boxes have the method. *)
Definition add_child (b child : box) : result box :=
  match b with
  | ParentBox c e cs m => Ok (ParentBox c e (cs ++ [child]) m)
  | _ => Raise AttributeError
  end.

(** [boxes.AnonymousBlockBox(box.document, box.element)] holding one child. *)
Definition anonymous_block (e : elem) (child : box) : box :=
  ParentBox AnonymousBlockBox e [child] None.

(** [boxes.LineBox(box.document, box.element)] with the given children. *)
Definition line_box (e : elem) (cs : list box) : box :=
  ParentBox LineBox e cs None.

(** ** Building boxes from the DOM *)

Definition GLYPH_LIST_MARKERS (type_ : string) : option text :=
  if type_ =? "disc" then Some [BULLET]
  else if type_ =? "circle" then Some [WHITE_BULLET]
  else if type_ =? "square" then Some [BLACK_SMALL_SQUARE]
  else None.

Section Build.

Variable doc : document.

(** [html.handle_element(document, element)]; [None] is [DEFAULT_HANDLING]. *)
Variable handle_element : document -> element -> option box.

(** The first half of [add_list_marker]: the marker box it builds, [Ok None]
    when it returns before building one. *)
Definition list_marker_box (b : box) : result (option box) :=
  let st := style_for doc (box_element b) in
  let surface :=
    match list_style_image st with
    | Some uri => get_image_surface_from_uri doc uri
    | None => None
    end in
  match surface with
  | None =>
      let type_ := list_style_type st in
      if type_ =? "none" then Ok None
      else
        match GLYPH_LIST_MARKERS type_ with
        | Some marker => Ok (Some (TextBox (box_element b) marker))
        | None => Raise (KeyError type_)
        end
  | Some s => Ok (Some (ImageMarkerBox (box_element b) s))
  end.

(** [add_list_marker(box)]: the state of [box] after the call.  The function
    is called on a new block box; the marker attribute is kept on parent
    boxes only. *)
Definition add_list_marker (b : box) : result box :=
  marker <- list_marker_box b ;;
  match marker with
  | None => Ok b
  | Some marker_box =>
      let position := list_style_position (style_for doc (box_element b)) in
      if position =? "inside" then
        if truthy (box_children b) then Raise AssertionError
        else
          b1 <- add_child b marker_box ;;
          add_child b1 (TextBox (box_element b) [NBSP])
      else if position =? "outside" then
        match b with
        | ParentBox c e cs _ => Ok (ParentBox c e cs (Some marker_box))
        | _ => Ok b
        end
      else Ok b
  end.

(** The box [dom_to_box] creates for a displayed element with default
    handling, before any child is added. *)
Definition new_box (display : string) (elt : element) : result box :=
  if (display =? "block") || (display =? "list-item") then
    let b := ParentBox BlockBox (el_id elt) [] None in
    if display =? "list-item" then add_list_marker b else Ok b
  else if display =? "inline" then
    Ok (ParentBox InlineBox (el_id elt) [] None)
  else if display =? "inline-block" then
    Ok (ParentBox InlineBlockBox (el_id elt) [] None)
  else Raise (NotImplementedError ("Unsupported display: " ++ display)).

(** [if text: box.add_child(boxes.TextBox(document, element, text))] *)
Definition add_text (b : box) (e : elem) (t : text) : result box :=
  if truthy t then add_child b (TextBox e t) else Ok b.

(** One round of [for child_element in element]: the state of [box] after it. *)
Definition add_child_element (rec : element -> result (option box))
    (e : elem) (b : box) (child_element : element) : result box :=
  b1 <-
    match el_tag child_element with
    | Some _ =>
        child_box <- rec child_element ;;
        match child_box with
        | Some child_box => add_child b child_box
        | None => Ok b
        end
    | None => Ok b
    end ;;
  add_text b1 e (el_tail child_element).

Fixpoint dom_to_box (elt : element) : result (option box) :=
  let display := display (style_for doc (el_id elt)) in
  if display =? "none" then Ok None
  else
    match handle_element doc elt with
    | Some result => Ok (Some result)
    | None =>
        b <- new_box display elt ;;
        b <- add_text b (el_id elt) (el_text elt) ;;
        b <-
          (fix children_loop (child_elements : list element) (b : box)
             : result box :=
             match child_elements with
             | [] => Ok b
             | child_element :: rest =>
                 b1 <- add_child_element dom_to_box (el_id elt) b child_element ;;
                 children_loop rest b1
             end) (el_children elt) b ;;
        Ok (Some b)
    end.

End Build.

(** ** Regular expressions

    The fragment of Python's [re] that [process_whitespace] uses, with the
    backtracking matcher's order of preference: a repetition is greedy and the
    left branch of an alternation is tried first. *)

Inductive regex :=
| Class (p : N -> bool)      (* one character of a set: a literal, [...] or [^...] *)
| Star (p : N -> bool)       (* set*, greedy *)
| Plus (p : N -> bool)       (* set+, greedy *)
| EndOfString                (* $: at the end, or before a newline that ends the string *)
| Seq (r1 r2 : regex)
| Alt (r1 r2 : regex)
| Group (r : regex).         (* ( ... ), the group that \1 names *)

(** Greedy repetition of a set: the longest run first, then shorter ones. *)
Fixpoint star {R} (p : N -> bool) (s : text) (k : text -> option R) : option R :=
  match s with
  | c :: s' =>
      if p c then
        match star p s' k with
        | Some r => Some r
        | None => k s
        end
      else k s
  | [] => k []
  end.

(** [rmatch r s g k]: match [r] at the start of [s], then continue with [k] on
    the rest of the string and the text of group 1 ([g] when the group has not
    matched). *)
Fixpoint rmatch {R} (r : regex) (s : text) (g : text)
    (k : text -> text -> option R) : option R :=
  match r with
  | Class p =>
      match s with
      | c :: s' => if p c then k s' g else None
      | [] => None
      end
  | Star p => star p s (fun s' => k s' g)
  | Plus p =>
      match s with
      | c :: s' => if p c then star p s' (fun s'' => k s'' g) else None
      | [] => None
      end
  | EndOfString =>
      match s with
      | [] => k s g
      | [c] => if (c =? LF)%N then k s g else None
      | _ => None
      end
  | Seq r1 r2 => rmatch r1 s g (fun s' g' => rmatch r2 s' g' k)
  | Alt r1 r2 =>
      match rmatch r1 s g k with
      | Some x => Some x
      | None => rmatch r2 s g k
      end
  | Group r1 =>
      rmatch r1 s g (fun s' _ => k s' (firstn (List.length s - List.length s') s))
  end.

(** The match of [r] at the start of [s]: what follows it, and group 1. *)
Definition match_at (r : regex) (s : text) : option (text * text) :=
  rmatch r s [] (fun rest g => Some (rest, g)).

(** [re.sub(r, repl, s)], scanning from the left; [repl] builds the replacement
    from group 1.  [skip] counts the characters of the last match that are
    still ahead.  No pattern of this module matches the empty string; at an
    empty match the replacement is written and one character copied. *)
Fixpoint sub_from (r : regex) (repl : text -> text) (skip : nat) (s : text) : text :=
  match s with
  | [] =>
      match skip, match_at r [] with
      | O, Some (_, g) => repl g
      | _, _ => []
      end
  | c :: s' =>
      match skip with
      | S n => sub_from r repl n s'
      | O =>
          match match_at r s with
          | Some (rest, g) =>
              match List.length s - List.length rest with
              | O => repl g ++ c :: sub_from r repl 0 s'
              | S m => repl g ++ sub_from r repl m s'
              end
          | None => c :: sub_from r repl 0 s'
          end
      end
  end.

Definition re_sub (r : regex) (repl : text -> text) (s : text) : text :=
  sub_from r repl 0 s.

(** [s.replace(old, new)] for one-character strings. *)
Definition replace (old new : N) (s : text) : text :=
  map (fun c => if (c =? old)%N then new else c) s.

Definition startswith (s : text) (c : N) : bool :=
  match s with
  | c' :: _ => (c' =? c)%N
  | [] => false
  end.

Definition endswith (s : text) (c : N) : bool := startswith (rev s) c.

(** [x in (a, b, ...)] *)
Definition in_ (x : string) (l : list string) : bool := existsb (String.eqb x) l.

Definition tab_cr_space (c : N) : bool :=
  (c =? TAB)%N || (c =? CR)%N || (c =? SPACE)%N.

(** '[\t\r ]*\n[\t\r ]*' *)
Definition newline_re : regex :=
  Seq (Star tab_cr_space) (Seq (Class (N.eqb LF)) (Star tab_cr_space)).

(** u'\xA0([^\xA0]|$)' *)
Definition nbsp_re : regex :=
  Seq (Class (N.eqb NBSP)) (Group (Alt (Class (fun c => negb (c =? NBSP)%N)) EndOfString)).

(** ' +' *)
Definition spaces_re : regex := Plus (N.eqb SPACE).

(** ** White-space processing *)

(** The body of the loop of [process_whitespace] for one text: the new text
    and the new value of [following_collapsible_space]. *)
Definition process_text (handling : string) (following_collapsible_space : bool)
    (t : text) : text * bool :=
  let t :=
    if in_ handling ["normal"; "nowrap"; "pre-line"]
    then re_sub newline_re (fun _ => [LF]) t
    else t in
  let t :=
    if in_ handling ["pre"; "pre-wrap"] then
      let t := replace SPACE NBSP t in
      if handling =? "pre-wrap"
      then re_sub nbsp_re (fun g => NBSP :: ZWSP :: g) t
      else t
    else if in_ handling ["normal"; "nowrap"] then replace LF SPACE t
    else t in
  if in_ handling ["normal"; "nowrap"; "pre-line"] then
    let t := replace TAB SPACE t in
    let t := re_sub spaces_re (fun _ => [SPACE]) t in
    let t := if following_collapsible_space && startswith t SPACE then tl t else t in
    (t, endswith t SPACE)
  else (t, false).

(** A reference to a box of a tree: the child indices from the root. *)
Definition path := list nat.

(** Modelled from the spec: [box.descendants()] of [boxes.py], the box and its
    descendants in document order; an outside list marker is no child. *)
Fixpoint descendants (b : box) : list path :=
  [] ::
  match b with
  | ParentBox _ _ cs _ =>
      (fix children_from (i : nat) (cs : list box) : list path :=
         match cs with
         | [] => []
         | c :: cs' => map (cons i) (descendants c) ++ children_from (S i) cs'
         end) 0 cs
  | _ => []
  end.

Fixpoint box_at (b : box) (p : path) : option box :=
  match p with
  | [] => Some b
  | i :: p' =>
      match nth_error (box_children b) i with
      | Some c => box_at c p'
      | None => None
      end
  end.

Fixpoint update_nth {A} (i : nat) (f : A -> A) (l : list A) : list A :=
  match l, i with
  | [], _ => []
  | x :: l', O => f x :: l'
  | x :: l', S j => x :: update_nth j f l'
  end.

(** [child.utf8_text = t] for the text box at [p]. *)
Fixpoint set_utf8_text (p : path) (t : text) (b : box) : box :=
  match p, b with
  | [], TextBox e _ => TextBox e t
  | i :: p', ParentBox c e cs m => ParentBox c e (update_nth i (set_utf8_text p' t) cs) m
  | _, _ => b
  end.

Section Whitespace.

Variable doc : document.

(** The white-space mode of a text box.  A text box is anonymous: its style is
    inherited from its element's, and [white-space] is an inherited property. *)
Definition text_handling (e : elem) : string := white_space (style_for doc e).

(** One round of [for child in box.descendants()], on the tree and the flag. *)
Definition visit (st : box * bool) (p : path) : box * bool :=
  let '(root, following_collapsible_space) := st in
  match box_at root p with
  | Some (TextBox e t) =>
      if truthy t then
        let '(t', following) := process_text (text_handling e) following_collapsible_space t in
        (set_utf8_text p t' root, following)
      else st
  | _ => st
  end.

(** [process_whitespace(box)]: the state of the tree after the call; the
    function returns its argument. *)
Definition process_whitespace (b : box) : box :=
  fst (fold_left visit (descendants b) (b, false)).

End Whitespace.

(** ** Lines inside blocks *)

(** One round of [for child_box in children] of [inline_in_block]: [out] is
    [box.children] and [line] is [line_box.children]. *)
Definition inline_in_block_step (e : elem) (st : list box * list box)
    (child_box : box) : list box * list box :=
  let '(out, line) := st in
  if is_BlockLevelBox child_box then
    if truthy line
    then ((out ++ [anonymous_block e (line_box e line)]) ++ [child_box], [])
    else (out ++ [child_box], line)
  else if is_LineBox child_box then (out, line ++ box_children child_box)
  else (out, line ++ [child_box]).

(** The end of [inline_in_block], after the loop. *)
Definition inline_in_block_finish (e : elem) (st : list box * list box) : list box :=
  let '(out, line) := st in
  if truthy line then
    if truthy out
    then out ++ [anonymous_block e (line_box e line)]
    else out ++ [line_box e line]
  else out.

(** [inline_in_block(box)]: the state of [box] after the call, and the value
    returned ([None] for the bare [return]). *)
Fixpoint inline_in_block (b : box) : box * option box :=
  match b with
  | ParentBox c e children m =>
      let children := map (fun child_box => fst (inline_in_block child_box)) children in
      if negb (block_container c) then (ParentBox c e children m, None)
      else
        let b' :=
          ParentBox c e
            (inline_in_block_finish e
               (fold_left (inline_in_block_step e) children ([], []))) m in
        (b', Some b')
  | _ => (b, None)
  end.

(** ** Blocks inside lines *)

(** The cursor of the resumable search: Python's [None] or [(skip, skip_stack)]. *)
Inductive stack :=
| SNone
| SPair (skip : nat) (skip_stack : stack).

(** What [_inner_block_in_inline] returns: [new_box], whether [new_box] is the
    argument object itself, [block_level_box], [resume_at]. *)
Definition search := (box * bool * option box * stack)%type.

Section Splitter.

(** The recursive calls, at a smaller fuel. *)
Variable block_in_inline_rec : box -> result (box * bool).
Variable inner_rec : box -> stack -> result search.

(** [for index, child in box.enumerate_skip(skip)] of [_inner_block_in_inline]:
    [children] are those from [index] on ([enumerate_skip] is modelled from the
    spec: it numbers the children and leaves out the first [skip]).  The result
    is [new_box.children], [block_level_box], [resume_at] and [changed]; the
    loop was left by [break] when [block_level_box] is not [None]. *)
Fixpoint inner_loop (skip_stack : stack) (index : nat) (children : list box)
    (new_children : list box) (resume_at : stack) (changed : bool)
    : result (list box * option box * stack * bool) :=
  match children with
  | [] => Ok (new_children, None, resume_at, changed)
  | child :: rest =>
      if is_BlockLevelBox child then
        Ok (new_children, Some child, SPair (S index) resume_at, changed)
      else
        '(new_child, same, block_level_box, resume_at) <-
          (if is_InlineBox child then inner_rec child skip_stack
           else if is_ParentBox child then
             '(new_child, same) <- block_in_inline_rec child ;;
             Ok (new_child, same, None, resume_at)
           else Ok (child, true, None, resume_at)) ;;
        let changed := changed || negb same in
        let new_children := new_children ++ [new_child] in
        match block_level_box with
        | Some _ => Ok (new_children, block_level_box, SPair index resume_at, changed)
        | None => inner_loop skip_stack (S index) rest new_children resume_at changed
        end
  end.

Definition inner_body (b : box) (skip_stack : stack) : result search :=
  match b with
  | ParentBox c e children m =>
      let '(skip, skip_stack) :=
        match skip_stack with
        | SNone => (0, SNone)
        | SPair skip skip_stack => (skip, skip_stack)
        end in
      '(new_children, block_level_box, resume_at, changed) <-
        inner_loop skip_stack skip (skipn skip children) [] SNone false ;;
      match block_level_box with
      | Some _ => Ok (ParentBox c e new_children m, false, block_level_box, resume_at)
      | None =>
          if negb (changed || (0 <? skip)%nat)
          then Ok (b, true, block_level_box, resume_at)
          else Ok (ParentBox c e new_children m, false, block_level_box, resume_at)
      end
  | _ => Raise AttributeError
  end.

(** [while 1] of [block_in_inline], at most [n] rounds: the last [new_line],
    whether it is [child] itself, and [new_children]. *)
Fixpoint split_loop (n : nat) (e : elem) (child : box) (stack_ : stack)
    (new_children : list box) : result (box * bool * list box) :=
  match n with
  | O => OutOfFuel
  | S n' =>
      '(new_line, same, block, stack_) <- inner_rec child stack_ ;;
      match block with
      | None => Ok (new_line, same, new_children)
      | Some block =>
          '(new_block, _) <- block_in_inline_rec block ;;
          split_loop n' e child stack_
            ((new_children ++ [anonymous_block e new_line]) ++ [new_block])
      end
  end.

(** One round of [for child in box.children] of [block_in_inline], on
    [new_children] and [changed]; [n] bounds the rounds of the inner loop. *)
Definition split_child (n : nat) (e : elem) (siblings : nat)
    (st : list box * bool) (child : box) : result (list box * bool) :=
  let '(new_children, changed) := st in
  '(new_child, same, new_children) <-
    (if is_LineBox child then
       if negb (siblings =? 1)%nat then Raise AssertionError
       else
         '(new_line, same, new_children) <- split_loop n e child SNone new_children ;;
         if truthy new_children
         then Ok (anonymous_block e new_line, false, new_children)
         else Ok (new_line, same, new_children)
     else
       '(new_child, same) <- block_in_inline_rec child ;;
       Ok (new_child, same, new_children)) ;;
  Ok (new_children ++ [new_child], changed || negb same).

Definition block_in_inline_body (n : nat) (b : box) : result (box * bool) :=
  match b with
  | ParentBox c e children m =>
      '(new_children, changed) <-
        for_each (split_child n e (List.length children)) children ([], false) ;;
      if changed : bool
      then Ok (ParentBox c e new_children m, false)
      else Ok (b, true)
  | _ => Ok (b, true)
  end.

End Splitter.

(** [block_in_inline(box)] and [_inner_block_in_inline(box, skip_stack)]:
    [fuel] bounds the depth of the calls and the rounds of the [while] loop. *)
Fixpoint block_in_inline (fuel : nat) (b : box) : result (box * bool) :=
  match fuel with
  | O => OutOfFuel
  | S fuel' =>
      block_in_inline_body (block_in_inline fuel') (_inner_block_in_inline fuel') fuel' b
  end
with _inner_block_in_inline (fuel : nat) (b : box) (skip_stack : stack) : result search :=
  match fuel with
  | O => OutOfFuel
  | S fuel' =>
      inner_body (block_in_inline fuel') (_inner_block_in_inline fuel') b skip_stack
  end.

(** [build_formatting_structure(document)], with the fuel of [block_in_inline].
    When [inline_in_block] returns [None], so does [block_in_inline], and
    [process_whitespace] fails on it: [None] has no [descendants]. *)
Definition build_formatting_structure (fuel : nat) (doc : document)
    (handle_element : document -> element -> option box) (dom : element)
    : result box :=
  b <- dom_to_box doc handle_element dom ;;
  match b with
  | None => Raise AssertionError
  | Some b =>
      match snd (inline_in_block b) with
      | Some b =>
          '(b, _) <- block_in_inline fuel b ;;
          Ok (process_whitespace doc b)
      | None => Raise AttributeError
      end
  end.

(** ** Vocabulary of the statements *)

(** Induction on a box tree: the children and the outside marker of a parent
    box come with the property. *)
Section BoxInduction.

Variable P : box -> Prop.
Hypothesis P_text : forall e t, P (TextBox e t).
Hypothesis P_image : forall e s, P (ImageMarkerBox e s).
Hypothesis P_parent : forall c e cs m,
  Forall P cs -> (forall mb, m = Some mb -> P mb) -> P (ParentBox c e cs m).

Fixpoint box_ind (b : box) : P b :=
  match b with
  | TextBox e t => P_text e t
  | ImageMarkerBox e s => P_image e s
  | ParentBox c e cs m =>
      P_parent c e
        ((fix all (l : list box) : Forall P l :=
            match l with
            | [] => Forall_nil P
            | x :: l' => Forall_cons x (box_ind x) (all l')
            end) cs)
        (match m as m0 return forall mb, m0 = Some mb -> P mb with
         | Some mb0 => fun mb H =>
             match H in _ = y return match y with Some z => P z | None => True end with
             | eq_refl => box_ind mb0
             end
         | None => fun mb H =>
             match H in _ = y return match y with Some z => P z | None => True end with
             | eq_refl => I
             end
         end)
  end.

End BoxInduction.

(** Induction on a DOM tree. *)
Section ElementInduction.

Variable P : element -> Prop.
Hypothesis P_element : forall tag i t children tl,
  Forall P children -> P (Element tag i t children tl).

Fixpoint element_ind (elt : element) : P elt :=
  match elt with
  | Element tag i t children tl =>
      P_element tag i t tl
        ((fix all (l : list element) : Forall P l :=
            match l with
            | [] => Forall_nil P
            | x :: l' => Forall_cons x (element_ind x) (all l')
            end) children)
  end.

End ElementInduction.

(** The inline-level content of a sequence of children of a block container:
    a line box stands for its own children. *)
Definition line_items (cs : list box) : list box :=
  flat_map (fun c => if is_LineBox c then box_children c else [c]) cs.

(** A run of inline-level children wrapped as AnonymousBlockBox(LineBox(run));
    a run with no content (empty line boxes only) leaves nothing. *)
Definition wrap_run (e : elem) (run : list box) : list box :=
  if truthy (line_items run)
  then [ParentBox AnonymousBlockBox e
          [ParentBox LineBox e (line_items run) None] None]
  else [].

(** [wrapped_runs e cs out]: [out] is [cs] in order, every block-level box
    standing as it is and every maximal run of consecutive boxes that are not
    block-level wrapped by [wrap_run]. *)
Inductive wrapped_runs (e : elem) : list box -> list box -> Prop :=
| wrapped_nil : wrapped_runs e [] []
| wrapped_block c cs out :
    is_BlockLevelBox c = true ->
    wrapped_runs e cs out ->
    wrapped_runs e (c :: cs) (c :: out)
| wrapped_run run cs out :
    run <> [] ->
    forallb (fun c => negb (is_BlockLevelBox c)) run = true ->
    match cs with [] => True | c :: _ => is_BlockLevelBox c = true end ->
    wrapped_runs e cs out ->
    wrapped_runs e (run ++ cs) (wrap_run e run ++ out).

(** The grouping as a function, with the content of the open line box. *)
Fixpoint group (e : elem) (pending : list box) (cs : list box) : list box :=
  match cs with
  | [] => if truthy pending then [anonymous_block e (line_box e pending)] else []
  | c :: cs' =>
      if is_BlockLevelBox c then
        (if truthy pending then [anonymous_block e (line_box e pending)] else [])
        ++ c :: group e [] cs'
      else group e (pending ++ line_items [c]) cs'
  end.


(** The text box a non-empty text adds. *)
Definition text_box (e : elem) (t : text) : list box :=
  if truthy t then [TextBox e t] else [].

(** [cs] added to the children of [b], in order. *)
Definition append_children (b : box) (cs : list box) : box :=
  match b with
  | ParentBox c e cs0 m => ParentBox c e (cs0 ++ cs) m
  | _ => b
  end.

Definition option_list {A} (o : option A) : list A :=
  match o with Some a => [a] | None => [] end.

Section BuildVocabulary.

Variable doc : document.
Variable handle_element : document -> element -> option box.

(** The boxes one child node of the element [e] adds to the box of [e]: the
    box built for it when it is an element that is not pruned, then a text box
    for its tail, whatever the node is. *)
Definition child_boxes (e : elem) (child : element) : result (list box) :=
  r <- match el_tag child with
       | Some _ => dom_to_box doc handle_element child
       | None => Ok None
       end ;;
  Ok (option_list r ++ text_box e (el_tail child)).

Fixpoint all_child_boxes (e : elem) (children : list element) : result (list box) :=
  match children with
  | [] => Ok []
  | child :: rest =>
      l1 <- child_boxes e child ;;
      l2 <- all_child_boxes e rest ;;
      Ok (l1 ++ l2)
  end.

(** The children of claim C4, where a node that is no element adds nothing,
    its tail included. *)
Definition claimed_child_boxes (e : elem) (child : element) : result (list box) :=
  match el_tag child with
  | Some _ =>
      r <- dom_to_box doc handle_element child ;;
      Ok (option_list r ++ text_box e (el_tail child))
  | None => Ok []
  end.

Fixpoint claimed_all_child_boxes (e : elem) (children : list element) : result (list box) :=
  match children with
  | [] => Ok []
  | child :: rest =>
      l1 <- claimed_child_boxes e child ;;
      l2 <- claimed_all_child_boxes e rest ;;
      Ok (l1 ++ l2)
  end.

End BuildVocabulary.

(** The identities of an element and of the nodes below it. *)
Fixpoint ids (elt : element) : list elem :=
  match elt with
  | Element _ i _ children _ => i :: flat_map ids children
  end.

(** The identities of the elements [dom_to_box] does not prune. *)
Fixpoint shown_ids (doc : document) (elt : element) : list elem :=
  match elt with
  | Element _ i _ children _ =>
      if display (style_for doc i) =? "none" then []
      else i :: flat_map (shown_ids doc) children
  end.

(** [within root e]: [e] is [root] or a node below it. *)
Inductive within : element -> element -> Prop :=
| within_self e : within e e
| within_child p child e : In child (el_children p) -> within child e -> within p e.

(** Every box of a tree, outside list markers included. *)
Fixpoint boxes_of (b : box) : list box :=
  b ::
  match b with
  | ParentBox _ _ cs m =>
      flat_map boxes_of cs ++
      match m with Some mb => boxes_of mb | None => [] end
  | _ => []
  end.

(** What claim C4 says [dom_to_box] returns for a displayed element with
    default handling. *)
Definition claimed_dom_to_box (doc : document)
    (handle_element : document -> element -> option box) (elt : element)
    : result (option box) :=
  b <- new_box doc (display (style_for doc (el_id elt))) elt ;;
  l <- claimed_all_child_boxes doc handle_element (el_id elt) (el_children elt) ;;
  Ok (Some (append_children b (text_box (el_id elt) (el_text elt) ++ l))).

(** ** Example documents *)

Definition plain_style (d : string) : style :=
  {| display := d; white_space := "normal"; list_style_image := None;
     list_style_type := "disc"; list_style_position := "inside" |}.

(** A document whose images cannot be fetched. *)
Definition plain_document (styles : elem -> style) : document :=
  {| style_for := styles; get_image_surface_from_uri := fun _ => None |}.

(** Every element gets the default handling. *)
Definition default_handling : document -> element -> option box := fun _ _ => None.

(** <p>a<!-- c -->b</p> *)
Definition paragraph_with_comment : element :=
  Element (Some "p") 0 (u "a") [Element None 1 (u " c ") [] (u "b")] [].

(** <ul><li>x</li><li style="display: none"><b>y</b></li>z</ul> *)
Definition list_with_hidden_item : element :=
  Element (Some "ul") 0 []
    [Element (Some "li") 1 (u "x") [] [];
     Element (Some "li") 2 [] [Element (Some "b") 3 (u "y") [] []] (u "z")] [].

Definition list_styles (e : elem) : style :=
  match e with
  | 0 => plain_style "block"
  | 1 => plain_style "list-item"
  | 2 => plain_style "none"
  | _ => plain_style "inline"
  end.

(** ** Vocabulary of the white-space statements *)

(** A zero-width space after every no-break space that no other no-break
    space follows. *)
Fixpoint break_after_nbsp (s : text) : text :=
  match s with
  | [] => []
  | c :: s' =>
      if (c =? NBSP)%N then
        if startswith s' NBSP then c :: break_after_nbsp s'
        else c :: ZWSP :: break_after_nbsp s'
      else c :: break_after_nbsp s'
  end.

Section WhitespaceVocabulary.

Variable doc : document.

(** The walk of [process_whitespace] as a recursion on the tree, the flag
    passed from each box to the next one in document order. *)
Fixpoint walk (b : box) (following : bool) : box * bool :=
  match b with
  | TextBox e t =>
      if truthy t then
        let '(t', following') := process_text (text_handling doc e) following t in
        (TextBox e t', following')
      else (b, following)
  | ImageMarkerBox _ _ => (b, following)
  | ParentBox c e cs m =>
      let '(cs', following') :=
        (fix walk_children (cs : list box) (following : bool) : list box * bool :=
           match cs with
           | [] => ([], following)
           | x :: rest =>
               let '(x', f1) := walk x following in
               let '(rest', f2) := walk_children rest f1 in
               (x' :: rest', f2)
           end) cs following in
      (ParentBox c e cs' m, following')
  end.

Fixpoint walk_children (cs : list box) (following : bool) : list box * bool :=
  match cs with
  | [] => ([], following)
  | x :: rest =>
      let '(x', f1) := walk x following in
      let '(rest', f2) := walk_children rest f1 in
      (x' :: rest', f2)
  end.

(** The modes in which white space collapses. *)
Definition collapsing (handling : string) : bool :=
  in_ handling ["normal"; "nowrap"; "pre-line"].

(** The text of a leaf after the substitutions of its mode, before the flag
    is looked at. *)
Definition collapsed (handling : string) (t : text) : text :=
  fst (process_text handling false t).

(** The flag threaded over the text boxes of a tree, taken in document order,
    as claim C6 words it: a text box with no text is not visited. *)
Fixpoint thread (flag : bool) (leaves : list (elem * text)) : list (elem * text) :=
  match leaves with
  | [] => []
  | (e, t) :: rest =>
      if truthy t then
        let h := text_handling doc e in
        if collapsing h then
          let c := collapsed h t in
          let t' := if flag && startswith c SPACE then tl c else c in
          (e, t') :: thread (endswith t' SPACE) rest
        else (e, collapsed h t) :: thread false rest
      else (e, t) :: thread flag rest
  end.

#[local] Unset Elimination Schemes.

(** The flag after the last of the text boxes. *)
Fixpoint thread_flag (flag : bool) (leaves : list (elem * text)) : bool :=
  match leaves with
  | [] => flag
  | (e, t) :: rest =>
      if truthy t then
        let h := text_handling doc e in
        if collapsing h then
          let c := collapsed h t in
          let t' := if flag && startswith c SPACE then tl c else c in
          thread_flag (endswith t' SPACE) rest
        else thread_flag false rest
      else thread_flag flag rest
  end.

(** What claim C9 says of a text box and its new text. *)
Definition preserved (leaf leaf' : elem * text) : Prop :=
  fst leaf' = fst leaf /\
  (truthy (snd leaf) = true ->
   (text_handling doc (fst leaf) = "pre" ->
    snd leaf' = replace SPACE NBSP (snd leaf)) /\
   (text_handling doc (fst leaf) = "pre-wrap" ->
    snd leaf' = break_after_nbsp (replace SPACE NBSP (snd leaf)))).

(** [only_text b b']: [b'] is [b] but for the text of text boxes that had
    some; such a text is the result of [process_text] on it. *)
Inductive only_text : box -> box -> Prop :=
| only_text_empty e : only_text (TextBox e []) (TextBox e [])
| only_text_text e t flag :
    truthy t = true ->
    only_text (TextBox e t) (TextBox e (fst (process_text (text_handling doc e) flag t)))
| only_text_image e s : only_text (ImageMarkerBox e s) (ImageMarkerBox e s)
| only_text_parent c e cs cs' m :
    Forall2 only_text cs cs' ->
    only_text (ParentBox c e cs m) (ParentBox c e cs' m).

#[local] Set Elimination Schemes.

End WhitespaceVocabulary.

(** The paths of the descendants of the children [cs], numbered from [i]. *)
Fixpoint children_paths (i : nat) (cs : list box) : list path :=
  match cs with
  | [] => []
  | c :: cs' => map (cons i) (descendants c) ++ children_paths (S i) cs'
  end.

(** The text boxes of a tree in document order, each with its element. *)
Fixpoint text_boxes (b : box) : list (elem * text) :=
  match b with
  | TextBox e t => [(e, t)]
  | ImageMarkerBox _ _ => []
  | ParentBox _ _ cs _ => flat_map text_boxes cs
  end.


(** ** Vocabulary of the splitter statements *)

(** The number of boxes of a tree, outside list markers apart. *)
Fixpoint size (b : box) : nat :=
  match b with
  | ParentBox _ _ cs _ => S (list_sum (map size cs))
  | _ => 1
  end.

Definition total_size (cs : list box) : nat := list_sum (map size cs).

(** The structural precondition of [block_in_inline]: a line box is the only
    child of its parent, and its parent is a block container. *)
Fixpoint lines_placed (b : box) : bool :=
  match b with
  | ParentBox c _ cs _ =>
      (if existsb is_LineBox cs
       then block_container c && (List.length cs =? 1)%nat
       else true)
      && forallb lines_placed cs
  | _ => true
  end.

(** A tree [block_in_inline] is meant for: its root is no line box. *)
Definition well_placed (b : box) : bool := negb (is_LineBox b) && lines_placed b.

(** No block-level box among the children of [b], nor among those of the
    inline boxes nested in it: the part of the tree that the search of
    [_inner_block_in_inline] walks. *)
Fixpoint inline_clean (b : box) : bool :=
  match b with
  | ParentBox _ _ cs _ =>
      forallb (fun c => negb (is_BlockLevelBox c) &&
                        (if is_InlineBox c then inline_clean c else true)) cs
  | _ => true
  end.

(** No line box of the tree, at any depth, holds a block-level box in its
    inline formatting context. *)
Fixpoint lines_clean (b : box) : bool :=
  match b with
  | ParentBox c _ cs _ =>
      (if is_LineBox b then inline_clean b else true) && forallb lines_clean cs
  | _ => true
  end.

(** A block-level box anywhere below [b], inline-block boxes entered too. *)
Fixpoint has_block_descendant (b : box) : bool :=
  match b with
  | ParentBox _ _ cs _ =>
      existsb (fun c => is_BlockLevelBox c || has_block_descendant c) cs
  | _ => false
  end.

(** What is left to search from the cursor [st] in the children [cs]. *)
Fixpoint remaining (cs : list box) (st : stack) {struct st} : nat :=
  match st with
  | SNone => total_size cs
  | SPair i rest =>
      match skipn i cs with
      | [] => 0
      | c :: after =>
          match rest with
          | SNone => size c
          | SPair _ _ =>
              if is_InlineBox c then remaining (box_children c) rest else size c
          end + total_size after
      end
  end.

(** ** Example trees *)

(** BlockBox[LineBox[InlineBox[BlockBox[], TextBox a],
                     InlineBox[TextBox b1, TextBox b2]]] *)
Definition two_inline_siblings : box :=
  ParentBox BlockBox 0
    [ParentBox LineBox 0
       [ParentBox InlineBox 1 [ParentBox BlockBox 2 [] None; TextBox 1 (u "a")] None;
        ParentBox InlineBox 3 [TextBox 3 (u "b1"); TextBox 3 (u "b2")] None] None] None.

(** BlockBox[LineBox[InlineBlockBox[BlockBox[LineBox[TextBox a]]]]] *)
Definition inline_block_in_line : box :=
  ParentBox BlockBox 0
    [ParentBox LineBox 0
       [ParentBox InlineBlockBox 1
          [ParentBox BlockBox 2 [ParentBox LineBox 2 [TextBox 2 (u "a")] None] None]
          None] None] None.

Definition box_class (b : box) : option parent_class :=
  match b with
  | ParentBox c _ _ _ => Some c
  | _ => None
  end.

(** The boxes [_inner_block_in_inline] is called on. *)
Definition inline_context (b : box) : bool := is_LineBox b || is_InlineBox b.

(** What the search leaves in a line box or in an inline box. *)
Definition inline_good (c : box) : Prop :=
  is_BlockLevelBox c = false /\ is_LineBox c = false /\
  lines_placed c = true /\ lines_clean c = true /\
  (is_InlineBox c = true -> inline_clean c = true).

(** What a child of a line or inline box is before the search, when the
    search has nothing to find in it. *)
Definition inline_done (c : box) : Prop :=
  is_BlockLevelBox c = false /\ lines_clean c = true /\
  (is_InlineBox c = true -> inline_clean c = true).

(** The result of a call of [block_in_inline] that returned. *)
Definition bii_sound (f : box -> result (box * bool)) : Prop :=
  forall b r same,
    f b = Ok (r, same) -> well_placed b = true ->
    box_class r = box_class b /\ lines_placed r = true /\ lines_clean r = true /\
    (same = true -> r = b) /\ (lines_clean b = true -> same = true).

(** The result of a call of [_inner_block_in_inline] that returned. *)
Definition inner_sound (g : box -> stack -> result search) : Prop :=
  forall b st nb same blk res,
    g b st = Ok (nb, same, blk, res) ->
    inline_context b = true -> lines_placed b = true ->
    box_class nb = box_class b /\ lines_placed nb = true /\
    lines_clean nb = true /\ inline_clean nb = true /\
    (forall k, blk = Some k -> is_BlockLevelBox k = true /\ lines_placed k = true) /\
    (same = true -> nb = b) /\
    (st = SNone -> lines_clean b = true -> inline_clean b = true ->
     same = true /\ blk = None).

(** [block_in_inline] returns on the trees of size at most [N] that meet the
    structural precondition. *)
Definition bii_total (N : nat) (f : box -> result (box * bool)) : Prop :=
  forall b, size b <= N -> well_placed b = true ->
  exists r same, f b = Ok (r, same).

(** [_inner_block_in_inline] returns on such trees, and a search that finds
    a block leaves a cursor with less to search. *)
Definition inner_total (N : nat) (g : box -> stack -> result search) : Prop :=
  forall b st, size b <= N -> inline_context b = true -> lines_placed b = true ->
  exists nb same blk res,
    g b st = Ok (nb, same, blk, res) /\
    (blk = None -> res = SNone) /\
    (forall k, blk = Some k ->
       res <> SNone /\ size k < size b /\
       remaining (box_children b) res < remaining (box_children b) st).

(** No line box of the tree has a block-level descendant at all, as claim C2
    words it. *)
Fixpoint no_block_in_lines (b : box) : bool :=
  match b with
  | ParentBox _ _ cs _ =>
      (if is_LineBox b then negb (has_block_descendant b) else true)
      && forallb no_block_in_lines cs
  | _ => true
  end.

(** The example of the docstring of [block_in_inline]. *)
Definition docstring_example : box :=
  ParentBox BlockBox 0
    [line_box 0
       [ParentBox InlineBox 1 [TextBox 1 (u "Hello.")] None;
        ParentBox InlineBox 2
          [TextBox 2 (u "Some ");
           ParentBox InlineBox 3
             [TextBox 3 (u "text");
              ParentBox BlockBox 4 [line_box 4 [TextBox 4 (u "More text")]] None;
              ParentBox BlockBox 5 [line_box 5 [TextBox 5 (u "More text again")]] None]
             None;
           ParentBox BlockBox 6 [line_box 6 [TextBox 6 (u "And again.")]] None]
          None]] None.

(** BlockBox[LineBox[], LineBox[]] *)
Definition two_lines : box :=
  ParentBox BlockBox 0 [line_box 0 []; line_box 0 []] None.

(** No line box anywhere in the tree: what [dom_to_box] builds. *)
Fixpoint no_lines (b : box) : bool :=
  match b with
  | ParentBox c _ cs _ => negb (is_LineBox b) && forallb no_lines cs
  | _ => true
  end.

(** <p>Some <em>emphasised</em> text.</p> *)
Definition emphasised_paragraph : element :=
  Element (Some "p") 0 (u "Some ")
    [Element (Some "em") 1 (u "emphasised") [] (u " text.")] [].

Definition paragraph_styles (e : elem) : style :=
  match e with
  | 0 => plain_style "block"
  | _ => plain_style "inline"
  end.

(** ** Vocabulary of further statements *)

(** The leaf boxes of a tree in document order, outside markers apart. *)
Fixpoint leaf_boxes (b : box) : list box :=
  match b with
  | ParentBox _ _ cs _ => flat_map leaf_boxes cs
  | _ => [b]
  end.

(** [s] without its leading characters of the set [p]. *)
Fixpoint drop_while (p : N -> bool) (s : text) : text :=
  match s with
  | c :: s' => if p c then drop_while p s' else s
  | [] => []
  end.

(** The number of leading characters of [s] in the set [p]. *)
Fixpoint leading (p : N -> bool) (s : text) : nat :=
  match s with
  | c :: s' => if p c then S (leading p s') else 0
  | [] => 0
  end.

(** Every run of spaces reduced to one space; [after_space] says that a
    space was just written. *)
Fixpoint collapse_spaces (after_space : bool) (s : text) : text :=
  match s with
  | [] => []
  | c :: s' =>
      if (c =? SPACE)%N then
        if after_space then collapse_spaces true s'
        else SPACE :: collapse_spaces true s'
      else c :: collapse_spaces false s'
  end.

(** No two spaces in a row. *)
Fixpoint single_spaced (s : text) : bool :=
  match s with
  | c :: s' =>
      negb ((c =? SPACE)%N && startswith s' SPACE) && single_spaced s'
  | [] => true
  end.

(** [s'] is [s] or what is left of [s] after some of its first characters. *)
Inductive suffix : text -> text -> Prop :=
| suffix_refl s : suffix s s
| suffix_tail c s s' : suffix s' s -> suffix s' (c :: s).

(** What a collapsing mode leaves of a text: no tab, no two spaces in a row
    and, but for the mode pre-line, no newline. *)
Definition well_collapsed (handling : string) (t : text) : Prop :=
  ~ In TAB t /\ single_spaced t = true /\ (handling <> "pre-line" -> ~ In LF t).

(** A text without its zero-width spaces. *)
Definition without_zwsp (t : text) : text :=
  filter (fun c => negb (c =? ZWSP)%N) t.

(** The values of [display] for which [dom_to_box] has a box. *)
Definition supported_display (d : string) : bool :=
  in_ d ["block"; "list-item"; "inline"; "inline-block"].

(** [add_list_marker] has a marker, or none to build, for the element [i]. *)
Definition marker_ok (doc : document) (i : elem) : bool :=
  let st := style_for doc i in
  match
    match list_style_image st with
    | Some uri => get_image_surface_from_uri doc uri
    | None => None
    end
  with
  | Some _ => true
  | None =>
      (list_style_type st =? "none") ||
      match GLYPH_LIST_MARKERS (list_style_type st) with
      | Some _ => true
      | None => false
      end
  end.

(** The default construction has a box for the element [i]. *)
Definition buildable (doc : document) (i : elem) : bool :=
  let d := display (style_for doc i) in
  supported_display d && (if d =? "list-item" then marker_ok doc i else true).

(** The exception of the default construction for the element [i]. *)
Definition build_error (doc : document) (i : elem) (ex : exn) : Prop :=
  ex = NotImplementedError ("Unsupported display: " ++ display (style_for doc i)) \/
  ex = KeyError (list_style_type (style_for doc i)).

(** The elements [dom_to_box] constructs a box for by default: those that are
    neither pruned nor handled by the hook, nor below such an element. *)
Fixpoint built_ids (doc : document)
    (handle_element : document -> element -> option box) (elt : element)
    : list elem :=
  match elt with
  | Element _ i _ children _ =>
      if display (style_for doc i) =? "none" then []
      else
        match handle_element doc elt with
        | Some _ => []
        | None =>
            i :: flat_map (fun child =>
                             match el_tag child with
                             | Some _ => built_ids doc handle_element child
                             | None => []
                             end) children
        end
  end.

(** No line box and no anonymous block box anywhere in the tree. *)
Fixpoint no_anonymous (b : box) : bool :=
  match b with
  | ParentBox c _ cs m =>
      match c with
      | LineBox | AnonymousBlockBox => false
      | _ => forallb no_anonymous cs
      end
  | _ => true
  end.

(** The elements constructed by default below the child nodes [children]:
    comments and processing instructions build nothing. *)
Definition children_built (doc : document)
    (handle_element : document -> element -> option box)
    (children : list element) : list elem :=
  flat_map (fun child =>
              match el_tag child with
              | Some _ => built_ids doc handle_element child
              | None => []
              end) children.

(** What a construction over the elements [built] can end in: a result when
    all of them are buildable, else the exception of one that is not. *)
Definition outcome {A} (doc : document) (built : list elem) (r : result A) : Prop :=
  match r with
  | Ok _ => Forall (fun i => buildable doc i = true) built
  | Raise ex =>
      exists i, In i built /\ buildable doc i = false /\ build_error doc i ex
  | OutOfFuel => False
  end.

(** Every block container of the tree holds block-level boxes only, or one
    line box only. *)
Fixpoint block_normal (b : box) : bool :=
  match b with
  | ParentBox c _ cs _ =>
      (if block_container c
       then forallb is_BlockLevelBox cs ||
            match cs with [x] => is_LineBox x | _ => false end
       else true)
      && forallb block_normal cs
  | _ => true
  end.

(** [r] has the classes and the line structure of [b]. *)
Definition same_shape (b r : box) : Prop :=
  box_class r = box_class b /\ lines_placed r = lines_placed b /\
  inline_clean r = inline_clean b /\ lines_clean r = lines_clean b /\
  block_normal r = block_normal b.

(** The box built for the root element is a block container: the element is
    displayed, and either the hook gives a block container for it or its
    [display] is not [inline]. *)
Definition root_container (doc : document)
    (handle_element : document -> element -> option box) (dom : element) : bool :=
  let d := display (style_for doc (el_id dom)) in
  negb (d =? "none") &&
  match handle_element doc dom with
  | Some r => is_BlockContainerBox r
  | None => negb (d =? "inline")
  end.

(** A call of [block_in_inline] that returns another object returns another
    tree. *)
Definition bii_exact (f : box -> result (box * bool)) : Prop :=
  forall b r same, f b = Ok (r, same) -> same = false -> r <> b.

(** A search of [_inner_block_in_inline] from the start that finds no block
    and returns another object returns another tree. *)
Definition inner_exact (g : box -> stack -> result search) : Prop :=
  forall b nb same res,
    g b SNone = Ok (nb, same, None, res) -> same = false -> nb <> b.

(** A block with a line of a text and an inline box. *)
Definition clean_block : box :=
  ParentBox BlockBox 0
    [line_box 0 [TextBox 0 (u "a"); ParentBox InlineBox 1 [TextBox 1 (u "b")] None]]
    None.

(** The first block-level box of the inline formatting context of [b], in
    document order: among the children of [b] and of the inline boxes nested
    in it. *)
Fixpoint first_block (b : box) : option box :=
  match b with
  | ParentBox _ _ cs _ =>
      (fix first_block_in (cs : list box) : option box :=
         match cs with
         | [] => None
         | child :: rest =>
             if is_BlockLevelBox child then Some child
             else
               match (if is_InlineBox child then first_block child else None) with
               | Some k => Some k
               | None => first_block_in rest
               end
         end) cs
  | _ => None
  end.

Fixpoint first_block_in (cs : list box) : option box :=
  match cs with
  | [] => None
  | child :: rest =>
      if is_BlockLevelBox child then Some child
      else
        match (if is_InlineBox child then first_block child else None) with
        | Some k => Some k
        | None => first_block_in rest
        end
  end.

(** A search of [_inner_block_in_inline] from the start finds the first
    block, and leaves no cursor when there is none. *)
Definition inner_first (g : box -> stack -> result search) : Prop :=
  forall b nb same blk res,
    g b SNone = Ok (nb, same, blk, res) ->
    blk = first_block b /\ (blk = None -> res = SNone).

(** A line of an inline box that holds a text and then a block. *)
Definition line_with_block : box :=
  line_box 0
    [ParentBox InlineBox 1
       [TextBox 1 (u "a"); ParentBox BlockBox 2 [] None; TextBox 1 (u "b")] None].



(** [block_in_inline] keeps the class of a box and the form of the block
    containers. *)
Definition bii_normal (f : box -> result (box * bool)) : Prop :=
  forall b r same,
    f b = Ok (r, same) ->
    box_class r = box_class b /\ (block_normal b = true -> block_normal r = true).

(** So does [_inner_block_in_inline], on a box that is no block container;
    the block it finds is block-level. *)
Definition inner_normal (g : box -> stack -> result search) : Prop :=
  forall b st nb same blk res,
    g b st = Ok (nb, same, blk, res) ->
    is_BlockContainerBox b = false -> block_normal b = true ->
    box_class nb = box_class b /\ block_normal nb = true /\
    (forall k, blk = Some k -> is_BlockLevelBox k = true /\ block_normal k = true).

(** The leaf boxes of what [block_in_inline] returns are leaf boxes of its
    argument. *)
Definition bii_no_new (f : box -> result (box * bool)) : Prop :=
  forall b r same,
    f b = Ok (r, same) -> incl (leaf_boxes r) (leaf_boxes b).

(** So are those of the box and of the block that [_inner_block_in_inline]
    returns. *)
Definition inner_no_new (g : box -> stack -> result search) : Prop :=
  forall b st nb same blk res,
    g b st = Ok (nb, same, blk, res) ->
    incl (leaf_boxes nb) (leaf_boxes b) /\
    (forall k, blk = Some k -> incl (leaf_boxes k) (leaf_boxes b)).

(** A tab, carriage return or space beside a newline. *)
Definition around_newline (a b : N) : bool :=
  (tab_cr_space a && (b =? LF)%N) || ((a =? LF)%N && tab_cr_space b).

(** No tab, carriage return or space just before or just after a newline. *)
Fixpoint tight (s : text) : bool :=
  match s with
  | [] => true
  | a :: r =>
      match r with
      | b :: _ => negb (around_newline a b)
      | [] => true
      end && tight r
  end.

Definition head_blank (s : text) : bool :=
  match s with c :: _ => tab_cr_space c | [] => false end.

Definition head_newline (s : text) : bool :=
  match s with c :: _ => (c =? LF)%N | [] => false end.

(** [s] without its tabs, carriage returns and spaces. *)
Definition without_blanks (s : text) : text :=
  filter (fun c => negb (tab_cr_space c)) s.
(** * Properties *)

(** ** Lines inside blocks *)

Lemma inline_in_block_parent : forall c e children m,
  inline_in_block (ParentBox c e children m) =
  let children := map (fun child_box => fst (inline_in_block child_box)) children in
  if negb (block_container c) then (ParentBox c e children m, None)
  else
    let b' :=
      ParentBox c e
        (inline_in_block_finish e
           (fold_left (inline_in_block_step e) children ([], []))) m in
    (b', Some b').
Proof. reflexivity. Qed.

Lemma inline_in_block_level : forall b,
  is_BlockLevelBox (fst (inline_in_block b)) = is_BlockLevelBox b.
Proof.
  destruct b as [e t | e s | c e cs m]; try reflexivity.
  rewrite inline_in_block_parent. cbv zeta.
  destruct (block_container c); reflexivity.
Qed.

Lemma existsb_block_level_normalized : forall cs,
  existsb is_BlockLevelBox (map (fun b => fst (inline_in_block b)) cs) =
  existsb is_BlockLevelBox cs.
Proof.
  induction cs as [| c cs IH]; simpl; [reflexivity |].
  now rewrite inline_in_block_level, IH.
Qed.

Lemma truthy_app_r : forall A (l : list A) x, truthy (l ++ [x]) = true.
Proof. destruct l; reflexivity. Qed.

Lemma line_items_app : forall l1 l2, line_items (l1 ++ l2) = line_items l1 ++ line_items l2.
Proof. intros. unfold line_items. now rewrite flat_map_app. Qed.

(** The loop computes [group]. *)
Lemma inline_in_block_loop_group : forall e cs out line out' line',
  fold_left (inline_in_block_step e) cs (out, line) = (out', line') ->
  out' ++ (if truthy line' then [anonymous_block e (line_box e line')] else []) =
  out ++ group e line cs.
Proof.
  induction cs as [| c cs IH]; intros out line out' line' H; simpl in H.
  - inversion H; subst. reflexivity.
  - simpl. destruct (is_BlockLevelBox c) eqn:Hb.
    + destruct (truthy line) eqn:Hl.
      * apply IH in H. rewrite H. now rewrite <- !app_assoc.
      * apply IH in H. rewrite H. destruct line; [| discriminate].
        now rewrite <- !app_assoc.
    + unfold line_items. simpl. rewrite app_nil_r.
      destruct (is_LineBox c); apply IH in H; exact H.
Qed.

Lemma inline_in_block_loop_inline : forall e cs out line,
  existsb is_BlockLevelBox cs = false ->
  fold_left (inline_in_block_step e) cs (out, line) = (out, line ++ line_items cs).
Proof.
  induction cs as [| c cs IH]; intros out line H; simpl in *.
  - now rewrite app_nil_r.
  - apply orb_false_iff in H as [Hc Hcs]. rewrite Hc.
    rewrite app_assoc. destruct (is_LineBox c); now apply IH.
Qed.

Lemma inline_in_block_loop_out : forall e cs out line,
  truthy out = true ->
  truthy (fst (fold_left (inline_in_block_step e) cs (out, line))) = true.
Proof.
  induction cs as [| c cs IH]; intros out line H; simpl; [exact H |].
  destruct (is_BlockLevelBox c).
  - destruct (truthy line); apply IH, truthy_app_r.
  - destruct (is_LineBox c); now apply IH.
Qed.

Lemma inline_in_block_loop_block : forall e cs out line,
  existsb is_BlockLevelBox cs = true ->
  truthy (fst (fold_left (inline_in_block_step e) cs (out, line))) = true.
Proof.
  induction cs as [| c cs IH]; intros out line H; simpl in *; [discriminate |].
  destruct (is_BlockLevelBox c) eqn:Hc.
  - destruct (truthy line); apply inline_in_block_loop_out, truthy_app_r.
  - simpl in H. destruct (is_LineBox c); now apply IH.
Qed.

Lemma group_wrapped_runs : forall e cs run,
  forallb (fun c => negb (is_BlockLevelBox c)) run = true ->
  wrapped_runs e (run ++ cs) (group e (line_items run) cs).
Proof.
  induction cs as [| c cs IH]; intros run Hrun.
  - simpl. destruct run as [| r run'].
    + constructor.
    + replace (if truthy (line_items (r :: run')) then _ else _)
        with (wrap_run e (r :: run') ++ []) by (unfold wrap_run; now rewrite app_nil_r).
      apply wrapped_run; [discriminate | assumption | exact I | constructor].
  - simpl. destruct (is_BlockLevelBox c) eqn:Hc.
    + assert (Htail : wrapped_runs e (c :: cs) (c :: group e [] cs)).
      { apply wrapped_block; [assumption |]. apply (IH []). reflexivity. }
      destruct run as [| r run'].
      * exact Htail.
      * change (if truthy (line_items (r :: run')) then _ else _)
          with (wrap_run e (r :: run')).
        apply wrapped_run; [discriminate | assumption | assumption | assumption].
    + change ((if is_LineBox c then box_children c else [c]) ++ [])
        with (line_items [c]).
      rewrite <- line_items_app.
      replace (run ++ c :: cs) with ((run ++ [c]) ++ cs) by now rewrite <- app_assoc.
      apply IH. rewrite forallb_app, Hrun. simpl. now rewrite Hc.
Qed.

(** C3. After [inline_in_block] the children of a block container are, when
    none of its children is block-level and there is inline-level content, the
    one line box holding that content, with no anonymous block around it; and
    otherwise its (normalized) children in document order, every block-level
    child as it is and every maximal run of consecutive inline-level children
    wrapped as AnonymousBlockBox(LineBox(run)), both boxes of the element of
    the container and without outside marker.  In particular the children
    [TextBox, InlineBox, BlockBox] become
    [AnonymousBlockBox(LineBox(TextBox, InlineBox)), BlockBox]. *)
Theorem inline_in_block_children : forall c e children m,
  block_container c = true ->
  let cs := map (fun b => fst (inline_in_block b)) children in
  let out := box_children (fst (inline_in_block (ParentBox c e children m))) in
  (if negb (existsb is_BlockLevelBox children) && truthy (line_items cs)
   then out = [ParentBox LineBox e (line_items cs) None]
   else wrapped_runs e cs out) /\
  (forall et t ei ics mi eb bcs mb,
     children = [TextBox et t; ParentBox InlineBox ei ics mi;
                 ParentBox BlockBox eb bcs mb] ->
     out = [ParentBox AnonymousBlockBox e
              [ParentBox LineBox e
                 [TextBox et t;
                  fst (inline_in_block (ParentBox InlineBox ei ics mi))] None] None;
            fst (inline_in_block (ParentBox BlockBox eb bcs mb))]).
Proof.
  intros c e children m Hc cs out. split.
  - subst out. rewrite inline_in_block_parent. cbv zeta. rewrite Hc. simpl.
    fold cs. rewrite <- (existsb_block_level_normalized children). fold cs.
    destruct (fold_left (inline_in_block_step e) cs ([], [])) as [out' line'] eqn:Hloop.
    pose proof (inline_in_block_loop_group e cs [] [] Hloop) as Hgroup.
    simpl in Hgroup.
    destruct (existsb is_BlockLevelBox cs) eqn:Hblock; simpl.
    + pose proof (inline_in_block_loop_block e cs [] [] Hblock) as Hout.
      rewrite Hloop in Hout. simpl in Hout. rewrite Hout.
      replace (if truthy line' then out' ++ _ else out') with (group e [] cs).
      * apply (group_wrapped_runs e cs []). reflexivity.
      * rewrite <- Hgroup. destruct (truthy line'); [reflexivity | now rewrite app_nil_r].
    + rewrite (inline_in_block_loop_inline e cs [] [] Hblock) in Hloop.
      simpl in Hloop. inversion Hloop; subst out' line'. simpl.
      destruct (truthy (line_items cs)) eqn:Hitems; [reflexivity |].
      simpl in Hgroup. rewrite Hgroup.
      apply (group_wrapped_runs e cs []). reflexivity.
  - intros et t ei ics mi eb bcs mb ->. subst out cs.
    rewrite (inline_in_block_parent c). cbv zeta. rewrite Hc.
    cbn [negb map fst]. rewrite !inline_in_block_parent. reflexivity.
Qed.

Lemma inline_in_block_children_witness :
  block_container BlockBox = true /\
  box_children
    (fst (inline_in_block
            (ParentBox BlockBox 0
               [TextBox 0 (u "Some "); ParentBox InlineBox 1 [TextBox 1 (u "text")] None;
                ParentBox BlockBox 2 [TextBox 2 (u "More text")] None] None))) =
  [ParentBox AnonymousBlockBox 0
     [ParentBox LineBox 0
        [TextBox 0 (u "Some "); ParentBox InlineBox 1 [TextBox 1 (u "text")] None]
        None] None;
   ParentBox BlockBox 2 [ParentBox LineBox 2 [TextBox 2 (u "More text")] None] None].
Proof.
  split; [reflexivity |].
  exact (proj2 (inline_in_block_children BlockBox 0
                  [TextBox 0 (u "Some "); ParentBox InlineBox 1 [TextBox 1 (u "text")] None;
                   ParentBox BlockBox 2 [TextBox 2 (u "More text")] None] None eq_refl)
               _ _ _ _ _ _ _ _ eq_refl).
Defined.

(** C5, on the code.  [inline_in_block] returns its argument only for a
    block container; for any other box it returns [None], after normalizing
    the children of the box in place.  [build_formatting_structure] uses the
    value returned: for a document whose root element is inline it fails. *)
Theorem inline_in_block_return : forall b,
  snd (inline_in_block b) =
    (if is_BlockContainerBox b then Some (fst (inline_in_block b)) else None) /\
  (is_BlockContainerBox b = false ->
   fst (inline_in_block b) =
     match b with
     | ParentBox c e children m =>
         ParentBox c e (map (fun child => fst (inline_in_block child)) children) m
     | _ => b
     end) /\
  snd (inline_in_block (ParentBox InlineBox 0 [TextBox 0 (u "text")] None)) = None /\
  build_formatting_structure 3 (plain_document (fun _ => plain_style "inline"))
    default_handling (Element (Some "span") 0 (u "text") [] []) = Raise AttributeError.
Proof.
  intros b. split; [| split; [| split; [| reflexivity]]].
  - destruct b as [e t | e s | c e cs m]; try reflexivity.
    rewrite inline_in_block_parent. cbv zeta. simpl.
    destruct (block_container c); reflexivity.
  - destruct b as [e t | e s | c e cs m]; try reflexivity.
    intros H. rewrite inline_in_block_parent. cbv zeta.
    change (block_container c = false) in H. now rewrite H.
  - reflexivity.
Qed.

(** ** Building boxes from the DOM *)

Section BuildProperties.

Variable doc : document.
Variable handle_element : document -> element -> option box.

Lemma dom_to_box_eq : forall elt,
  dom_to_box doc handle_element elt =
  let display := display (style_for doc (el_id elt)) in
  if display =? "none" then Ok None
  else
    match handle_element doc elt with
    | Some result => Ok (Some result)
    | None =>
        b <- new_box doc display elt ;;
        b <- add_text b (el_id elt) (el_text elt) ;;
        b <- for_each (add_child_element (dom_to_box doc handle_element) (el_id elt))
               (el_children elt) b ;;
        Ok (Some b)
    end.
Proof.
  intros [tag i t children tl]. cbn [dom_to_box el_id el_text el_children]. cbv zeta.
  destruct (display (style_for doc i) =? "none"); [reflexivity |].
  destruct (handle_element doc (Element tag i t children tl)); [reflexivity |].
  destruct (new_box doc (display (style_for doc i)) (Element tag i t children tl))
    as [b | e |]; [| reflexivity | reflexivity].
  cbn [bind]. destruct (add_text b i t) as [b1 | e |]; [| reflexivity | reflexivity].
  cbn [bind]. f_equal. clear b. revert b1.
  induction children as [| child rest IH]; intros b1; [reflexivity |].
  cbn [for_each]. destruct (add_child_element _ i b1 child); cbn [bind]; auto.
Qed.

Lemma add_list_marker_parent : forall b b',
  is_ParentBox b = true -> add_list_marker doc b = Ok b' ->
  exists cs m, b' = ParentBox match b with ParentBox c _ _ _ => c | _ => BlockBox end
                      (box_element b) cs m.
Proof.
  intros [e t | e s | c e cs m] b' Hp H; try discriminate.
  unfold add_list_marker in H.
  destruct (list_marker_box doc (ParentBox c e cs m)) as [[mk |] | |]; cbn [bind] in H;
    try discriminate.
  - destruct (_ =? "inside").
    + destruct (truthy _); [discriminate |]. simpl in H. inversion H. eauto.
    + destruct (_ =? "outside"); inversion H; eauto.
  - inversion H. eauto.
Qed.

Lemma new_box_parent : forall d elt b,
  new_box doc d elt = Ok b ->
  exists c cs m, b = ParentBox c (el_id elt) cs m.
Proof.
  intros d elt b H. unfold new_box in H.
  destruct ((d =? "block") || (d =? "list-item")).
  - destruct (d =? "list-item").
    + apply add_list_marker_parent in H; [| reflexivity].
      destruct H as (cs & m & ->). simpl. eauto.
    + inversion H. eauto.
  - destruct (d =? "inline"); [inversion H; eauto |].
    destruct (d =? "inline-block"); [inversion H; eauto | discriminate].
Qed.

Lemma add_text_parent : forall c e cs m e' t,
  add_text (ParentBox c e cs m) e' t = Ok (ParentBox c e (cs ++ text_box e' t) m).
Proof.
  intros. unfold add_text, text_box. destruct (truthy t); simpl; [reflexivity |].
  now rewrite app_nil_r.
Qed.

(** The loop over the child nodes appends what [all_child_boxes] collects. *)
Lemma children_loop_boxes : forall i children c e cs m,
  for_each (add_child_element (dom_to_box doc handle_element) i) children
    (ParentBox c e cs m) =
  (l <- all_child_boxes doc handle_element i children ;;
   Ok (ParentBox c e (cs ++ l) m)).
Proof.
  induction children as [| child rest IH]; intros c e cs m.
  - simpl. now rewrite app_nil_r.
  - cbn [for_each all_child_boxes]. unfold add_child_element, child_boxes.
    destruct (el_tag child).
    + destruct (dom_to_box doc handle_element child) as [[cb |] | ex |]; cbn [bind];
        try reflexivity.
      * cbn [add_child bind]. rewrite add_text_parent. cbn [bind]. rewrite IH.
        destruct (all_child_boxes doc handle_element i rest); cbn [bind]; try reflexivity.
        cbn [option_list]. now rewrite <- !app_assoc.
      * rewrite add_text_parent. cbn [bind]. rewrite IH.
        destruct (all_child_boxes doc handle_element i rest); cbn [bind]; try reflexivity.
        cbn [option_list]. now rewrite <- !app_assoc.
    + cbn [bind]. rewrite add_text_parent. cbn [bind]. rewrite IH.
      destruct (all_child_boxes doc handle_element i rest); cbn [bind]; try reflexivity.
      cbn [option_list]. now rewrite <- !app_assoc.
Qed.

Lemma dom_to_box_default : forall elt,
  handle_element doc elt = None ->
  (display (style_for doc (el_id elt)) =? "none") = false ->
  dom_to_box doc handle_element elt =
  (b <- new_box doc (display (style_for doc (el_id elt))) elt ;;
   l <- all_child_boxes doc handle_element (el_id elt) (el_children elt) ;;
   Ok (Some (append_children b (text_box (el_id elt) (el_text elt) ++ l)))).
Proof.
  intros elt Hh Hd. rewrite dom_to_box_eq. cbv zeta. rewrite Hd, Hh.
  destruct (new_box doc _ elt) as [b | ex |] eqn:Hb; [| reflexivity | reflexivity].
  apply new_box_parent in Hb as (c & cs & m & ->). cbn [bind].
  rewrite add_text_parent. cbn [bind]. rewrite children_loop_boxes.
  destruct (all_child_boxes _ _ _ _); cbn [bind]; try reflexivity.
  simpl. now rewrite <- app_assoc.
Qed.

(** C4, as the code has it.  For an element that is displayed and left to the
    default construction, [dom_to_box] returns the box made for its display
    (with the list marker, for a list item) to which were appended, in
    document order: a text box for the leading text when it is not empty, then
    for each child node the box built for it when it is an element that is not
    pruned, and a text box for the tail of the node when it is not empty,
    whether the node is an element, a pruned element, a comment or a
    processing instruction.  An exception of the construction of the box or of
    a child is the outcome. *)
Theorem dom_to_box_children : forall elt,
  handle_element doc elt = None ->
  (display (style_for doc (el_id elt)) =? "none") = false ->
  dom_to_box doc handle_element elt =
  (b <- new_box doc (display (style_for doc (el_id elt))) elt ;;
   l <- all_child_boxes doc handle_element (el_id elt) (el_children elt) ;;
   Ok (Some (append_children b (text_box (el_id elt) (el_text elt) ++ l)))) /\
  (forall child,
     child_boxes doc handle_element (el_id elt) child =
     match el_tag child with
     | None => Ok (text_box (el_id elt) (el_tail child))
     | Some _ =>
         r <- dom_to_box doc handle_element child ;;
         Ok (option_list r ++ text_box (el_id elt) (el_tail child))
     end).
Proof.
  intros elt Hh Hd. split; [now apply dom_to_box_default |].
  intros child. unfold child_boxes. now destruct (el_tag child).
Qed.

End BuildProperties.

Lemma dom_to_box_children_witness :
  dom_to_box (plain_document (fun _ => plain_style "block")) default_handling
    paragraph_with_comment =
  Ok (Some (ParentBox BlockBox 0 [TextBox 0 (u "a"); TextBox 0 (u "b")] None)).
Proof.
  exact (proj1 (dom_to_box_children (plain_document (fun _ => plain_style "block"))
                  default_handling paragraph_with_comment eq_refl eq_refl)).
Defined.

(** C4, as stated, fails for <p>a<!-- c -->b</p>: the text after the comment
    is the tail of the comment node, and the code builds a text box for it. *)
Lemma dom_to_box_comment_tail :
  dom_to_box (plain_document (fun _ => plain_style "block")) default_handling
    paragraph_with_comment <>
  claimed_dom_to_box (plain_document (fun _ => plain_style "block")) default_handling
    paragraph_with_comment.
Proof. vm_compute. discriminate. Qed.

(** ** List markers *)

(** C7.  [add_list_marker] builds an image marker from the surface when the
    image is configured and can be resolved; with no image, or one that
    cannot be resolved, the glyph of the list-style-type (disc, circle,
    square); with list-style-type none and no surface no marker, and the box
    is left as it is.  Inside a box with no children, a disc marker and a
    no-break space become the first two children, and they stay the first two
    children of the block box [dom_to_box] builds for a list item. *)
Theorem add_list_marker_cases : forall doc b,
  let st := style_for doc (box_element b) in
  let no_surface :=
    list_style_image st = None \/
    exists uri, list_style_image st = Some uri /\
                get_image_surface_from_uri doc uri = None in
  (forall uri s,
     list_style_image st = Some uri -> get_image_surface_from_uri doc uri = Some s ->
     list_marker_box doc b = Ok (Some (ImageMarkerBox (box_element b) s))) /\
  (forall glyph,
     no_surface ->
     In (list_style_type st, glyph)
        [("disc", BULLET); ("circle", WHITE_BULLET); ("square", BLACK_SMALL_SQUARE)] ->
     list_marker_box doc b = Ok (Some (TextBox (box_element b) [glyph]))) /\
  (no_surface -> list_style_type st = "none" ->
     list_marker_box doc b = Ok None /\ add_list_marker doc b = Ok b) /\
  (forall c e m,
     b = ParentBox c e [] m ->
     list_style_image st = None -> list_style_type st = "disc" ->
     list_style_position st = "inside" ->
     add_list_marker doc b = Ok (ParentBox c e [TextBox e [BULLET]; TextBox e [NBSP]] m)) /\
  (forall handle_element elt bx,
     box_element b = el_id elt ->
     handle_element doc elt = None -> display st = "list-item" ->
     list_style_image st = None -> list_style_type st = "disc" ->
     list_style_position st = "inside" ->
     dom_to_box doc handle_element elt = Ok (Some bx) ->
     exists rest,
       bx = ParentBox BlockBox (el_id elt)
              (TextBox (el_id elt) [BULLET] :: TextBox (el_id elt) [NBSP] :: rest) None).
Proof.
  intros doc b st no_surface.
  assert (Hsurf : no_surface ->
            match list_style_image st with
            | Some uri => get_image_surface_from_uri doc uri
            | None => None
            end = None).
  { intros [-> | (uri & -> & ->)]; reflexivity. }
  repeat split.
  - intros uri s Hi Hs. unfold list_marker_box. fold st. now rewrite Hi, Hs.
  - intros glyph Hn Hin. unfold list_marker_box. fold st. rewrite (Hsurf Hn).
    cbv zeta. simpl in Hin.
    destruct Hin as [H | [H | [H | []]]]; injection H as Ht Hg;
      rewrite <- Ht, <- Hg; reflexivity.
  - unfold list_marker_box. fold st. rewrite (Hsurf H), H0. reflexivity.
  - unfold add_list_marker, list_marker_box. fold st. rewrite (Hsurf H), H0. reflexivity.
  - intros c e m -> Hi Ht Hp. unfold add_list_marker, list_marker_box.
    cbn [box_element] in *. fold st. rewrite Hi, Ht, Hp. reflexivity.
  - intros handle_element elt bx Hb Hh Hd Hi Ht Hp Hbox.
    subst st. rewrite Hb in *.
    rewrite dom_to_box_default in Hbox; [| assumption | now rewrite Hd].
    rewrite Hd in Hbox. unfold new_box in Hbox. cbn [String.eqb orb] in Hbox.
    unfold add_list_marker, list_marker_box in Hbox. cbn [box_element] in Hbox.
    rewrite Hi, Ht, Hp in Hbox. cbn in Hbox.
    destruct (all_child_boxes _ _ _ _) as [l | |]; cbn in Hbox; inversion Hbox.
    eauto.
Qed.

Lemma add_list_marker_cases_witness :
  add_list_marker (plain_document (fun _ => plain_style "list-item"))
    (ParentBox BlockBox 7 [] None) =
  Ok (ParentBox BlockBox 7 [TextBox 7 [BULLET]; TextBox 7 [NBSP]] None).
Proof.
  exact (proj1 (proj2 (proj2 (proj2
           (add_list_marker_cases (plain_document (fun _ => plain_style "list-item"))
              (ParentBox BlockBox 7 [] None)))))
           BlockBox 7 None eq_refl eq_refl eq_refl eq_refl).
Defined.

(** ** Pruning of [display: none] *)

Lemma NoDup_app_disjoint : forall A (l1 l2 : list A) x,
  NoDup (l1 ++ l2) -> In x l1 -> In x l2 -> False.
Proof.
  induction l1 as [| a l1 IH]; intros l2 x Hnd H1 H2; [contradiction |].
  simpl in Hnd. inversion Hnd as [| ? ? Hna Hnd']; subst.
  destruct H1 as [-> | H1].
  - apply Hna. apply in_or_app. now right.
  - eapply IH; eassumption.
Qed.

Lemma NoDup_flat_map_in : forall A B (f : A -> list B) l a,
  NoDup (flat_map f l) -> In a l -> NoDup (f a).
Proof.
  induction l as [| b l IH]; intros a Hnd Hin; [contradiction |].
  simpl in Hnd. destruct Hin as [-> | Hin].
  - eapply NoDup_app_remove_r. eassumption.
  - apply IH; [| assumption]. eapply NoDup_app_remove_l. eassumption.
Qed.

Lemma NoDup_flat_map_same : forall A B (f : A -> list B) l a b x,
  NoDup (flat_map f l) -> In a l -> In b l -> In x (f a) -> In x (f b) -> a = b.
Proof.
  induction l as [| c l IH]; intros a b x Hnd Ha Hb Hxa Hxb; [contradiction |].
  simpl in Hnd. destruct Ha as [-> | Ha], Hb as [-> | Hb].
  - reflexivity.
  - exfalso. eapply NoDup_app_disjoint; [eassumption | eassumption |].
    apply in_flat_map. eauto.
  - exfalso. eapply NoDup_app_disjoint; [eassumption | eassumption |].
    apply in_flat_map. eauto.
  - eapply IH; try eassumption. eapply NoDup_app_remove_l. eassumption.
Qed.

Lemma ids_eq : forall elt, ids elt = el_id elt :: flat_map ids (el_children elt).
Proof. now intros []. Qed.

Lemma within_ids : forall a e, within a e -> forall i, In i (ids e) -> In i (ids a).
Proof.
  induction 1 as [e | p child e Hin Hw IH]; intros i Hi; [assumption |].
  rewrite ids_eq. right. apply in_flat_map. eauto.
Qed.

Lemma within_id : forall e n, within e n -> In (el_id n) (ids e).
Proof.
  intros e n H. apply (within_ids H). rewrite ids_eq. now left.
Qed.

Lemma shown_ids_ids : forall doc elt i, In i (shown_ids doc elt) -> In i (ids elt).
Proof.
  intros doc elt. induction elt as [tag j t children tl IH] using element_ind.
  intros i. cbn [shown_ids ids].
  destruct (display (style_for doc j) =? "none"); [contradiction |].
  intros [-> | H]; [now left | right].
  apply in_flat_map in H as (ch & Hch & Hi). apply in_flat_map.
  exists ch. split; [assumption |].
  rewrite Forall_forall in IH. now apply IH.
Qed.

(** Nothing below a pruned element is among the shown identities. *)
Lemma pruned_not_shown : forall doc root e,
  within root e ->
  NoDup (ids root) ->
  (display (style_for doc (el_id e)) =? "none") = true ->
  forall i, In i (ids e) -> ~ In i (shown_ids doc root).
Proof.
  intros doc root e Hw.
  induction Hw as [e | p child e Hin Hw IH]; intros Hnd Hd i Hi Hs.
  - destruct e as [tag j t children tl]. cbn [shown_ids el_id] in *.
    rewrite Hd in Hs. contradiction.
  - destruct p as [tag j t children tl]. cbn [shown_ids el_children ids] in *.
    destruct (display (style_for doc j) =? "none"); [contradiction |].
    inversion Hnd as [| ? ? Hnj Hnd']; subst.
    pose proof (within_ids Hw _ Hi) as Hic.
    destruct Hs as [-> | Hs].
    + apply Hnj. apply in_flat_map. eauto.
    + apply in_flat_map in Hs as (ch & Hch & Hs).
      assert (ch = child) as ->.
      { eapply (NoDup_flat_map_same ids); try eassumption.
        now apply shown_ids_ids in Hs. }
      eapply IH; try eassumption.
      eapply NoDup_flat_map_in; eassumption.
Qed.

Section Origin.

Variable doc : document.
Variable handle_element : document -> element -> option box.

(** The hook builds boxes for the element it is given. *)
Hypothesis hook_local : forall elt b,
  handle_element doc elt = Some b ->
  forall x, In x (boxes_of b) -> box_element x = el_id elt.

Lemma add_list_marker_origin : forall c e b,
  add_list_marker doc (ParentBox c e [] None) = Ok b ->
  forall x, In x (boxes_of b) -> box_element x = e.
Proof.
  intros c e b H x Hx. unfold add_list_marker, list_marker_box in H.
  cbn [box_element box_children truthy] in H.
  destruct (match list_style_image (style_for doc e) with
            | Some uri => get_image_surface_from_uri doc uri
            | None => None
            end) as [s |].
  - cbn [bind] in H.
    destruct (_ =? "inside"); [| destruct (_ =? "outside")];
      inversion H; subst b; simpl in Hx;
      repeat (destruct Hx as [<- | Hx]; [reflexivity |]); contradiction.
  - destruct (_ =? "none").
    + inversion H; subst b. simpl in Hx. destruct Hx as [<- | []]. reflexivity.
    + destruct (GLYPH_LIST_MARKERS _); [| discriminate]. cbn [bind] in H.
      destruct (_ =? "inside"); [| destruct (_ =? "outside")];
        inversion H; subst b; simpl in Hx;
        repeat (destruct Hx as [<- | Hx]; [reflexivity |]); contradiction.
Qed.

Lemma new_box_origin : forall d elt b,
  new_box doc d elt = Ok b ->
  forall x, In x (boxes_of b) -> box_element x = el_id elt.
Proof.
  intros d elt b H x Hx. unfold new_box in H.
  destruct ((d =? "block") || (d =? "list-item")).
  - destruct (d =? "list-item"); [eapply add_list_marker_origin; eassumption |].
    inversion H; subst b. simpl in Hx. destruct Hx as [<- | []]. reflexivity.
  - destruct (d =? "inline");
      [inversion H; subst b; simpl in Hx; destruct Hx as [<- | []]; reflexivity |].
    destruct (d =? "inline-block"); [| discriminate].
    inversion H; subst b; simpl in Hx; destruct Hx as [<- | []]; reflexivity.
Qed.

Lemma boxes_of_parent : forall c e cs m x,
  In x (boxes_of (ParentBox c e cs m)) <->
  x = ParentBox c e cs m \/ (exists ch, In ch cs /\ In x (boxes_of ch)) \/
  (exists mb, m = Some mb /\ In x (boxes_of mb)).
Proof.
  intros. cbn [boxes_of]. split.
  - intros [<- | H]; [now left | right].
    apply in_app_or in H as [H | H].
    + left. apply in_flat_map in H. exact H.
    + right. destruct m as [mb |]; [eauto | contradiction].
  - intros [-> | [H | (mb & -> & H)]]; [now left | right; apply in_or_app ..].
    + left. apply in_flat_map. exact H.
    + now right.
Qed.

Lemma all_child_boxes_origin : forall j children,
  Forall (fun elt => forall b, dom_to_box doc handle_element elt = Ok (Some b) ->
            forall x, In x (boxes_of b) -> In (box_element x) (shown_ids doc elt))
         children ->
  forall l, all_child_boxes doc handle_element j children = Ok l ->
  forall ch x, In ch l -> In x (boxes_of ch) ->
  box_element x = j \/ In (box_element x) (flat_map (shown_ids doc) children).
Proof.
  induction 1 as [| child rest Hchild Hrest IHrest]; intros l Hl ch x Hch Hx.
  - inversion Hl; subst l. contradiction.
  - cbn [all_child_boxes] in Hl.
    destruct (child_boxes doc handle_element j child) as [l1 | |] eqn:Hl1;
      try discriminate.
    destruct (all_child_boxes doc handle_element j rest) as [l2 | |] eqn:Hl2;
      try discriminate.
    cbn [bind] in Hl. inversion Hl; subst l.
    cbn [flat_map]. apply in_app_or in Hch as [Hch | Hch].
    + unfold child_boxes in Hl1.
      destruct (match el_tag child with
                | Some _ => dom_to_box doc handle_element child
                | None => Ok None
                end) as [r | |] eqn:Hr; try discriminate.
      cbn [bind] in Hl1. inversion Hl1; subst l1.
      apply in_app_or in Hch as [Hch | Hch].
      * right. apply in_or_app. left. destruct r as [cb |]; [| contradiction].
        destruct Hch as [<- | []].
        destruct (el_tag child); [| discriminate].
        eapply Hchild; eassumption.
      * left. unfold text_box in Hch.
        destruct (truthy (el_tail child)); [| contradiction].
        destruct Hch as [<- | []]. simpl in Hx. destruct Hx as [<- | []].
        reflexivity.
    + destruct (IHrest l2 eq_refl ch x Hch Hx) as [H | H]; [now left | right].
      apply in_or_app. now right.
Qed.

(** Every box [dom_to_box] builds comes from an element that is shown. *)
Lemma dom_to_box_origin : forall elt b,
  dom_to_box doc handle_element elt = Ok (Some b) ->
  forall x, In x (boxes_of b) -> In (box_element x) (shown_ids doc elt).
Proof.
  intros elt. induction elt as [tag j t children tl IH] using element_ind.
  intros b H x Hx. rewrite dom_to_box_eq in H. cbv zeta in H.
  cbn [shown_ids el_id el_text el_children] in *.
  destruct (display (style_for doc j) =? "none") eqn:Hd; [discriminate |].
  destruct (handle_element doc (Element tag j t children tl)) as [r |] eqn:Hh.
  - inversion H; subst r. left. symmetry. exact (hook_local Hh x Hx).
  - destruct (new_box doc _ _) as [b0 | |] eqn:Hb0; try discriminate.
    pose proof (new_box_origin _ _ Hb0) as Horigin.
    apply new_box_parent in Hb0 as (c & cs & m & ->). cbn [bind el_id] in *.
    rewrite add_text_parent in H. cbn [bind] in H.
    rewrite children_loop_boxes in H.
    destruct (all_child_boxes doc handle_element j children) as [l | |] eqn:Hl;
      try discriminate.
    cbn [bind] in H. inversion H; subst b. clear H.
    apply boxes_of_parent in Hx as [-> | [(ch & Hch & Hx) | (mb & -> & Hx)]].
    + now left.
    + apply in_app_or in Hch as [Hch | Hch];
        [apply in_app_or in Hch as [Hch | Hch] |].
      * left. symmetry. apply Horigin. apply boxes_of_parent. right. left. eauto.
      * unfold text_box in Hch. destruct (truthy t); [| contradiction].
        destruct Hch as [<- | []]. simpl in Hx. destruct Hx as [<- | []]. now left.
      * destruct (@all_child_boxes_origin j children IH l Hl ch x Hch Hx) as [-> | H];
          [now left | now right].
    + left. symmetry. apply Horigin. apply boxes_of_parent. right. right. eauto.
Qed.

End Origin.

(** C8.  For an element whose display is none [dom_to_box] returns nothing,
    whatever the hook would answer and whatever is below the element; and in
    the tree built for a document (with distinct element identities, and a
    hook that builds boxes for the element it is given) no box originates
    from such an element or from a node below it. *)
Theorem display_none_pruned : forall doc handle_element,
  (forall elt,
     display (style_for doc (el_id elt)) = "none" ->
     dom_to_box doc handle_element elt = Ok None) /\
  ((forall elt b, handle_element doc elt = Some b ->
                  forall x, In x (boxes_of b) -> box_element x = el_id elt) ->
   forall root out,
     NoDup (ids root) ->
     dom_to_box doc handle_element root = Ok (Some out) ->
     forall e n x,
       within root e -> display (style_for doc (el_id e)) = "none" ->
       within e n -> In x (boxes_of out) ->
       box_element x <> el_id n).
Proof.
  intros doc handle_element. split.
  - intros elt Hd. rewrite dom_to_box_eq. cbv zeta. now rewrite Hd.
  - intros Hhook root out Hnd Hout e n x He Hd Hn Hx Heq.
    apply (@pruned_not_shown doc root e He Hnd) with (i := el_id n).
    + now rewrite Hd.
    + now apply within_id.
    + rewrite <- Heq. eapply dom_to_box_origin; eassumption.
Qed.

Lemma display_none_pruned_witness :
  dom_to_box (plain_document list_styles) default_handling list_with_hidden_item =
    Ok (Some (ParentBox BlockBox 0
                [ParentBox BlockBox 1
                   [TextBox 1 [BULLET]; TextBox 1 [NBSP]; TextBox 1 (u "x")] None;
                 TextBox 0 (u "z")] None)) /\
  Forall (fun x => box_element x <> 3)
    (boxes_of (ParentBox BlockBox 0
                 [ParentBox BlockBox 1
                    [TextBox 1 [BULLET]; TextBox 1 [NBSP]; TextBox 1 (u "x")] None;
                  TextBox 0 (u "z")] None)).
Proof.
  split; [reflexivity |].
  apply Forall_forall. intros x Hx.
  refine (proj2 (display_none_pruned (plain_document list_styles) default_handling)
            _ list_with_hidden_item _ _ eq_refl
            (Element (Some "li") 2 [] [Element (Some "b") 3 (u "y") [] []] (u "z"))
            (Element (Some "b") 3 (u "y") [] []) x _ eq_refl _ Hx).
  - intros elt b H. discriminate H.
  - repeat constructor; simpl; intuition discriminate.
  - eapply within_child; [| apply within_self]. simpl. right. now left.
  - eapply within_child; [| apply within_self]. simpl. now left.
Defined.

(** ** White-space processing *)

Lemma descendants_parent : forall c e cs m,
  descendants (ParentBox c e cs m) = [] :: children_paths 0 cs.
Proof.
  reflexivity.
Qed.

Lemma update_nth_middle : forall A (f : A -> A) pre x post,
  update_nth (List.length pre) f (pre ++ x :: post) = pre ++ f x :: post.
Proof.
  induction pre as [| y pre IH]; intros x post; [reflexivity |].
  simpl. now rewrite IH.
Qed.

Section WhitespaceProperties.

Variable doc : document.

Lemma walk_parent : forall c e cs m f,
  walk doc (ParentBox c e cs m) f =
  let '(cs', f') := walk_children doc cs f in (ParentBox c e cs' m, f').
Proof.
  intros. cbn [walk].
  match goal with
  | |- (let '(_, _) := ?l cs f in _) = _ =>
      replace (l cs f) with (walk_children doc cs f); [reflexivity |]
  end.
  revert f. induction cs as [| x cs IH]; intros f; [reflexivity |].
  cbn [walk_children]. destruct (walk doc x f) as [x' f1]. now rewrite IH.
Qed.

(** A visit below the child [c0] of a parent box is the visit in [c0]. *)
Lemma visit_child : forall p c0 f0 pre post k e m,
  visit doc (ParentBox k e (pre ++ c0 :: post) m, f0) (List.length pre :: p) =
  let '(c1, f1) := visit doc (c0, f0) p in
  (ParentBox k e (pre ++ c1 :: post) m, f1).
Proof.
  intros. unfold visit. cbn [box_at box_children].
  rewrite nth_error_app2, Nat.sub_diag by lia. cbn [nth_error].
  destruct (box_at c0 p) as [[e' t | e' s | c' e' cs' m'] |]; try reflexivity.
  destruct (truthy t); [| reflexivity].
  destruct (process_text (text_handling doc e') f0 t) as [t' f1].
  cbn [set_utf8_text]. now rewrite update_nth_middle.
Qed.

Lemma fold_visit_child : forall ps c0 f0 pre post k e m,
  fold_left (visit doc) (map (cons (List.length pre)) ps)
    (ParentBox k e (pre ++ c0 :: post) m, f0) =
  let '(c1, f1) := fold_left (visit doc) ps (c0, f0) in
  (ParentBox k e (pre ++ c1 :: post) m, f1).
Proof.
  induction ps as [| p ps IH]; intros; [reflexivity |].
  cbn [map fold_left]. rewrite visit_child.
  destruct (visit doc (c0, f0) p) as [c1 f1]. apply IH.
Qed.

Lemma fold_visit_children : forall k e m cs,
  Forall (fun c => forall f, fold_left (visit doc) (descendants c) (c, f) = walk doc c f) cs ->
  forall pre f,
  fold_left (visit doc) (children_paths (List.length pre) cs)
    (ParentBox k e (pre ++ cs) m, f) =
  let '(cs', f') := walk_children doc cs f in
  (ParentBox k e (pre ++ cs') m, f').
Proof.
  induction 1 as [| c cs Hc Hcs IH]; intros pre f; [reflexivity |].
  cbn [children_paths walk_children]. rewrite fold_left_app, fold_visit_child, Hc.
  destruct (walk doc c f) as [c1 f1].
  replace (pre ++ c1 :: cs) with ((pre ++ [c1]) ++ cs) by now rewrite <- app_assoc.
  replace (S (List.length pre)) with (List.length (pre ++ [c1]))
    by (rewrite length_app; simpl; lia).
  rewrite IH. destruct (walk_children doc cs f1) as [cs' f'].
  now rewrite <- app_assoc.
Qed.

(** The loop over [descendants] is the recursive walk. *)
Lemma fold_visit_walk : forall b f,
  fold_left (visit doc) (descendants b) (b, f) = walk doc b f.
Proof.
  induction b as [e t | e s | c e cs m IH _] using box_ind; intros f.
  - cbn. destruct (truthy t); [| reflexivity].
    now destruct (process_text (text_handling doc e) f t).
  - reflexivity.
  - rewrite descendants_parent, walk_parent. cbn [fold_left].
    change (visit doc (ParentBox c e cs m, f) []) with (ParentBox c e cs m, f).
    exact (fold_visit_children c e m IH [] f).
Qed.

Lemma process_whitespace_walk : forall b,
  process_whitespace doc b = fst (walk doc b false).
Proof. intros. unfold process_whitespace. now rewrite fold_visit_walk. Qed.

End WhitespaceProperties.

Section WhitespaceClaims.

Variable doc : document.

Lemma walk_children_only_text : forall cs,
  Forall (fun b => forall f, only_text doc b (fst (walk doc b f))) cs ->
  forall f, Forall2 (only_text doc) cs (fst (walk_children doc cs f)).
Proof.
  induction 1 as [| c cs Hc Hcs IH]; intros f; [constructor |].
  cbn [walk_children]. specialize (Hc f). destruct (walk doc c f) as [c1 f1].
  specialize (IH f1). destruct (walk_children doc cs f1) as [cs' f'].
  now constructor.
Qed.

Lemma walk_only_text : forall b f, only_text doc b (fst (walk doc b f)).
Proof.
  induction b as [e t | e s | c e cs m IH _] using box_ind; intros f.
  - cbn [walk]. destruct (truthy t) eqn:Ht.
    + pose proof (only_text_text doc e t f Ht) as H.
      now destruct (process_text (text_handling doc e) f t).
    + destruct t; [constructor | discriminate].
  - constructor.
  - rewrite walk_parent. pose proof (walk_children_only_text IH f) as H.
    destruct (walk_children doc cs f) as [cs' f']. now constructor.
Qed.

Lemma thread_app : forall l1 l2 f,
  thread doc f (l1 ++ l2) = thread doc f l1 ++ thread doc (thread_flag doc f l1) l2 /\
  thread_flag doc f (l1 ++ l2) = thread_flag doc (thread_flag doc f l1) l2.
Proof.
  induction l1 as [| [e t] l1 IH]; intros l2 f; [now split |].
  cbn [app thread thread_flag].
  destruct (truthy t); [destruct (collapsing (text_handling doc e)) |];
    rewrite (proj1 (IH l2 _)), (proj2 (IH l2 _)); now split.
Qed.

(** One text: the flag drops the leading space of the collapsed text, and is
    then whether the new text ends with a space. *)
Lemma process_text_flag : forall h flag t,
  process_text h flag t =
  if collapsing h then
    let c := collapsed h t in
    let t' := if flag && startswith c SPACE then tl c else c in
    (t', endswith t' SPACE)
  else (collapsed h t, false).
Proof.
  intros. unfold collapsed, process_text, collapsing.
  destruct (in_ h ["normal"; "nowrap"; "pre-line"]); reflexivity.
Qed.

Lemma walk_thread : forall b f,
  text_boxes (fst (walk doc b f)) = thread doc f (text_boxes b) /\
  snd (walk doc b f) = thread_flag doc f (text_boxes b).
Proof.
  induction b as [e t | e s | c e cs m IH _] using box_ind; intros f.
  - cbn [walk text_boxes thread thread_flag]. destruct (truthy t); [| now split].
    rewrite process_text_flag. cbv zeta.
    destruct (collapsing (text_handling doc e)); now split.
  - now split.
  - rewrite walk_parent. cbn [text_boxes].
    assert (H : text_boxes (ParentBox c e (fst (walk_children doc cs f)) m) =
                thread doc f (flat_map text_boxes cs) /\
                snd (walk_children doc cs f) = thread_flag doc f (flat_map text_boxes cs)).
    { cbn [text_boxes]. revert f.
      induction IH as [| x cs Hx Hcs IHcs]; intros f; [now split |].
      cbn [walk_children flat_map]. destruct (Hx f) as [H1 H2].
      destruct (walk doc x f) as [x' f1]. destruct (IHcs f1) as [H3 H4].
      destruct (walk_children doc cs f1) as [cs' f2].
      destruct (thread_app (text_boxes x) (flat_map text_boxes cs) f) as [-> ->].
      cbn [fst snd flat_map] in *. rewrite H1, H3, H4, H2. now split. }
    destruct (walk_children doc cs f) as [cs' f']. exact H.
Qed.

End WhitespaceClaims.

(** The match of u'\xA0([^\xA0]|$)' at the start of a string. *)
Lemma match_at_nbsp : forall s,
  match_at nbsp_re s =
  match s with
  | c :: s' =>
      if (c =? NBSP)%N then
        match s' with
        | [] => Some ([], [])
        | d :: s'' => if (d =? NBSP)%N then None else Some (s'', [d])
        end
      else None
  | [] => None
  end.
Proof.
  intros [| c s']; [reflexivity |].
  unfold match_at, nbsp_re. cbn [rmatch]. rewrite (N.eqb_sym NBSP c).
  destruct (c =? NBSP)%N; [| reflexivity].
  destruct s' as [| d s'']; [reflexivity |].
  destruct (d =? NBSP)%N eqn:Hd; cbn [negb].
  - destruct s'' as [| d' s3]; [| reflexivity].
    apply N.eqb_eq in Hd. subst d. reflexivity.
  - replace (List.length (d :: s'') - List.length s'') with 1
      by (cbn [List.length]; lia).
    reflexivity.
Qed.

(** The substitution of the pre-wrap mode, [re.sub] with [nbsp_re]. *)
Lemma re_sub_nbsp : forall s,
  re_sub nbsp_re (fun g => NBSP :: ZWSP :: g) s = break_after_nbsp s.
Proof.
  unfold re_sub.
  assert (H : forall s,
             sub_from nbsp_re (fun g => NBSP :: ZWSP :: g) 0 s = break_after_nbsp s /\
             forall d, sub_from nbsp_re (fun g => NBSP :: ZWSP :: g) 0 (d :: s) =
                       break_after_nbsp (d :: s)).
  { induction s as [| c s [IH1 IH2]].
    - split; [reflexivity |]. intros d. cbn [sub_from break_after_nbsp].
      rewrite match_at_nbsp. cbn [startswith].
      destruct (d =? NBSP)%N eqn:Hd; [| reflexivity].
      apply N.eqb_eq in Hd. subst d. reflexivity.
    - split; [apply IH2 |]. intros d.
      cbn [sub_from]. rewrite match_at_nbsp.
      change (break_after_nbsp (d :: c :: s)) with
        (if (d =? NBSP)%N
         then if (c =? NBSP)%N then d :: break_after_nbsp (c :: s)
              else d :: ZWSP :: break_after_nbsp (c :: s)
         else d :: break_after_nbsp (c :: s)).
      destruct (d =? NBSP)%N eqn:Hd.
      + apply N.eqb_eq in Hd. subst d.
        destruct (c =? NBSP)%N eqn:Hc.
        * f_equal. apply IH2.
        * replace (List.length (NBSP :: c :: s) - List.length s) with 2
            by (cbn [List.length]; lia).
          cbn [app sub_from]. rewrite IH1. cbn [break_after_nbsp]. now rewrite Hc.
      + f_equal. apply IH2. }
  intros s. apply H.
Qed.

Lemma process_text_pre_eq : forall flag t,
  process_text "pre" flag t = (replace SPACE NBSP t, false).
Proof. reflexivity. Qed.

Lemma process_text_pre_wrap_eq : forall flag t,
  process_text "pre-wrap" flag t = (break_after_nbsp (replace SPACE NBSP t), false).
Proof.
  intros. unfold process_text. cbn -[re_sub replace]. now rewrite re_sub_nbsp.
Qed.

(** C10.  [process_whitespace] leaves the tree as it is but for the text of
    the text boxes that had some: the boxes, their classes, their order, their
    elements and their outside list markers are those of the argument, and a
    text box with no text keeps none.  (The function returns its argument;
    [process_whitespace] is the state of that object after the call.) *)
Theorem process_whitespace_only_text : forall doc b,
  only_text doc b (process_whitespace doc b).
Proof.
  intros. rewrite process_whitespace_walk. apply walk_only_text.
Qed.

(** C6.  The text boxes of the processed tree are those of the argument, in
    document order, with one flag threaded over them from [false]: a text
    box of a collapsing mode whose collapsed text begins with a space loses
    that space when the flag is set, and sets the flag to whether its new
    text ends with a space; a text box of another mode clears the flag.  For
    one text this is what [process_text] computes.  Two adjacent text boxes
    "foo " and " bar" of mode normal become "foo " and "bar", also when the
    second stands in a nested inline box. *)
Theorem process_whitespace_thread : forall doc,
  (forall b, text_boxes (process_whitespace doc b) = thread doc false (text_boxes b)) /\
  (forall h flag t,
     process_text h flag t =
     if collapsing h then
       let c := collapsed h t in
       let t' := if flag && startswith c SPACE then tl c else c in
       (t', endswith t' SPACE)
     else (collapsed h t, false)) /\
  process_whitespace (plain_document (fun _ => plain_style "block"))
    (ParentBox LineBox 0 [TextBox 0 (u "foo "); TextBox 0 (u " bar")] None) =
  ParentBox LineBox 0 [TextBox 0 (u "foo "); TextBox 0 (u "bar")] None /\
  process_whitespace (plain_document (fun _ => plain_style "block"))
    (ParentBox LineBox 0
       [TextBox 0 (u "foo "); ParentBox InlineBox 1 [TextBox 1 (u " bar")] None] None) =
  ParentBox LineBox 0
    [TextBox 0 (u "foo "); ParentBox InlineBox 1 [TextBox 1 (u "bar")] None] None.
Proof.
  intros doc. split; [| split; [| split]].
  - intros b. rewrite process_whitespace_walk. apply walk_thread.
  - apply process_text_flag.
  - vm_compute. reflexivity.
  - vm_compute. reflexivity.
Qed.

Lemma thread_preserved : forall doc leaves flag,
  Forall2 (preserved doc) leaves (thread doc flag leaves).
Proof.
  induction leaves as [| [e t] leaves IH]; intros flag; [constructor |].
  cbn [thread]. destruct (truthy t) eqn:Ht.
  - cbv zeta. destruct (collapsing (text_handling doc e)) eqn:Hc.
    + constructor; [| apply IH]. split; [reflexivity |]. intros _.
      cbn [fst snd]. split; intros H; rewrite H in Hc; discriminate.
    + constructor; [| apply IH]. split; [reflexivity |]. intros _.
      cbn [fst snd]. unfold collapsed.
      split; intros H; rewrite H;
        [now rewrite process_text_pre_eq | now rewrite process_text_pre_wrap_eq].
  - constructor; [| apply IH]. split; [reflexivity |].
    cbn [snd]. rewrite Ht. discriminate.
Qed.

(** C9.  In mode pre a text becomes the same text with every space replaced
    by a no-break space, character for character; in mode pre-wrap that text
    gets a zero-width space after every no-break space that no other no-break
    space follows; both clear the flag.  Every text box of these modes that
    has text is rewritten so by [process_whitespace].  The text a, two
    spaces, b becomes a, two no-break spaces, b. *)
Theorem process_text_pre : forall doc,
  (forall flag t, process_text "pre" flag t = (replace SPACE NBSP t, false)) /\
  (forall flag t,
     process_text "pre-wrap" flag t =
     (break_after_nbsp (replace SPACE NBSP t), false)) /\
  (forall t, List.length (replace SPACE NBSP t) = List.length t) /\
  (forall b, Forall2 (preserved doc) (text_boxes b) (text_boxes (process_whitespace doc b))) /\
  fst (process_text "pre" true (u "a  b")) = [97; NBSP; NBSP; 98]%N.
Proof.
  intros doc. split; [| split; [| split; [| split]]].
  - apply process_text_pre_eq.
  - apply process_text_pre_wrap_eq.
  - intros t. apply length_map.
  - intros b. rewrite process_whitespace_walk, (proj1 (walk_thread doc b false)).
    apply thread_preserved.
  - reflexivity.
Qed.

(** ** Blocks inside lines *)

(** C1, on the code.  In a line box whose first inline box holds a block and
    is followed by a second inline box, the cursor left for the first inline
    box is applied to the second one as well: its first child, the text b1,
    is skipped and appears nowhere in the result. *)
Theorem block_in_inline_drops_content : forall n,
  block_in_inline (4 + n) two_inline_siblings =
    Ok (ParentBox BlockBox 0
          [anonymous_block 0 (line_box 0 [ParentBox InlineBox 1 [] None]);
           ParentBox BlockBox 2 [] None;
           anonymous_block 0
             (line_box 0 [ParentBox InlineBox 1 [TextBox 1 (u "a")] None;
                          ParentBox InlineBox 3 [TextBox 3 (u "b2")] None])] None,
        false) /\
  text_boxes two_inline_siblings = [(1, u "a"); (3, u "b1"); (3, u "b2")] /\
  _inner_block_in_inline (3 + n)
    (line_box 0
       [ParentBox InlineBox 1 [ParentBox BlockBox 2 [] None; TextBox 1 (u "a")] None;
        ParentBox InlineBox 3 [TextBox 3 (u "b1"); TextBox 3 (u "b2")] None])
    (SPair 0 (SPair 1 SNone)) =
    Ok (line_box 0 [ParentBox InlineBox 1 [TextBox 1 (u "a")] None;
                    ParentBox InlineBox 3 [TextBox 3 (u "b2")] None],
        false, None, SNone).
Proof.
  intros n. repeat split; reflexivity.
Qed.

Ltac bind_inv H :=
  match type of H with
  | bind ?m _ = Ok _ =>
      let E := fresh "E" in
      destruct m eqn:E; cbn [bind] in H; [| discriminate H | discriminate H]
  end.

Lemma class_preserved : forall b r,
  box_class r = box_class b ->
  is_BlockLevelBox r = is_BlockLevelBox b /\ is_LineBox r = is_LineBox b /\
  is_InlineBox r = is_InlineBox b /\ is_ParentBox r = is_ParentBox b.
Proof.
  intros [? ? | ? ? | c e cs m] [? ? | ? ? | c' e' cs' m']; simpl; intros H;
    try discriminate; try (now repeat split).
  inversion H. now repeat split.
Qed.

Lemma block_level_not_line : forall b,
  is_BlockLevelBox b = true -> is_LineBox b = false.
Proof. intros [? ? | ? ? | [] ? ? ?]; simpl; congruence. Qed.

Lemma leaf_inline_good : forall c, is_ParentBox c = false -> inline_good c.
Proof.
  intros [? ? | ? ? | ? ? ? ?] H; try discriminate; now repeat split.
Qed.

Lemma Forall_skipn_keep : forall A (P : A -> Prop) n l,
  Forall P l -> Forall P (skipn n l).
Proof.
  induction n as [| n IH]; intros l H; [exact H |].
  destruct l as [| x l]; [constructor |]. inversion H; subst. now apply IH.
Qed.

Lemma placed_inline_children : forall c e cs m,
  inline_context (ParentBox c e cs m) = true ->
  lines_placed (ParentBox c e cs m) = true ->
  Forall (fun x => is_LineBox x = false /\ lines_placed x = true) cs.
Proof.
  intros c e cs m Hctx Hp. cbn [lines_placed] in Hp.
  apply andb_true_iff in Hp as [Hl Hp].
  assert (Hc : block_container c = false).
  { destruct c; try discriminate; reflexivity. }
  rewrite Hc in Hl. cbn [andb] in Hl.
  destruct (existsb is_LineBox cs) eqn:He; [discriminate |].
  rewrite forallb_forall in Hp. apply Forall_forall. intros x Hx.
  split; [| now apply Hp].
  destruct (is_LineBox x) eqn:Hx'; [| reflexivity].
  assert (existsb is_LineBox cs = true) by (apply existsb_exists; eauto).
  congruence.
Qed.

Lemma no_line_placed : forall c e cs m,
  Forall (fun x => is_LineBox x = false /\ lines_placed x = true) cs ->
  lines_placed (ParentBox c e cs m) = true.
Proof.
  intros c e cs m H. cbn [lines_placed].
  replace (existsb is_LineBox cs) with false.
  - apply forallb_forall. rewrite Forall_forall in H. intros x Hx. now apply H.
  - symmetry. induction H as [| x cs [Hx _] _ IH]; [reflexivity |].
    simpl. now rewrite Hx, IH.
Qed.

Lemma inline_good_parent : forall c e added m,
  Forall inline_good added ->
  lines_placed (ParentBox c e added m) = true /\
  lines_clean (ParentBox c e added m) = true /\
  inline_clean (ParentBox c e added m) = true.
Proof.
  intros c e added m H.
  assert (Hi : inline_clean (ParentBox c e added m) = true).
  { cbn [inline_clean]. apply forallb_forall. rewrite Forall_forall in H.
    intros x Hx. destruct (H x Hx) as (Hb & _ & _ & _ & Hi).
    rewrite Hb. cbn [negb andb]. destruct (is_InlineBox x); auto. }
  split; [| split; [| exact Hi]].
  - apply no_line_placed. eapply Forall_impl; [| exact H].
    intros x (_ & Hl & Hp & _). now split.
  - cbn [lines_clean]. apply andb_true_iff. split.
    + destruct (is_LineBox (ParentBox c e added m)); [exact Hi | reflexivity].
    + apply forallb_forall. rewrite Forall_forall in H.
      intros x Hx. now destruct (H x Hx) as (_ & _ & _ & Hc & _).
Qed.

Lemma clean_inline_done : forall c e cs m,
  lines_clean (ParentBox c e cs m) = true ->
  inline_clean (ParentBox c e cs m) = true ->
  Forall inline_done cs.
Proof.
  intros c e cs m Hc Hi. cbn [lines_clean] in Hc. cbn [inline_clean] in Hi.
  apply andb_true_iff in Hc as [_ Hc].
  rewrite forallb_forall in Hc, Hi. apply Forall_forall. intros x Hx.
  specialize (Hc x Hx). specialize (Hi x Hx).
  apply andb_true_iff in Hi as [Hb Hi]. apply negb_true_iff in Hb.
  unfold inline_done. repeat split; auto.
  intros Hx'. now rewrite Hx' in Hi.
Qed.

Section SplitterSound.

Variable bii : box -> result (box * bool).
Variable inner : box -> stack -> result search.
Hypothesis Hbii : bii_sound bii.
Hypothesis Hinner : inner_sound inner.

(** One child of the loop that is not block-level: searched when it is an
    inline box, split when it is another parent box, kept otherwise. *)
Lemma inner_child_sound : forall nested res child new_child same block res1,
  (if is_InlineBox child then inner child nested
   else if is_ParentBox child
        then '(new_child, same) <- bii child ;; Ok (new_child, same, None, res)
        else Ok (child, true, None, res)) = Ok (new_child, same, block, res1) ->
  is_BlockLevelBox child = false ->
  is_LineBox child = false -> lines_placed child = true ->
  inline_good new_child /\
  (forall k, block = Some k -> is_BlockLevelBox k = true /\ lines_placed k = true) /\
  (same = true -> new_child = child) /\
  (nested = SNone -> inline_done child -> same = true /\ block = None).
Proof.
  intros nested res child nc same block res1 E Hblock Hline Hplaced.
  destruct (is_InlineBox child) eqn:Hinline.
  - edestruct Hinner as (Hc & Hp & Hcl & Hic & Hk & Hs & Hd);
      [exact E | unfold inline_context; now rewrite Hinline, orb_true_r
      | assumption |].
    destruct (class_preserved _ _ Hc) as (Hc1 & Hc2 & Hc3 & Hc4).
    split; [| split; [| split]].
    + unfold inline_good. repeat split; try congruence.
    + exact Hk.
    + exact Hs.
    + intros HS (_ & Hdc & Hdi). apply Hd; auto.
  - destruct (is_ParentBox child) eqn:Hparent.
    + destruct (bii child) as [[nc' same'] | |] eqn:E'; cbn [bind] in E;
        try discriminate.
      inversion E; subst nc' same' block res1. clear E.
      edestruct Hbii as (Hc & Hp & Hcl & Hs & Hd);
        [exact E' | unfold well_placed; now rewrite Hline, Hplaced |].
      destruct (class_preserved _ _ Hc) as (Hc1 & Hc2 & Hc3 & Hc4).
      split; [| split; [| split]].
      * unfold inline_good. repeat split; try congruence.
      * discriminate.
      * exact Hs.
      * intros _ (_ & Hdc & _). auto.
    + inversion E; subst nc same block res1.
      split; [| split; [| split]].
      * now apply leaf_inline_good.
      * discriminate.
      * reflexivity.
      * auto.
Qed.

Lemma inner_loop_sound : forall nested rest index ncs res chg ncs' blk res' chg',
  inner_loop bii inner nested index rest ncs res chg = Ok (ncs', blk, res', chg') ->
  Forall (fun c => is_LineBox c = false /\ lines_placed c = true) rest ->
  exists added,
    ncs' = ncs ++ added /\ Forall inline_good added /\
    (forall k, blk = Some k -> is_BlockLevelBox k = true /\ lines_placed k = true) /\
    (chg' = false -> chg = false /\ (blk = None -> added = rest)) /\
    (nested = SNone -> Forall inline_done rest -> blk = None /\ chg' = chg).
Proof.
  intros nested rest. induction rest as [| child rest IH];
    intros index ncs res chg ncs' blk res' chg' H Hrest.
  - cbn in H. inversion H; subst. exists []. rewrite app_nil_r.
    split; [reflexivity |]. split; [constructor |]. split; [discriminate |].
    split; auto.
  - inversion Hrest as [| ? ? [Hline Hplaced] Hrest']; subst.
    cbn [inner_loop] in H.
    destruct (is_BlockLevelBox child) eqn:Hblock.
    + inversion H; subst. exists []. rewrite app_nil_r.
      split; [reflexivity |]. split; [constructor |]. split; [| split].
      * intros k Hk. inversion Hk; subst. auto.
      * intros ->. split; [reflexivity | discriminate].
      * intros _ Hdone. inversion Hdone as [| ? ? (Hb & _) _]. congruence.
    + match type of H with
      | bind ?m _ = _ => destruct m as [[[[nc same] block] res1] | |] eqn:E
      end; cbn [bind] in H; try discriminate.
      destruct (inner_child_sound _ _ _ E Hblock Hline Hplaced)
        as (Hgood & Hk & Hsame & Hdone).
      destruct block as [k |].
      * inversion H; subst. exists [nc].
        split; [reflexivity |]. split; [now constructor |]. split; [| split].
        -- intros k0 Hk0. inversion Hk0; subst. now apply (Hk k0).
        -- intros Hc. apply orb_false_iff in Hc as [Hc _].
           split; [assumption | discriminate].
        -- intros HS Hd. inversion Hd; subst.
           match goal with Hx : inline_done child |- _ =>
             destruct (Hdone eq_refl Hx); discriminate end.
      * apply IH in H; [| assumption].
        destruct H as (added & -> & Hadded & Hk' & Hchg & HS).
        exists (nc :: added). rewrite <- app_assoc.
        split; [reflexivity |]. split; [now constructor |]. split; [| split].
        -- exact Hk'.
        -- intros Hc. destruct (Hchg Hc) as [Hc' Ha].
           apply orb_false_iff in Hc' as [Hc1 Hc2]. apply negb_false_iff in Hc2.
           split; [assumption |]. intros Hb. now rewrite (Hsame Hc2), (Ha Hb).
        -- intros HS' Hd. inversion Hd; subst.
           match goal with Hx : inline_done child, Hy : Forall inline_done rest |- _ =>
             destruct (Hdone eq_refl Hx) as [-> _]; destruct (HS eq_refl Hy) as [-> ->]
           end.
           split; [reflexivity |]. simpl. apply orb_false_r.
Qed.

Lemma inner_body_sound : inner_sound (inner_body bii inner).
Proof.
  intros b st nb same blk res H Hctx Hp.
  destruct b as [? ? | ? ? | c e cs m]; try discriminate.
  pose proof (placed_inline_children _ _ _ _ Hctx Hp) as Hcs.
  cbn [inner_body] in H.
  set (skip := match st with SNone => 0 | SPair k _ => k end) in *.
  set (nested := match st with SNone => SNone | SPair _ r => r end) in *.
  replace (match st with SNone => (0, SNone) | SPair k r => (k, r) end)
    with (skip, nested) in H by (destruct st; reflexivity).
  cbv beta iota in H.
  destruct (inner_loop bii inner nested skip (skipn skip cs) [] SNone false)
    as [[[[ncs blk'] res'] chg] | |] eqn:E; cbn [bind] in H; try discriminate.
  apply inner_loop_sound in E; [| now apply Forall_skipn_keep].
  destruct E as (added & -> & Hadded & Hk & Hchg & Hdone). cbn [app] in *.
  destruct (inline_good_parent c e m Hadded) as (Hp' & Hc' & Hi').
  assert (Hfresh : (nb, same, blk, res) = (ParentBox c e added m, false, blk', res') ->
            box_class nb = box_class (ParentBox c e cs m) /\
            lines_placed nb = true /\ lines_clean nb = true /\ inline_clean nb = true /\
            (forall k, blk = Some k -> is_BlockLevelBox k = true /\ lines_placed k = true) /\
            (same = true -> nb = ParentBox c e cs m)).
  { intros Heq. inversion Heq; subst. repeat split; auto; try apply Hk; auto.
    discriminate. }
  assert (Hidem : st = SNone -> lines_clean (ParentBox c e cs m) = true ->
            inline_clean (ParentBox c e cs m) = true -> blk' = None /\ chg = false).
  { intros -> Hc Hi. apply Hdone; [reflexivity |].
    exact (clean_inline_done _ _ _ _ Hc Hi). }
  destruct blk' as [k |].
  - inversion H; subst nb same blk res.
    destruct (Hfresh eq_refl) as (H1 & H2 & H3 & H4 & H5 & H6).
    split; [exact H1 |]. split; [exact H2 |]. split; [exact H3 |].
    split; [exact H4 |]. split; [exact H5 |]. split; [exact H6 |].
    intros Hs Hc Hi. destruct (Hidem Hs Hc Hi). discriminate.
  - destruct (negb (chg || (0 <? skip)%nat)) eqn:Hsame.
    + inversion H; subst nb same blk res.
      apply negb_true_iff, orb_false_iff in Hsame as [Hchg' Hskip].
      apply Nat.ltb_ge in Hskip. assert (skip = 0) as Hskip0 by lia.
      destruct (Hchg Hchg') as [_ Ha]. specialize (Ha eq_refl).
      rewrite Hskip0 in Ha. cbn [skipn] in Ha. subst added.
      split; [reflexivity |]. split; [exact Hp' |]. split; [exact Hc' |].
      split; [exact Hi' |]. split; [discriminate |]. split; [reflexivity |].
      intros _ _ _. now split.
    + inversion H; subst nb same blk res.
      destruct (Hfresh eq_refl) as (H1 & H2 & H3 & H4 & H5 & H6).
      split; [exact H1 |]. split; [exact H2 |]. split; [exact H3 |].
      split; [exact H4 |]. split; [exact H5 |]. split; [exact H6 |].
      intros Hs Hc Hi. destruct (Hidem Hs Hc Hi) as [_ Hf].
      subst chg. unfold skip in Hsame. rewrite Hs in Hsame. discriminate.
Qed.

(** The [while] loop: what it adds to [new_children] holds no line box, and
    the last line is searched out. *)
Lemma split_loop_sound : forall n e child st acc nl same acc',
  split_loop bii inner n e child st acc = Ok (nl, same, acc') ->
  is_LineBox child = true -> lines_placed child = true ->
  exists added,
    acc' = acc ++ added /\
    Forall (fun x => is_LineBox x = false /\ lines_placed x = true /\
                     lines_clean x = true) added /\
    is_LineBox nl = true /\ lines_placed nl = true /\ lines_clean nl = true /\
    (same = true -> nl = child) /\
    (st = SNone -> lines_clean child = true -> same = true /\ added = []).
Proof.
  induction n as [| n IH]; intros e child st acc nl same acc' H Hline Hp;
    [discriminate |].
  cbn [split_loop] in H.
  destruct (inner child st) as [[[[nl1 same1] blk] st1] | |] eqn:E;
    cbn [bind] in H; try discriminate.
  edestruct Hinner as (Hc & Hp1 & Hcl & Hic & Hk & Hs & Hd);
    [exact E | unfold inline_context; now rewrite Hline | assumption |].
  destruct (class_preserved _ _ Hc) as (_ & Hl1 & _ & _).
  assert (Hchild : lines_clean child = true -> inline_clean child = true).
  { destruct child as [? ? | ? ? | c0 e0 cs0 m0]; try discriminate.
    intros Hx. cbn [lines_clean] in Hx. rewrite Hline in Hx.
    now apply andb_true_iff in Hx as [Hx _]. }
  destruct blk as [k |].
  - destruct (bii k) as [[k' samek] | |] eqn:Ek; cbn [bind] in H; try discriminate.
    destruct (Hk k eq_refl) as [Hkb Hkp].
    edestruct Hbii as (Hkc & Hkp' & Hkcl & _ & _); [exact Ek | |].
    { unfold well_placed. now rewrite Hkp, (block_level_not_line _ Hkb). }
    destruct (class_preserved _ _ Hkc) as (Hkb' & _ & _ & _).
    apply IH in H; [| assumption | assumption].
    destruct H as (added & -> & Hadded & Hnl & Hnp & Hnc & Hsame & _).
    exists (anonymous_block e nl1 :: k' :: added).
    split; [now rewrite <- !app_assoc |]. split; [| split; [| split; [| split; [| split]]]];
      auto.
    + constructor; [| constructor; [| assumption]].
      * unfold anonymous_block. cbn [is_LineBox lines_placed lines_clean existsb forallb].
        rewrite Hl1, Hline, Hp1, Hcl. now repeat split.

      * split; [| now split]. apply block_level_not_line. congruence.
    + intros Hst Hclean. destruct (Hd Hst Hclean (Hchild Hclean)). discriminate.
  - inversion H; subst nl same acc'. exists []. rewrite app_nil_r.
    split; [reflexivity |]. split; [constructor |].
    split; [congruence |]. split; [assumption |]. split; [assumption |].
    split; [assumption |].
    intros Hst Hclean. destruct (Hd Hst Hclean (Hchild Hclean)). now split.
Qed.

(** The [for] loop over children none of which is a line box. *)
Lemma for_each_no_line : forall n e sib cs acc chg acc' chg',
  for_each (split_child bii inner n e sib) cs (acc, chg) = Ok (acc', chg') ->
  Forall (fun x => is_LineBox x = false /\ lines_placed x = true) cs ->
  exists added,
    acc' = acc ++ added /\
    Forall (fun x => is_LineBox x = false /\ lines_placed x = true /\
                     lines_clean x = true) added /\
    (chg' = false -> chg = false /\ added = cs) /\
    (Forall (fun x => lines_clean x = true) cs -> chg' = chg).
Proof.
  intros n e sib cs. induction cs as [| child cs IH]; intros acc chg acc' chg' H Hcs.
  - inversion H; subst. exists []. rewrite app_nil_r. repeat split; auto.
  - inversion Hcs as [| ? ? [Hl Hp] Hcs']; subst.
    cbn [for_each] in H. unfold split_child at 1 in H. rewrite Hl in H.
    destruct (bii child) as [[nc same] | |] eqn:E; cbn [bind] in H; try discriminate.
    edestruct Hbii as (Hc & Hp' & Hcl & Hs & Hd);
      [exact E | unfold well_placed; now rewrite Hl, Hp |].
    destruct (class_preserved _ _ Hc) as (_ & Hl' & _ & _).
    apply IH in H; [| assumption].
    destruct H as (added & -> & Hadded & Hchg & Hclean).
    exists (nc :: added). rewrite <- app_assoc.
    split; [reflexivity |]. split; [| split].
    + constructor; [| assumption]. repeat split; congruence.
    + intros Hf. destruct (Hchg Hf) as [Hf' ->].
      apply orb_false_iff in Hf' as [Hf1 Hf2]. apply negb_false_iff in Hf2.
      split; [assumption |]. now rewrite (Hs Hf2).
    + intros Hall. inversion Hall; subst.
      rewrite Hclean by assumption. rewrite Hd by assumption. apply orb_false_r.
Qed.

Lemma parent_clean : forall c e cs m,
  c <> LineBox ->
  Forall (fun x => lines_clean x = true) cs ->
  lines_clean (ParentBox c e cs m) = true.
Proof.
  intros c e cs m Hc H. cbn [lines_clean].
  replace (is_LineBox (ParentBox c e cs m)) with false
    by (destruct c; try reflexivity; congruence).
  apply forallb_forall. rewrite Forall_forall in H. exact H.
Qed.

Lemma parent_clean_children : forall c e cs m,
  lines_clean (ParentBox c e cs m) = true ->
  Forall (fun x => lines_clean x = true) cs.
Proof.
  intros c e cs m H. cbn [lines_clean] in H. apply andb_true_iff in H as [_ H].
  rewrite forallb_forall in H. apply Forall_forall. exact H.
Qed.

Lemma block_in_inline_body_sound : forall n,
  bii_sound (block_in_inline_body bii inner n).
Proof.
  intros n b r same H Hwp.
  apply andb_true_iff in Hwp as [Hnl Hp]. apply negb_true_iff in Hnl.
  destruct b as [e t | e s | c e cs m].
  - inversion H; subst. repeat split; auto.
  - inversion H; subst. repeat split; auto.
  - assert (Hc : c <> LineBox) by (intros ->; discriminate).
    cbn [block_in_inline_body] in H.
    destruct (for_each (split_child bii inner n e (List.length cs)) cs ([], false))
      as [[ncs chg] | |] eqn:E; cbn [bind] in H; try discriminate.
    pose proof Hp as Hp0.
    cbn [lines_placed] in Hp. apply andb_true_iff in Hp as [Hl Hpc].
    destruct (existsb is_LineBox cs) eqn:Hex.
    + (* the only child is a line box *)
      apply andb_true_iff in Hl as [Hcont Hlen]. apply Nat.eqb_eq in Hlen.
      destruct cs as [| line [| ? ?]]; try discriminate.
      cbn [existsb] in Hex. rewrite orb_false_r in Hex.
      cbn [forallb] in Hpc. rewrite andb_true_r in Hpc.
      cbn [for_each List.length] in E. unfold split_child in E.
      rewrite Hex in E. cbn [Nat.eqb negb] in E.
      destruct (split_loop bii inner n e line SNone []) as [[[nl same1] nc] | |] eqn:El;
        cbn [bind] in E; try discriminate.
      apply split_loop_sound in El; [| assumption | assumption].
      destruct El as (added & -> & Hadded & Hnl1 & Hnp & Hnc & Hsame & Hidem).
      cbn [app] in E.
      destruct (truthy added) eqn:Hadd; cbn [bind] in E; inversion E; subst ncs chg;
        clear E.
      * cbn [negb orb] in H. inversion H; subst r same.
        assert (Hall : Forall (fun x => is_LineBox x = false /\ lines_placed x = true /\
                                        lines_clean x = true)
                         (added ++ [anonymous_block e nl])).
        { apply Forall_app. split; [assumption |]. constructor; [| constructor].
          unfold anonymous_block.
          cbn [is_LineBox lines_placed lines_clean existsb forallb].
          rewrite Hnl1, Hnp, Hnc. now repeat split. }
        split; [reflexivity |]. split; [| split; [| split]].
        -- apply no_line_placed. eapply Forall_impl; [| exact Hall]. now intros x (? & ? & ?).
        -- apply parent_clean; [assumption |].
           eapply Forall_impl; [| exact Hall]. now intros x (? & ? & ?).
        -- discriminate.
        -- intros Hclean. apply parent_clean_children in Hclean.
           inversion Hclean; subst.
           match goal with Hx : lines_clean line = true |- _ =>
             destruct (Hidem eq_refl Hx) as [_ ->] end.
           discriminate.
      * destruct added; [| discriminate]. cbn [app orb] in H.
        destruct same1; cbn [negb] in H; inversion H; subst r same.
        -- rewrite (Hsame eq_refl) in *.
           split; [reflexivity |]. split; [assumption |]. split; [| split; auto].
           apply parent_clean; [assumption |]. now constructor.
        -- split; [reflexivity |]. split; [| split; [| split]].
           ++ cbn [lines_placed existsb forallb List.length Nat.eqb].
              now rewrite Hnl1, Hcont, Hnp.
           ++ apply parent_clean; [assumption |]. now constructor.
           ++ discriminate.
           ++ intros Hclean. apply parent_clean_children in Hclean.
              inversion Hclean; subst.
              match goal with Hx : lines_clean line = true |- _ =>
                destruct (Hidem eq_refl Hx) as [Hf _] end.
              discriminate.
    + (* no child is a line box *)
      assert (Hcs : Forall (fun x => is_LineBox x = false /\ lines_placed x = true) cs).
      { rewrite forallb_forall in Hpc. apply Forall_forall. intros x Hx.
        split; [| now apply Hpc].
        destruct (is_LineBox x) eqn:Hx'; [| reflexivity].
        assert (existsb is_LineBox cs = true) by (apply existsb_exists; eauto).
        congruence. }
      apply for_each_no_line in E; [| assumption].
      destruct E as (added & -> & Hadded & Hchg & Hclean). cbn [app] in *.
      destruct chg; inversion H; subst r same.
      * split; [reflexivity |]. split; [| split; [| split]].
        -- apply no_line_placed. eapply Forall_impl; [| exact Hadded].
           now intros x (? & ? & ?).
        -- apply parent_clean; [assumption |].
           eapply Forall_impl; [| exact Hadded]. now intros x (? & ? & ?).
        -- discriminate.
        -- intros Hcl. apply parent_clean_children in Hcl.
           symmetry. now apply Hclean.
      * destruct (Hchg eq_refl) as [_ ->].
        split; [reflexivity |]. split; [assumption |]. split; [| split; auto].
        apply parent_clean; [assumption |].
        eapply Forall_impl; [| exact Hadded]. now intros x (? & ? & ?).
Qed.

End SplitterSound.

(** What [block_in_inline] and [_inner_block_in_inline] return, whatever the
    fuel, on trees that meet the structural precondition. *)
Lemma splitter_sound : forall fuel,
  bii_sound (block_in_inline fuel) /\ inner_sound (_inner_block_in_inline fuel).
Proof.
  induction fuel as [| fuel [IHb IHi]].
  - split; intros b; intros; discriminate.
  - split.
    + exact (block_in_inline_body_sound IHb IHi fuel).
    + exact (inner_body_sound IHb IHi).
Qed.

(** ** Termination of the search *)

Lemma size_pos : forall b, 1 <= size b.
Proof. destruct b; simpl; lia. Qed.

Lemma total_size_cons : forall c cs, total_size (c :: cs) = size c + total_size cs.
Proof. reflexivity. Qed.

Lemma size_parent : forall c e cs m, size (ParentBox c e cs m) = S (total_size cs).
Proof. reflexivity. Qed.

Lemma children_size : forall b, total_size (box_children b) < size b.
Proof.
  destruct b as [? ? | ? ? | c e cs m]; cbn [box_children size]; unfold total_size;
    simpl; lia.
Qed.

Lemma total_size_skipn : forall n cs, total_size (skipn n cs) <= total_size cs.
Proof.
  induction n as [| n IH]; intros cs; [cbn [skipn]; lia |].
  destruct cs as [| c cs]; [cbn [skipn]; lia |].
  cbn [skipn]. rewrite total_size_cons. specialize (IH cs). lia.
Qed.

Lemma total_size_in : forall c cs, In c cs -> size c <= total_size cs.
Proof.
  induction cs as [| x cs IH]; intros H; [contradiction |].
  rewrite total_size_cons. destruct H as [-> | H]; [lia |].
  specialize (IH H). lia.
Qed.

(** The cursor never counts more than there is. *)
Lemma remaining_le : forall st cs, remaining cs st <= total_size cs.
Proof.
  induction st as [| i rest IH]; intros cs; [cbn; lia |].
  cbn [remaining]. pose proof (total_size_skipn i cs) as Hs.
  destruct (skipn i cs) as [| c after]; [lia |].
  rewrite total_size_cons in Hs.
  destruct rest as [| j rest'].
  - lia.
  - destruct (is_InlineBox c); [| lia].
    specialize (IH (box_children c)). pose proof (children_size c). lia.
Qed.

Lemma remaining_at : forall cs i nested c after,
  skipn i cs = c :: after ->
  remaining cs (SPair i nested) =
  match nested with
  | SNone => size c
  | SPair _ _ => if is_InlineBox c then remaining (box_children c) nested else size c
  end + total_size after.
Proof. intros cs i nested c after H. cbn [remaining]. now rewrite H. Qed.

Lemma remaining_next : forall cs i c after,
  skipn i cs = c :: after ->
  remaining cs (SPair (S i) SNone) = total_size after.
Proof.
  intros cs i c after H. cbn [remaining].
  assert (Hs : skipn (S i) cs = after).
  { revert cs H. induction i as [| i IH]; intros cs H.
    - cbn in H. subst cs. reflexivity.
    - destruct cs as [| x cs]; [discriminate |]. cbn [skipn] in *. now apply IH. }
  rewrite Hs. destruct after as [| c' after']; [reflexivity |].
  now rewrite total_size_cons.
Qed.

Lemma remaining_start : forall cs, remaining cs (SPair 0 SNone) = remaining cs SNone.
Proof. intros [| c cs]; reflexivity. Qed.

Lemma skipn_tail : forall A i (cs : list A) c after,
  skipn i cs = c :: after -> skipn (S i) cs = after.
Proof.
  induction i as [| i IH]; intros cs c after H.
  - cbn in H. subst cs. reflexivity.
  - destruct cs as [| x cs]; [discriminate |]. cbn [skipn] in *. now apply (IH _ c).
Qed.

Lemma remaining_pair_le : forall cs i nested,
  remaining cs (SPair i nested) <= total_size (skipn i cs).
Proof.
  intros cs i nested. cbn [remaining].
  destruct (skipn i cs) as [| c after]; [cbn; lia |].
  rewrite total_size_cons. destruct nested as [| j nested']; [lia |].
  destruct (is_InlineBox c); [| lia].
  pose proof (remaining_le (SPair j nested') (box_children c)).
  pose proof (children_size c). lia.
Qed.

Lemma block_level_not_inline : forall b,
  is_BlockLevelBox b = true -> is_InlineBox b = false.
Proof. intros [? ? | ? ? | [] ? ? ?]; simpl; congruence. Qed.

Section SplitterTotal.

Variable bii : box -> result (box * bool).
Variable inner : box -> stack -> result search.
Variable N : nat.
Hypothesis Hbii : bii_sound bii.
Hypothesis Hinner : inner_sound inner.
Hypothesis Hbt : bii_total N bii.
Hypothesis Hit : inner_total N inner.

(** One child of the loop that is not block-level. *)
Lemma inner_child_total : forall nested child,
  is_LineBox child = false -> lines_placed child = true -> size child <= N ->
  exists new_child same block res1,
    (if is_InlineBox child then inner child nested
     else if is_ParentBox child
          then '(new_child, same) <- bii child ;; Ok (new_child, same, None, SNone)
          else Ok (child, true, None, SNone)) = Ok (new_child, same, block, res1) /\
    (block = None -> res1 = SNone) /\
    (forall k, block = Some k ->
       is_InlineBox child = true /\ res1 <> SNone /\ size k < size child /\
       remaining (box_children child) res1 < remaining (box_children child) nested).
Proof.
  intros nested child Hline Hp Hsize.
  destruct (is_InlineBox child) eqn:Hinline.
  - edestruct Hit as (nc & same & block & res1 & E & Hnone & Hsome);
      [exact Hsize | unfold inline_context; now rewrite Hinline, orb_true_r
      | exact Hp |].
    exists nc, same, block, res1. split; [exact E |]. split; [exact Hnone |].
    intros k Hk. destruct (Hsome k Hk) as (H1 & H2 & H3). now repeat split.
  - destruct (is_ParentBox child).
    + edestruct Hbt as (nc & same & E);
        [exact Hsize | unfold well_placed; now rewrite Hline, Hp |].
      exists nc, same, None, SNone. rewrite E. cbn [bind].
      split; [reflexivity |]. split; [reflexivity | discriminate].
    + exists child, true, None, SNone.
      split; [reflexivity |]. split; [reflexivity | discriminate].
Qed.

Lemma inner_loop_total : forall nested rest index ncs chg,
  Forall (fun c => is_LineBox c = false /\ lines_placed c = true /\ size c <= N) rest ->
  exists ncs' blk res' chg',
    inner_loop bii inner nested index rest ncs SNone chg = Ok (ncs', blk, res', chg') /\
    (blk = None -> res' = SNone) /\
    (forall k, blk = Some k ->
       res' <> SNone /\ size k <= total_size rest /\
       forall cs, skipn index cs = rest ->
                  remaining cs res' < remaining cs (SPair index nested)).
Proof.
  intros nested rest. induction rest as [| child rest IH]; intros index ncs chg Hrest.
  - exists ncs, None, SNone, chg. split; [reflexivity |].
    split; [reflexivity | discriminate].
  - inversion Hrest as [| ? ? (Hline & Hp & Hsize) Hrest']; subst.
    cbn [inner_loop]. destruct (is_BlockLevelBox child) eqn:Hblock.
    + exists ncs, (Some child), (SPair (S index) SNone), chg.
      split; [reflexivity |]. split; [discriminate |].
      intros k Hk. inversion Hk; subst k. split; [discriminate |].
      split; [rewrite total_size_cons; lia |].
      intros cs Hcs.
      rewrite (@remaining_next cs index child rest Hcs),
        (@remaining_at cs index nested child rest Hcs).
      rewrite (@block_level_not_inline child Hblock).
      pose proof (size_pos child). destruct nested; lia.
    + destruct (@inner_child_total nested child Hline Hp Hsize)
        as (nc & same & block & res1 & E & Hnone & Hsome).
      rewrite E. cbn [bind].
      destruct block as [k |].
      * destruct (Hsome k eq_refl) as (Hinline & Hres & Hk & Hdec).
        exists (ncs ++ [nc]), (Some k), (SPair index res1), (chg || negb same).
        split; [reflexivity |]. split; [discriminate |].
        intros k0 Hk0. inversion Hk0; subst k0. split; [discriminate |].
        split; [rewrite total_size_cons; lia |].
        intros cs Hcs.
        rewrite (@remaining_at cs index res1 child rest Hcs),
          (@remaining_at cs index nested child rest Hcs), Hinline.
        destruct res1 as [| j r]; [congruence |].
        destruct nested as [| j' nested'].
        -- pose proof (remaining_le (SPair j r) (box_children child)).
           pose proof (children_size child). lia.
        -- lia.
      * rewrite (Hnone eq_refl).
        destruct (IH (S index) (ncs ++ [nc]) (chg || negb same) Hrest')
          as (ncs' & blk & res' & chg' & E' & Hnone' & Hsome').
        exists ncs', blk, res', chg'. split; [exact E' |]. split; [exact Hnone' |].
        intros k Hk. destruct (Hsome' k Hk) as (H1 & H2 & H3).
        split; [exact H1 |]. split; [rewrite total_size_cons; lia |].
        intros cs Hcs. pose proof (@skipn_tail box index cs child rest Hcs) as Htail.
        specialize (H3 cs Htail).
        pose proof (remaining_pair_le cs (S index) nested) as Hle.
        rewrite Htail in Hle.
        rewrite (@remaining_at cs index nested child rest Hcs). lia.
Qed.

Lemma inner_body_total : inner_total (S N) (inner_body bii inner).
Proof.
  intros b st Hsize Hctx Hp.
  destruct b as [? ? | ? ? | c e cs m]; try discriminate.
  pose proof (placed_inline_children _ _ _ _ Hctx Hp) as Hcs.
  rewrite size_parent in Hsize.
  set (skip := match st with SNone => 0 | SPair k _ => k end).
  set (nested := match st with SNone => SNone | SPair _ r => r end).
  assert (Hrest : Forall (fun c => is_LineBox c = false /\ lines_placed c = true /\
                                   size c <= N) (skipn skip cs)).
  { apply Forall_skipn_keep. rewrite Forall_forall in *. intros x Hx.
    destruct (Hcs x Hx). pose proof (total_size_in _ _ Hx). repeat split; auto. lia. }
  destruct (inner_loop_total nested skip [] false Hrest)
    as (ncs & blk & res & chg & E & Hnone & Hsome).
  assert (Hst : remaining cs (SPair skip nested) = remaining cs st).
  { destruct st; [apply remaining_start | reflexivity]. }
  cbn [inner_body].
  replace (match st with SNone => (0, SNone) | SPair k r => (k, r) end)
    with (skip, nested) by (destruct st; reflexivity).
  cbv beta iota. rewrite E. cbn [bind].
  destruct blk as [k |].
  - exists (ParentBox c e ncs m), false, (Some k), res.
    split; [reflexivity |]. split; [discriminate |].
    intros k0 Hk0. inversion Hk0; subst k0.
    destruct (Hsome k eq_refl) as (H1 & H2 & H3).
    split; [exact H1 |]. split.
    + pose proof (total_size_skipn skip cs). rewrite size_parent. lia.
    + cbn [box_children]. rewrite <- Hst. now apply H3.
  - destruct (negb (chg || (0 <? skip)%nat)).
    + exists (ParentBox c e cs m), true, None, res.
      split; [reflexivity |]. split; [exact Hnone | discriminate].
    + exists (ParentBox c e ncs m), false, None, res.
      split; [reflexivity |]. split; [exact Hnone | discriminate].
Qed.

(** The [while] loop ends: every round that finds a block leaves less to
    search. *)
Lemma split_loop_total : forall n e child st acc,
  is_LineBox child = true -> lines_placed child = true -> size child <= N ->
  remaining (box_children child) st < n ->
  exists nl same acc', split_loop bii inner n e child st acc = Ok (nl, same, acc').
Proof.
  induction n as [| n IH]; intros e child st acc Hline Hp Hsize Hrem; [lia |].
  cbn [split_loop].
  edestruct Hit as (nl & same & blk & st1 & E & Hnone & Hsome);
    [exact Hsize | unfold inline_context; now rewrite Hline | exact Hp |].
  rewrite E. cbn [bind]. destruct blk as [k |].
  - destruct (Hsome k eq_refl) as (_ & Hk & Hdec).
    edestruct Hinner as (_ & _ & _ & _ & Hkk & _);
      [exact E | unfold inline_context; now rewrite Hline | exact Hp |].
    destruct (Hkk k eq_refl) as [Hkb Hkp].
    edestruct Hbt as (k' & samek & Ek); [| | rewrite Ek].
    + lia.
    + unfold well_placed. now rewrite Hkp, (block_level_not_line _ Hkb).
    + cbn [bind]. apply IH; auto. lia.
  - eauto.
Qed.

Lemma for_each_total : forall n e sib cs acc chg,
  Forall (fun c => is_LineBox c = false /\ lines_placed c = true /\ size c <= N) cs ->
  exists acc' chg',
    for_each (split_child bii inner n e sib) cs (acc, chg) = Ok (acc', chg').
Proof.
  intros n e sib cs. induction cs as [| child cs IH]; intros acc chg Hcs.
  - exists acc, chg. reflexivity.
  - inversion Hcs as [| ? ? (Hl & Hp & Hs) Hcs']; subst.
    cbn [for_each]. unfold split_child at 1. rewrite Hl.
    edestruct Hbt as (nc & same & E);
      [exact Hs | unfold well_placed; now rewrite Hl, Hp | rewrite E].
    cbn [bind]. now apply IH.
Qed.

Lemma block_in_inline_body_total : forall n,
  N <= n -> bii_total (S N) (block_in_inline_body bii inner n).
Proof.
  intros n Hn b Hsize Hwp.
  apply andb_true_iff in Hwp as [Hnl Hp]. apply negb_true_iff in Hnl.
  destruct b as [e t | e s | c e cs m]; [cbn; eauto | cbn; eauto |].
  rewrite size_parent in Hsize. cbn [block_in_inline_body].
  cbn [lines_placed] in Hp. apply andb_true_iff in Hp as [Hl Hpc].
  assert (Hsub : exists ncs chg,
            for_each (split_child bii inner n e (List.length cs)) cs ([], false) =
            Ok (ncs, chg)).
  { destruct (existsb is_LineBox cs) eqn:Hex.
    - apply andb_true_iff in Hl as [_ Hlen]. apply Nat.eqb_eq in Hlen.
      destruct cs as [| line [| ? ?]]; try discriminate.
      cbn [existsb] in Hex. rewrite orb_false_r in Hex.
      cbn [forallb] in Hpc. rewrite andb_true_r in Hpc.
      rewrite total_size_cons in Hsize. cbn in Hsize.
      cbn [for_each List.length]. unfold split_child. rewrite Hex.
      cbn [Nat.eqb negb].
      destruct (@split_loop_total n e line SNone [] Hex Hpc) as (nl & same & acc' & E).
      + lia.
      + cbn [remaining]. pose proof (children_size line). lia.
      + rewrite E. cbn [bind]. destruct (truthy acc'); cbn [bind]; eauto.
    - apply for_each_total. rewrite forallb_forall in Hpc. apply Forall_forall.
      intros x Hx. pose proof (total_size_in _ _ Hx). repeat split.
      + destruct (is_LineBox x) eqn:Hx'; [| reflexivity].
        assert (existsb is_LineBox cs = true) by (apply existsb_exists; eauto).
        congruence.
      + now apply Hpc.
      + lia. }
  destruct Hsub as (ncs & chg & E). rewrite E. cbn [bind].
  destruct chg; eauto.
Qed.

End SplitterTotal.

(** Fuel at least the size of the tree is enough. *)
Lemma splitter_total : forall fuel,
  bii_total fuel (block_in_inline fuel) /\
  inner_total fuel (_inner_block_in_inline fuel).
Proof.
  induction fuel as [| fuel [IHb IHi]].
  - split; intros b; intros; pose proof (size_pos b); lia.
  - destruct (splitter_sound fuel) as [Hb Hi]. split.
    + exact (@block_in_inline_body_total _ _ fuel Hi IHb IHi fuel (le_n fuel)).
    + exact (@inner_body_total _ _ fuel IHb IHi).
Qed.

(** C2, as the code has it.  On a tree that meets the structural precondition
    of the splitter (the root is no line box; a line box is the only child of
    its parent, a block container), with fuel for the size of the tree,
    [block_in_inline] returns a tree that meets the precondition and in which
    no line box holds a block-level box in its inline formatting context; a
    second application to that tree returns the very same box; and when the
    argument already had no such block-level box, the first application
    returns the very same box. *)
Theorem block_in_inline_fixpoint : forall t fuel,
  well_placed t = true -> size t <= fuel ->
  exists t' same,
    block_in_inline fuel t = Ok (t', same) /\
    well_placed t' = true /\ lines_clean t' = true /\
    (forall fuel', size t' <= fuel' -> block_in_inline fuel' t' = Ok (t', true)) /\
    (same = true -> t' = t) /\
    (lines_clean t = true -> same = true /\ t' = t).
Proof.
  intros t fuel Hwp Hsize.
  destruct (splitter_total fuel) as [Htotal _].
  destruct (Htotal t Hsize Hwp) as (t' & same & E).
  destruct (splitter_sound fuel) as [Hsound _].
  destruct (Hsound t t' same E Hwp) as (Hc & Hp & Hcl & Hs & Hd).
  destruct (class_preserved _ _ Hc) as (_ & Hl & _ & _).
  assert (Hwp' : well_placed t' = true).
  { unfold well_placed in *. apply andb_true_iff in Hwp as [Hn _].
    now rewrite Hl, Hn, Hp. }
  exists t', same. split; [exact E |]. split; [exact Hwp' |]. split; [exact Hcl |].
  split; [| split; [exact Hs |]].
  - intros fuel' Hsize'.
    destruct (splitter_total fuel') as [Htotal' _].
    destruct (Htotal' t' Hsize' Hwp') as (t2 & same2 & E2).
    destruct (splitter_sound fuel') as [Hsound' _].
    destruct (Hsound' t' t2 same2 E2 Hwp') as (_ & _ & _ & Hs2 & Hd2).
    rewrite E2. rewrite (Hd2 Hcl) in *. now rewrite (Hs2 eq_refl).
  - intros Hclean. split; [now apply Hd |]. apply Hs. now apply Hd.
Qed.

Lemma block_in_inline_fixpoint_witness :
  exists t' same,
    block_in_inline 20 docstring_example = Ok (t', same) /\
    well_placed t' = true /\ lines_clean t' = true /\
    (forall fuel', size t' <= fuel' -> block_in_inline fuel' t' = Ok (t', true)) /\
    (same = true -> t' = docstring_example) /\
    (lines_clean docstring_example = true -> same = true /\ t' = docstring_example).
Proof.
  apply (block_in_inline_fixpoint docstring_example).
  - reflexivity.
  - vm_compute. repeat constructor.
Defined.

(** C2, as stated, fails twice.  A line box that holds an inline-block box
    keeps the block-level boxes inside it: the splitter returns the tree as
    it is, on purpose, since an inline-block box is split on its own.  And
    the splitter does not return at all on a tree where a line box has a
    sibling: the assertion fails. *)
Lemma block_in_inline_keeps_inline_block :
  (block_in_inline 6 inline_block_in_line = Ok (inline_block_in_line, true) /\
   no_block_in_lines inline_block_in_line = false) /\
  block_in_inline 6 two_lines = Raise AssertionError.
Proof. repeat split; reflexivity. Qed.

(** ** The passes in sequence *)

Lemma inline_in_block_class : forall b,
  box_class (fst (inline_in_block b)) = box_class b.
Proof.
  destruct b as [e t | e s | c e cs m]; try reflexivity.
  rewrite inline_in_block_parent. cbv zeta.
  destruct (block_container c); reflexivity.
Qed.

Lemma anonymous_line_placed : forall e line,
  Forall (fun x => is_LineBox x = false /\ lines_placed x = true) line ->
  is_LineBox (anonymous_block e (line_box e line)) = false /\
  lines_placed (anonymous_block e (line_box e line)) = true.
Proof.
  intros e line H. split; [reflexivity |].
  pose proof (no_line_placed LineBox e None H) as Hin.
  unfold anonymous_block, line_box.
  cbn [lines_placed existsb forallb is_LineBox orb block_container
       List.length Nat.eqb andb] in *.
  now rewrite Hin.
Qed.

Lemma inline_in_block_loop_placed : forall e cs out line,
  Forall (fun x => is_LineBox x = false /\ lines_placed x = true) cs ->
  Forall (fun x => is_LineBox x = false /\ lines_placed x = true) out ->
  Forall (fun x => is_LineBox x = false /\ lines_placed x = true) line ->
  Forall (fun x => is_LineBox x = false /\ lines_placed x = true)
    (fst (fold_left (inline_in_block_step e) cs (out, line))) /\
  Forall (fun x => is_LineBox x = false /\ lines_placed x = true)
    (snd (fold_left (inline_in_block_step e) cs (out, line))).
Proof.
  intros e cs. induction cs as [| c cs IH]; intros out line Hcs Hout Hline.
  - now split.
  - inversion Hcs as [| ? ? [Hl Hp] Hcs']; subst.
    cbn [fold_left inline_in_block_step]. rewrite Hl.
    destruct (is_BlockLevelBox c).
    + destruct (truthy line).
      * apply IH; [assumption | | constructor].
        apply Forall_app. split; [| now repeat constructor].
        apply Forall_app. split; [assumption |]. constructor; [| constructor].
        now apply anonymous_line_placed.
      * apply IH; [assumption | | assumption].
        apply Forall_app. split; [assumption | now repeat constructor].
    + apply IH; [assumption | assumption |].
      apply Forall_app. split; [assumption | now repeat constructor].
Qed.

(** On a tree with no line box, [inline_in_block] establishes the structural
    precondition of [block_in_inline]. *)
Lemma inline_in_block_placed : forall b,
  no_lines b = true -> lines_placed (fst (inline_in_block b)) = true.
Proof.
  induction b as [e t | e s | c e cs m IH _] using box_ind; intros Hn;
    try reflexivity.
  rewrite inline_in_block_parent. cbv zeta.
  cbn [no_lines] in Hn. apply andb_true_iff in Hn as [_ Hn].
  assert (Hcs : Forall (fun x => is_LineBox x = false /\ lines_placed x = true)
                  (map (fun child_box => fst (inline_in_block child_box)) cs)).
  { rewrite forallb_forall in Hn. rewrite Forall_forall in IH.
    apply Forall_forall. intros x Hx. apply in_map_iff in Hx as (y & <- & Hy).
    split; [| now apply IH, Hn].
    destruct (class_preserved _ _ (inline_in_block_class y)) as (_ & -> & _).
    specialize (Hn y Hy). destruct y as [? ? | ? ? | [] ? ? ?]; try reflexivity.
    discriminate. }
  destruct (block_container c) eqn:Hc; cbn [negb fst].
  - destruct (inline_in_block_loop_placed e Hcs (Forall_nil _) (Forall_nil _))
      as [Hout Hline].
    destruct (fold_left (inline_in_block_step e) _ ([], [])) as [out line].
    cbn [fst snd] in *. cbn [inline_in_block_finish].
    destruct (truthy line).
    + destruct (truthy out) eqn:Ho.
      * apply no_line_placed, Forall_app. split; [assumption |].
        constructor; [| constructor]. now apply anonymous_line_placed.
      * destruct out; [| discriminate].
        pose proof (no_line_placed LineBox e None Hline) as Hin.
        unfold line_box.
        cbn [app lines_placed existsb forallb is_LineBox orb List.length Nat.eqb
             andb] in *.
        now rewrite Hc, Hin.
    + now apply no_line_placed.
  - now apply no_line_placed.
Qed.

(** X1.  After [inline_in_block] and [block_in_inline], in this order, on a tree
    with no line box, no line box holds a block-level box in its inline
    formatting context. *)
Theorem passes_leave_lines_clean : forall b,
  no_lines b = true ->
  exists t same,
    block_in_inline (size (fst (inline_in_block b))) (fst (inline_in_block b)) =
      Ok (t, same) /\
    well_placed t = true /\ lines_clean t = true.
Proof.
  intros b Hn.
  assert (Hwp : well_placed (fst (inline_in_block b)) = true).
  { unfold well_placed. rewrite (inline_in_block_placed b Hn), andb_true_r.
    destruct (class_preserved _ _ (inline_in_block_class b)) as (_ & -> & _).
    destruct b as [? ? | ? ? | [] ? ? ?]; try reflexivity. discriminate. }
  destruct (splitter_total (size (fst (inline_in_block b)))) as [Htotal _].
  destruct (Htotal _ (le_n _) Hwp) as (t & same & E).
  destruct (splitter_sound (size (fst (inline_in_block b)))) as [Hsound _].
  destruct (Hsound _ _ _ E Hwp) as (Hc & Hp & Hcl & _ & _).
  exists t, same. split; [exact E |]. split; [| exact Hcl].
  unfold well_placed in *. apply andb_true_iff in Hwp as [Hl _].
  destruct (class_preserved _ _ Hc) as (_ & -> & _). now rewrite Hl, Hp.
Qed.

Lemma passes_leave_lines_clean_witness :
  exists t same,
    block_in_inline (size (fst (inline_in_block (ParentBox BlockBox 0
        [TextBox 0 (u "a");
         ParentBox InlineBox 1 [ParentBox BlockBox 2 [TextBox 2 (u "b")] None] None]
        None))))
      (fst (inline_in_block (ParentBox BlockBox 0
        [TextBox 0 (u "a");
         ParentBox InlineBox 1 [ParentBox BlockBox 2 [TextBox 2 (u "b")] None] None]
        None))) = Ok (t, same) /\
    well_placed t = true /\ lines_clean t = true.
Proof.
  apply passes_leave_lines_clean. reflexivity.
Defined.

(** The paragraph <p>Some <em>emphasised</em> text.</p>, with p a block and
    em inline, becomes a block box whose only child is a line box, with no
    anonymous block around it. *)
Theorem build_emphasised_paragraph :
  build_formatting_structure 4 (plain_document paragraph_styles) default_handling
    emphasised_paragraph =
  Ok (ParentBox BlockBox 0
        [line_box 0
           [TextBox 0 (u "Some ");
            ParentBox InlineBox 1 [TextBox 1 (u "emphasised")] None;
            TextBox 0 (u " text.")]] None).
Proof. reflexivity. Qed.

(** * Further properties *)

(** ** Lines inside blocks: content, order and idempotence *)

Lemma flat_map_one : forall A B (f : A -> list B) x, flat_map f [x] = f x.
Proof. intros. cbn [flat_map]. apply app_nil_r. Qed.

Lemma leaf_boxes_anonymous_line : forall e l,
  leaf_boxes (anonymous_block e (line_box e l)) = flat_map leaf_boxes l.
Proof. intros. cbn [anonymous_block line_box leaf_boxes]. apply flat_map_one. Qed.

Lemma leaf_boxes_line : forall e l, leaf_boxes (line_box e l) = flat_map leaf_boxes l.
Proof. reflexivity. Qed.

Lemma inline_in_block_loop_leaves : forall e cs out line,
  flat_map leaf_boxes
    (inline_in_block_finish e (fold_left (inline_in_block_step e) cs (out, line))) =
  flat_map leaf_boxes out ++ flat_map leaf_boxes line ++ flat_map leaf_boxes cs.
Proof.
  intros e cs. induction cs as [| c cs IH]; intros out line.
  - cbn [fold_left inline_in_block_finish]. change (flat_map leaf_boxes []) with (@nil box).
    rewrite app_nil_r.
    destruct (truthy line) eqn:Hl.
    + destruct (truthy out); rewrite flat_map_app, flat_map_one;
        [now rewrite leaf_boxes_anonymous_line | now rewrite leaf_boxes_line].
    + destruct line; [| discriminate]. cbn [flat_map]. now rewrite app_nil_r.
  - cbn [fold_left inline_in_block_step].
    change (flat_map leaf_boxes (c :: cs)) with (leaf_boxes c ++ flat_map leaf_boxes cs).
    destruct (is_BlockLevelBox c).
    + destruct (truthy line) eqn:Hl.
      * rewrite IH, !flat_map_app, !flat_map_one, leaf_boxes_anonymous_line.
        cbn [flat_map app]. now rewrite <- !app_assoc.
      * destruct line; [| discriminate]. rewrite IH, flat_map_app, flat_map_one.
        cbn [flat_map app]. now rewrite <- !app_assoc.
    + destruct (is_LineBox c) eqn:Hc.
      * rewrite IH, flat_map_app.
        destruct c as [? ? | ? ? | [] ? ? ?]; try discriminate.
        cbn [box_children leaf_boxes]. now rewrite <- !app_assoc.
      * rewrite IH, flat_map_app, flat_map_one. now rewrite <- !app_assoc.
Qed.

(** X2.  [inline_in_block] neither drops, nor repeats, nor reorders a leaf box:
    the text and image boxes of the tree stay the same, in document order. *)
Theorem inline_in_block_leaves : forall b,
  leaf_boxes (fst (inline_in_block b)) = leaf_boxes b.
Proof.
  induction b as [e t | e s | c e cs m IH _] using box_ind; try reflexivity.
  rewrite inline_in_block_parent. cbv zeta.
  assert (Hcs : flat_map leaf_boxes (map (fun x => fst (inline_in_block x)) cs) =
                flat_map leaf_boxes cs).
  { induction IH as [| x cs Hx _ IHcs]; [reflexivity |].
    cbn [map flat_map]. now rewrite Hx, IHcs. }
  destruct (block_container c); cbn [negb fst leaf_boxes].
  - rewrite inline_in_block_loop_leaves. exact Hcs.
  - exact Hcs.
Qed.

(** What [inline_in_block] leaves as the children of a block container. *)
Lemma inline_in_block_out : forall e cs,
  inline_in_block_finish e (fold_left (inline_in_block_step e) cs ([], [])) =
  if existsb is_BlockLevelBox cs then group e [] cs
  else if truthy (line_items cs) then [line_box e (line_items cs)] else [].
Proof.
  intros e cs.
  destruct (fold_left (inline_in_block_step e) cs ([], [])) as [out line] eqn:Hloop.
  pose proof (inline_in_block_loop_group e cs [] [] Hloop) as Hgroup.
  cbn [app] in Hgroup.
  destruct (existsb is_BlockLevelBox cs) eqn:Hblock.
  - pose proof (inline_in_block_loop_block e cs [] [] Hblock) as Hout.
    rewrite Hloop in Hout. cbn [fst] in Hout.
    cbn [inline_in_block_finish]. rewrite Hout, <- Hgroup.
    destruct (truthy line); [reflexivity | now rewrite app_nil_r].
  - rewrite (inline_in_block_loop_inline e cs [] [] Hblock) in Hloop.
    inversion Hloop; subst out line. reflexivity.
Qed.

Lemma map_fixed : forall A (f : A -> A) l,
  map f l = l <-> Forall (fun x => f x = x) l.
Proof.
  induction l as [| x l IH]; split; intros H; try constructor; try reflexivity.
  - cbn [map] in H. now injection H.
  - apply IH. cbn [map] in H. now injection H.
  - inversion H; subst. cbn [map]. f_equal; [assumption | now apply IH].
Qed.

Lemma line_items_fixed : forall cs,
  Forall (fun x => fst (inline_in_block x) = x) cs ->
  Forall (fun x => fst (inline_in_block x) = x) (line_items cs).
Proof.
  induction 1 as [| c cs Hc _ IH]; [constructor |].
  change (line_items (c :: cs)) with
    ((if is_LineBox c then box_children c else [c]) ++ line_items cs).
  apply Forall_app. split; [| exact IH].
  destruct (is_LineBox c) eqn:Hl; [| now constructor].
  destruct c as [? ? | ? ? | [] e cc m]; try discriminate.
  rewrite inline_in_block_parent in Hc. cbn in Hc. inversion Hc as [Hmap].
  rewrite Hmap. now apply map_fixed in Hmap.
Qed.

Lemma line_box_fixed : forall e items,
  Forall (fun x => fst (inline_in_block x) = x) items ->
  fst (inline_in_block (line_box e items)) = line_box e items.
Proof.
  intros e items H. unfold line_box. rewrite inline_in_block_parent. cbn.
  f_equal. now apply map_fixed.
Qed.

Lemma anonymous_block_fixed : forall e items,
  Forall (fun x => fst (inline_in_block x) = x) items -> truthy items = true ->
  fst (inline_in_block (anonymous_block e (line_box e items))) =
  anonymous_block e (line_box e items).
Proof.
  intros e items H Ht. unfold anonymous_block. rewrite inline_in_block_parent.
  cbv zeta. cbn [block_container negb map fst].
  rewrite (line_box_fixed e H). cbn. now rewrite Ht.
Qed.

Lemma group_fixed : forall e cs pending,
  Forall (fun x => fst (inline_in_block x) = x) pending ->
  Forall (fun x => fst (inline_in_block x) = x) cs ->
  Forall (fun x => fst (inline_in_block x) = x /\ is_BlockLevelBox x = true)
    (group e pending cs).
Proof.
  intros e cs. induction cs as [| c cs IH]; intros pending Hp Hcs.
  - cbn [group]. destruct (truthy pending) eqn:Ht; [| constructor].
    constructor; [| constructor]. split; [now apply anonymous_block_fixed | reflexivity].
  - inversion Hcs; subst. cbn [group]. destruct (is_BlockLevelBox c) eqn:Hb.
    + apply Forall_app. split.
      * destruct (truthy pending) eqn:Ht; [| constructor].
        constructor; [| constructor].
        split; [now apply anonymous_block_fixed | reflexivity].
      * constructor; [now split |]. apply IH; [constructor | assumption].
    + apply IH; [| assumption]. apply Forall_app. split; [assumption |].
      apply line_items_fixed. now constructor.
Qed.

Lemma inline_in_block_loop_blocks : forall e l out,
  Forall (fun x => is_BlockLevelBox x = true) l ->
  fold_left (inline_in_block_step e) l (out, []) = (out ++ l, []).
Proof.
  intros e l. induction l as [| x l IH]; intros out H.
  - now rewrite app_nil_r.
  - inversion H; subst. cbn [fold_left inline_in_block_step truthy].
    match goal with Hx : is_BlockLevelBox x = true |- _ => rewrite Hx end.
    rewrite IH by assumption. now rewrite <- app_assoc.
Qed.

(** X3.  [inline_in_block] is idempotent: applied to a tree it has normalized, it
    leaves the tree as it is. *)
Theorem inline_in_block_idempotent : forall b,
  fst (inline_in_block (fst (inline_in_block b))) = fst (inline_in_block b).
Proof.
  induction b as [e t | e s | c e cs m IH _] using box_ind; try reflexivity.
  rewrite (inline_in_block_parent c e cs m). cbv zeta.
  set (cs' := map (fun x => fst (inline_in_block x)) cs).
  assert (Hcs : Forall (fun x => fst (inline_in_block x) = x) cs').
  { subst cs'. rewrite Forall_forall in *. intros x Hx.
    apply in_map_iff in Hx as (y & <- & Hy). now apply IH. }
  destruct (block_container c) eqn:Hc; cbn [negb fst].
  - rewrite inline_in_block_out.
    rewrite inline_in_block_parent. cbv zeta. rewrite Hc. cbn [negb fst]. f_equal.
    destruct (existsb is_BlockLevelBox cs') eqn:Hblock.
    + pose proof (group_fixed e (Forall_nil _) Hcs) as Hg.
      assert (Hmap : map (fun x => fst (inline_in_block x)) (group e [] cs') =
                     group e [] cs').
      { apply map_fixed. eapply Forall_impl; [| exact Hg]. now intros x [? _]. }
      rewrite Hmap, inline_in_block_loop_blocks.
      * reflexivity.
      * eapply Forall_impl; [| exact Hg]. now intros x [_ ?].
    + destruct (truthy (line_items cs')) eqn:Ht; [| reflexivity].
      cbn [map]. rewrite (line_box_fixed e (line_items_fixed Hcs)).
      cbn [fold_left inline_in_block_step line_box is_BlockLevelBox block_level
           is_LineBox box_children app inline_in_block_finish truthy].
      now rewrite Ht.
  - rewrite inline_in_block_parent. cbv zeta. rewrite Hc. cbn [negb fst].
    f_equal. now apply map_fixed.
Qed.

(** ** White-space processing: what the collapsing modes guarantee *)

Lemma star_always : forall R p s (g : text -> R),
  star p s (fun s' => Some (g s')) = Some (g (drop_while p s)).
Proof.
  intros R p s g. induction s as [| c s IH]; [reflexivity |].
  cbn [star drop_while]. destruct (p c); [| reflexivity]. now rewrite IH.
Qed.

Lemma length_drop_while : forall p s,
  List.length (drop_while p s) + leading p s = List.length s.
Proof.
  intros p s. induction s as [| c s IH]; [reflexivity |].
  cbn [drop_while leading]. destruct (p c); cbn [List.length]; lia.
Qed.

(** The match of ' +' at the start of a string. *)
Lemma match_at_spaces : forall s,
  match_at spaces_re s =
  match s with
  | c :: s' =>
      if (c =? SPACE)%N then Some (drop_while (N.eqb SPACE) s', []) else None
  | [] => None
  end.
Proof.
  intros [| c s']; [reflexivity |].
  unfold match_at, spaces_re. cbn [rmatch]. rewrite (N.eqb_sym SPACE c).
  destruct (c =? SPACE)%N; [| reflexivity].
  exact (star_always (N.eqb SPACE) s' (fun s'' => (s'', @nil N))).
Qed.

(** [re.sub(' +', ' ', s)] reduces every run of spaces to one space. *)
Lemma re_sub_spaces : forall s,
  re_sub spaces_re (fun _ => [SPACE]) s = collapse_spaces false s.
Proof.
  unfold re_sub.
  assert (H : forall s,
             sub_from spaces_re (fun _ => [SPACE]) 0 s = collapse_spaces false s /\
             sub_from spaces_re (fun _ => [SPACE]) (leading (N.eqb SPACE) s) s =
             collapse_spaces true s).
  { induction s as [| c s [IH0 IH1]]; [now split |].
    assert (H0 : sub_from spaces_re (fun _ => [SPACE]) 0 (c :: s) =
                 collapse_spaces false (c :: s)).
    { cbn [sub_from collapse_spaces]. rewrite match_at_spaces.
      destruct (c =? SPACE)%N eqn:Hc.
      - pose proof (length_drop_while (N.eqb SPACE) s) as Hlen.
        replace (List.length (c :: s) - List.length (drop_while (N.eqb SPACE) s))
          with (S (leading (N.eqb SPACE) s)) by (cbn [List.length]; lia).
        cbn [app]. now rewrite IH1.
      - now rewrite IH0. }
    split; [exact H0 |].
    cbn [leading]. rewrite (N.eqb_sym SPACE c).
    destruct (c =? SPACE)%N eqn:Hc.
    - cbn [sub_from collapse_spaces]. now rewrite Hc.
    - rewrite H0. cbn [collapse_spaces]. now rewrite Hc. }
  intros s. apply H.
Qed.

Lemma collapse_spaces_in : forall s f c, In c (collapse_spaces f s) -> In c s.
Proof.
  induction s as [| d s IH]; intros f c H; [contradiction |].
  cbn [collapse_spaces] in H. destruct (d =? SPACE)%N eqn:Hd.
  - apply N.eqb_eq in Hd. subst d.
    destruct f; [right; eapply IH; eassumption |].
    destruct H as [<- | H]; [now left | right; eapply IH; eassumption].
  - destruct H as [<- | H]; [now left | right; eapply IH; eassumption].
Qed.

Lemma collapse_spaces_single : forall s,
  single_spaced (collapse_spaces false s) = true /\
  single_spaced (collapse_spaces true s) = true /\
  startswith (collapse_spaces true s) SPACE = false.
Proof.
  induction s as [| c s (IH0 & IH1 & IH2)]; [now repeat split |].
  cbn [collapse_spaces]. destruct (c =? SPACE)%N eqn:Hc.
  - split; [| split; [exact IH1 | exact IH2]].
    cbn [single_spaced]. now rewrite IH2, IH1, andb_false_r.
  - assert (H : single_spaced (c :: collapse_spaces false s) = true).
    { cbn [single_spaced]. now rewrite Hc, IH0. }
    split; [exact H |]. split; [exact H |]. cbn [startswith]. exact Hc.
Qed.

Lemma collapse_spaces_fixed : forall s,
  single_spaced s = true ->
  collapse_spaces false s = s /\
  (startswith s SPACE = false -> collapse_spaces true s = s).
Proof.
  induction s as [| c s IH]; intros H; [now split |].
  cbn [single_spaced] in H. apply andb_true_iff in H as [Hc Hs].
  destruct (IH Hs) as [IH0 IH1]. cbn [collapse_spaces startswith].
  destruct (c =? SPACE)%N eqn:Hc'.
  - cbn [andb negb] in Hc. apply negb_true_iff in Hc.
    apply N.eqb_eq in Hc'. subst c. split; [| discriminate].
    now rewrite (IH1 Hc).
  - rewrite IH0. now split.
Qed.

Lemma single_spaced_tl : forall s, single_spaced s = true -> single_spaced (tl s) = true.
Proof.
  intros [| c s] H; [reflexivity |]. cbn [single_spaced] in H.
  now apply andb_true_iff in H as [_ H].
Qed.

Lemma in_tl : forall (s : text) c, In c (tl s) -> In c s.
Proof. intros [| d s] c H; [contradiction | now right]. Qed.

Lemma replace_in : forall old new s c,
  In c (replace old new s) -> c = new \/ (In c s /\ c <> old).
Proof.
  intros old new s c H. unfold replace in H. apply in_map_iff in H as (d & Hd & Hin).
  destruct (d =? old)%N eqn:E; [now left |].
  right. subst d. split; [assumption |]. now apply N.eqb_neq.
Qed.

Lemma collapsing_cases : forall h,
  collapsing h = true -> h = "normal" \/ h = "nowrap" \/ h = "pre-line".
Proof.
  intros h H. unfold collapsing, in_ in H. cbn [existsb] in H.
  rewrite orb_false_r in H. apply orb_true_iff in H as [H | H];
    [| apply orb_true_iff in H as [H | H]]; apply String.eqb_eq in H; auto.
Qed.

Lemma collapse_replace_tab : forall x,
  ~ In TAB (collapse_spaces false (replace TAB SPACE x)) /\
  single_spaced (collapse_spaces false (replace TAB SPACE x)) = true /\
  (~ In LF x -> ~ In LF (collapse_spaces false (replace TAB SPACE x))).
Proof.
  intros x. split; [| split].
  - intros H. apply collapse_spaces_in, replace_in in H as [H | [_ H]];
      [discriminate | congruence].
  - apply collapse_spaces_single.
  - intros Hx H. apply collapse_spaces_in, replace_in in H as [H | [H _]];
      [discriminate | contradiction].
Qed.

Lemma well_collapsed_drop : forall h (b : bool) c,
  well_collapsed h c -> well_collapsed h (if b then tl c else c).
Proof.
  intros h b c (H1 & H2 & H3). destruct b; [| now repeat split].
  split; [| split].
  - intros H. apply H1. now apply in_tl.
  - now apply single_spaced_tl.
  - intros Hh H. apply (H3 Hh). now apply in_tl.
Qed.

(** One text of a collapsing mode. *)
Lemma process_text_collapsed : forall h flag t,
  collapsing h = true -> well_collapsed h (fst (process_text h flag t)).
Proof.
  intros h flag t Hh.
  destruct (collapsing_cases h Hh) as [-> | [-> | ->]];
    unfold process_text; cbn -[re_sub replace startswith endswith tl];
    rewrite re_sub_spaces; apply well_collapsed_drop;
    match goal with
    | |- well_collapsed _ (collapse_spaces false (replace TAB SPACE ?x)) =>
        destruct (collapse_replace_tab x) as (H1 & H2 & H3)
    end;
    (split; [exact H1 | split; [exact H2 |]]).
  - intros _. apply H3. intros H. apply replace_in in H as [H | [_ H]];
      [discriminate | congruence].
  - intros _. apply H3. intros H. apply replace_in in H as [H | [_ H]];
      [discriminate | congruence].
  - intros H. congruence.
Qed.

Lemma thread_collapsed : forall doc leaves flag,
  Forall (fun leaf =>
            collapsing (text_handling doc (fst leaf)) = true ->
            well_collapsed (text_handling doc (fst leaf)) (snd leaf))
         (thread doc flag leaves).
Proof.
  intros doc leaves. induction leaves as [| [e t] leaves IH]; intros flag;
    [constructor |].
  cbn [thread]. destruct (truthy t) eqn:Ht.
  - cbv zeta. destruct (collapsing (text_handling doc e)) eqn:Hc.
    + constructor; [| apply IH]. cbn [fst snd]. intros _.
      pose proof (process_text_collapsed (text_handling doc e) flag t Hc) as H.
      rewrite process_text_flag, Hc in H. exact H.
    + constructor; [| apply IH]. cbn [fst snd]. congruence.
  - constructor; [| apply IH]. cbn [fst snd]. intros _.
    destruct t; [| discriminate]. now repeat split.
Qed.

(** X4.  After [process_whitespace], the text of every text box of a collapsing
    mode (normal, nowrap, pre-line) holds no tab and no two spaces in a row,
    and in the modes normal and nowrap no newline either. *)
Theorem process_whitespace_collapsed : forall doc b,
  Forall (fun leaf =>
            collapsing (text_handling doc (fst leaf)) = true ->
            well_collapsed (text_handling doc (fst leaf)) (snd leaf))
         (text_boxes (process_whitespace doc b)).
Proof.
  intros doc b. rewrite process_whitespace_walk, (proj1 (walk_thread doc b false)).
  apply thread_collapsed.
Qed.

Lemma suffix_in : forall s' s (c : N), suffix s' s -> In c s' -> In c s.
Proof. induction 1; intros Hc; [assumption | right; auto]. Qed.

Lemma star_suffix : forall R p s (k : text -> option R) r,
  star p s k = Some r -> exists s', suffix s' s /\ k s' = Some r.
Proof.
  intros R p s k r. induction s as [| c s IH]; intros H.
  - exists []. split; [constructor | exact H].
  - cbn [star] in H. destruct (p c).
    + destruct (star p s k) as [r' |].
      * destruct (IH H) as (s' & Hs & Hk). exists s'.
        split; [now constructor | exact Hk].
      * exists (c :: s). split; [constructor | exact H].
    + exists (c :: s). split; [constructor | exact H].
Qed.

(** The pattern of the newlines matches only where a newline follows. *)
Lemma match_at_newline_lf : forall s r, match_at newline_re s = Some r -> In LF s.
Proof.
  intros s r H. unfold match_at, newline_re in H. cbn [rmatch] in H.
  apply star_suffix in H as (s' & Hs & H).
  destruct s' as [| c s'']; [discriminate |].
  destruct (LF =? c)%N eqn:E; [| discriminate].
  apply N.eqb_eq in E. subst c. apply (@suffix_in _ s LF Hs). now left.
Qed.

Lemma sub_from_no_match : forall r repl s,
  (forall s', suffix s' s -> match_at r s' = None) ->
  sub_from r repl 0 s = s.
Proof.
  intros r repl s. induction s as [| c s IH]; intros H.
  - cbn [sub_from]. now rewrite (H [] (suffix_refl [])).
  - cbn [sub_from]. rewrite (H (c :: s) (suffix_refl _)). f_equal.
    apply IH. intros s' Hs. apply H. now constructor.
Qed.

Lemma re_sub_newline_fixed : forall repl s,
  ~ In LF s -> re_sub newline_re repl s = s.
Proof.
  intros repl s Hs. apply sub_from_no_match. intros s' Hsuf.
  destruct (match_at newline_re s') as [r |] eqn:E; [| reflexivity].
  exfalso. apply Hs. apply (@suffix_in s' s LF Hsuf).
  eapply match_at_newline_lf. exact E.
Qed.

Lemma replace_fixed : forall old new s, ~ In old s -> replace old new s = s.
Proof.
  intros old new s. induction s as [| c s IH]; intros H; [reflexivity |].
  cbn [replace map]. destruct (c =? old)%N eqn:E.
  - apply N.eqb_eq in E. subst c. exfalso. apply H. now left.
  - f_equal. apply IH. intros Hin. apply H. now right.
Qed.

(** X5.  In the modes normal and nowrap a text that was processed is left as it
    is when it is processed again with no pending space. *)
Theorem process_text_idempotent : forall h flag t,
  h = "normal" \/ h = "nowrap" ->
  fst (process_text h false (fst (process_text h flag t))) =
  fst (process_text h flag t).
Proof.
  intros h flag t Hh.
  assert (Hc : collapsing h = true) by (destruct Hh as [-> | ->]; reflexivity).
  destruct (process_text_collapsed h flag t Hc) as (Htab & Hsingle & Hlf).
  assert (Hlf' : ~ In LF (fst (process_text h flag t))).
  { apply Hlf. destruct Hh as [-> | ->]; discriminate. }
  set (t' := fst (process_text h flag t)) in *.
  destruct Hh as [-> | ->];
    unfold process_text; cbn -[re_sub replace startswith endswith tl t'];
    rewrite re_sub_spaces; rewrite re_sub_newline_fixed by exact Hlf';
    rewrite (@replace_fixed LF SPACE t' Hlf'), (@replace_fixed TAB SPACE t' Htab);
    apply (@collapse_spaces_fixed t' Hsingle).
Qed.

Lemma process_text_idempotent_witness :
  fst (process_text "normal" false (fst (process_text "normal" true (u " a  b ")))) =
  fst (process_text "normal" true (u " a  b ")).
Proof.
  apply (@process_text_idempotent "normal" true (u " a  b ")). now left.
Defined.

Lemma break_after_nbsp_in : forall s c,
  In c (break_after_nbsp s) -> c = ZWSP \/ In c s.
Proof.
  induction s as [| d s IH]; intros c H; [contradiction |].
  cbn [break_after_nbsp] in H.
  destruct (d =? NBSP)%N; [destruct (startswith s NBSP) |].
  - destruct H as [<- | H]; [right; now left |].
    destruct (IH c H); [now left | right; now right].
  - destruct H as [<- | [<- | H]]; [right; now left | now left |].
    destruct (IH c H); [now left | right; now right].
  - destruct H as [<- | H]; [right; now left |].
    destruct (IH c H); [now left | right; now right].
Qed.

Lemma without_zwsp_break : forall s,
  without_zwsp (break_after_nbsp s) = without_zwsp s.
Proof.
  induction s as [| c s IH]; [reflexivity |].
  cbn [break_after_nbsp]. unfold without_zwsp in *.
  destruct (c =? NBSP)%N eqn:Hc; [destruct (startswith s NBSP) |];
    cbn [filter]; destruct (negb (c =? ZWSP)%N); cbn [N.eqb negb filter];
    now rewrite IH.
Qed.

(** X6.  The preserving modes leave no ordinary space in a text, and the text of
    the mode pre-wrap is that of the mode pre but for zero-width spaces. *)
Theorem process_text_preserving : forall flag t,
  ~ In SPACE (fst (process_text "pre" flag t)) /\
  ~ In SPACE (fst (process_text "pre-wrap" flag t)) /\
  without_zwsp (fst (process_text "pre-wrap" flag t)) =
  without_zwsp (fst (process_text "pre" flag t)).
Proof.
  intros flag t. rewrite process_text_pre_eq, process_text_pre_wrap_eq. cbn [fst].
  assert (H : ~ In SPACE (replace SPACE NBSP t)).
  { intros H. apply replace_in in H as [H | [_ H]]; [discriminate | congruence]. }
  split; [exact H |]. split; [| apply without_zwsp_break].
  intros Hin. apply break_after_nbsp_in in Hin as [Hin | Hin];
    [discriminate | contradiction].
Qed.

(** ** Lines of pre-line text *)

Lemma star_fail : forall R p s (k : text -> option R),
  (forall c r, p c = true -> k (c :: r) = None) ->
  star p s k = k (drop_while p s).
Proof.
  intros R p s k Hk. induction s as [| c s IH]; [reflexivity |].
  cbn [star drop_while]. destruct (p c) eqn:Hc; [| reflexivity].
  rewrite IH. destruct (k (drop_while p s)); [reflexivity |]. now apply Hk.
Qed.

Lemma match_at_newline : forall s,
  match_at newline_re s =
  match drop_while tab_cr_space s with
  | c :: rest =>
      if (LF =? c)%N then Some (drop_while tab_cr_space rest, []) else None
  | [] => None
  end.
Proof.
  intros s. unfold match_at, newline_re. cbn [rmatch]. rewrite star_fail.
  - destruct (drop_while tab_cr_space s) as [| c rest]; [reflexivity |].
    destruct (LF =? c)%N; [| reflexivity].
    exact (star_always tab_cr_space rest (fun s'' => (s'', @nil N))).
  - intros c r Hc. destruct (LF =? c)%N eqn:E; [| reflexivity].
    apply N.eqb_eq in E. subst c. discriminate.
Qed.

Lemma drop_while_app : forall p s, exists pre, s = pre ++ drop_while p s.
Proof.
  intros p s. induction s as [| c s [pre IH]]; [now exists [] |].
  cbn [drop_while]. destruct (p c).
  - exists (c :: pre). cbn [app]. now f_equal.
  - now exists [].
Qed.

Lemma head_blank_drop_while : forall s,
  head_blank (drop_while tab_cr_space s) = false.
Proof.
  induction s as [| c s IH]; [reflexivity |].
  cbn [drop_while]. destruct (tab_cr_space c) eqn:Hc; [exact IH | exact Hc].
Qed.

Lemma sub_from_skip : forall r repl pre rest,
  sub_from r repl (List.length pre) (pre ++ rest) = sub_from r repl 0 rest.
Proof.
  intros r repl pre rest. induction pre as [| c pre IH]; [reflexivity |].
  cbn [List.length app sub_from]. exact IH.
Qed.

(** One step of the substitution of the newline pattern. *)
Lemma sub_from_newline_step : forall c s,
  sub_from newline_re (fun _ => [LF]) 0 (c :: s) =
  match drop_while tab_cr_space (c :: s) with
  | x :: rest =>
      if (LF =? x)%N
      then LF :: sub_from newline_re (fun _ => [LF]) 0 (drop_while tab_cr_space rest)
      else c :: sub_from newline_re (fun _ => [LF]) 0 s
  | [] => c :: sub_from newline_re (fun _ => [LF]) 0 s
  end.
Proof.
  intros c s. cbn [sub_from]. rewrite match_at_newline.
  destruct (drop_while_app tab_cr_space (c :: s)) as [pre1 H1].
  destruct (drop_while tab_cr_space (c :: s)) as [| x rest0]; [reflexivity |].
  destruct (LF =? x)%N eqn:E; [| reflexivity].
  destruct (drop_while_app tab_cr_space rest0) as [pre2 H2].
  set (rest := drop_while tab_cr_space rest0) in *.
  assert (Hs : exists pre, s = pre ++ rest).
  { rewrite H2 in H1. destruct pre1 as [| y pre1]; cbn [app] in H1.
    - injection H1 as _ ->. now exists pre2.
    - injection H1 as _ ->. exists (pre1 ++ x :: pre2). now rewrite <- app_assoc. }
  destruct Hs as [pre ->].
  replace (List.length (c :: pre ++ rest) - List.length rest)
    with (S (List.length pre)) by (cbn [List.length]; rewrite length_app; lia).
  cbn [app]. now rewrite sub_from_skip.
Qed.

Lemma sub_from_newline_tight : forall n s,
  List.length s <= n ->
  tight (sub_from newline_re (fun _ => [LF]) 0 s) = true /\
  (head_blank s = false ->
   head_blank (sub_from newline_re (fun _ => [LF]) 0 s) = false) /\
  (head_newline (sub_from newline_re (fun _ => [LF]) 0 s) = true ->
   exists rest, drop_while tab_cr_space s = LF :: rest).
Proof.
  induction n as [| n IH]; intros s Hn.
  - destruct s; [| cbn [List.length] in Hn; lia].
    cbn. split; [reflexivity |]. split; [reflexivity | discriminate].
  - destruct s as [| c s].
    + cbn. split; [reflexivity |]. split; [reflexivity | discriminate].
    + cbn [List.length] in Hn. rewrite sub_from_newline_step.
      assert (Hcopy : (forall rest, drop_while tab_cr_space (c :: s) <> LF :: rest) ->
        tight (c :: sub_from newline_re (fun _ => [LF]) 0 s) = true /\
        (head_blank (c :: s) = false ->
         head_blank (c :: sub_from newline_re (fun _ => [LF]) 0 s) = false) /\
        (head_newline (c :: sub_from newline_re (fun _ => [LF]) 0 s) = true ->
         exists rest, drop_while tab_cr_space (c :: s) = LF :: rest)).
      { intros Hno. destruct (IH s ltac:(lia)) as (Ht & _ & Hl).
        assert (Hc : (c =? LF)%N = false).
        { destruct (c =? LF)%N eqn:E; [| reflexivity].
          apply N.eqb_eq in E. subst c. exfalso. apply (Hno s). reflexivity. }
        split; [| split].
        - cbn [tight]. rewrite Ht, andb_true_r.
          destruct (sub_from newline_re (fun _ => [LF]) 0 s) as [| x out] eqn:Eo;
            [reflexivity |].
          unfold around_newline. rewrite Hc. cbn [andb]. rewrite orb_false_r.
          destruct (tab_cr_space c) eqn:Hw; [| reflexivity].
          destruct (x =? LF)%N eqn:Hx; [| reflexivity].
          exfalso. destruct (Hl Hx) as [rest Hrest].
          apply (Hno rest). cbn [drop_while]. now rewrite Hw.
        - intros H. exact H.
        - cbn [head_newline]. congruence. }
      destruct (drop_while tab_cr_space (c :: s)) as [| x rest0] eqn:Ed.
      * apply Hcopy. discriminate.
      * destruct (LF =? x)%N eqn:E.
        -- apply N.eqb_eq in E. subst x.
           assert (Hlen : List.length (drop_while tab_cr_space rest0) <= n).
           { pose proof (length_drop_while tab_cr_space (c :: s)) as H1.
             pose proof (length_drop_while tab_cr_space rest0) as H2.
             rewrite Ed in H1. cbn [List.length] in H1. lia. }
           destruct (IH _ Hlen) as (Ht & Hb & _).
           specialize (Hb (head_blank_drop_while rest0)).
           split; [| split].
           ++ cbn [tight]. rewrite Ht, andb_true_r.
              destruct (sub_from newline_re (fun _ => [LF]) 0
                          (drop_while tab_cr_space rest0)) as [| y out];
                [reflexivity |].
              cbn [head_blank] in Hb. unfold around_newline. now rewrite Hb.
           ++ reflexivity.
           ++ intros _. now exists rest0.
        -- apply Hcopy. intros rest H. inversion H; subst x. discriminate.
Qed.

Lemma around_newline_tab : forall a b,
  around_newline (if (a =? TAB)%N then SPACE else a)
                 (if (b =? TAB)%N then SPACE else b) = around_newline a b.
Proof.
  intros a b. unfold around_newline.
  destruct (a =? TAB)%N eqn:Ea; [apply N.eqb_eq in Ea; subst a |];
    (destruct (b =? TAB)%N eqn:Eb; [apply N.eqb_eq in Eb; subst b |]);
    reflexivity.
Qed.

Lemma tight_replace_tab : forall s, tight (replace TAB SPACE s) = tight s.
Proof.
  unfold replace. induction s as [| a s IH]; [reflexivity |].
  cbn [map tight]. rewrite IH. destruct s as [| b s]; [reflexivity |].
  cbn [map]. now rewrite around_newline_tab.
Qed.

Lemma tight_collapse_after : forall s prev,
  tight (prev :: s) = true ->
  tight (prev :: collapse_spaces (prev =? SPACE)%N s) = true.
Proof.
  induction s as [| c s IH]; intros prev H; [reflexivity |].
  cbn [collapse_spaces].
  pose proof H as H'. cbn [tight] in H'. apply andb_true_iff in H' as [Hpc Hcs].
  change (tight (c :: s) = true) in Hcs.
  destruct (c =? SPACE)%N eqn:Hc.
  - apply N.eqb_eq in Hc. subst c. specialize (IH SPACE Hcs).
    rewrite N.eqb_refl in IH.
    destruct (prev =? SPACE)%N eqn:Hp.
    + apply N.eqb_eq in Hp. subst prev. exact IH.
    + cbn [tight]. cbn [tight] in IH. now rewrite Hpc, IH.
  - specialize (IH c Hcs). rewrite Hc in IH.
    cbn [tight]. cbn [tight] in IH. now rewrite Hpc, IH.
Qed.

Lemma tight_collapse : forall s,
  tight s = true -> tight (collapse_spaces false s) = true.
Proof.
  intros [| c s] H; [reflexivity |].
  pose proof (tight_collapse_after s c H) as Hc.
  cbn [collapse_spaces]. destruct (c =? SPACE)%N eqn:E; [| exact Hc].
  apply N.eqb_eq in E. now subst c.
Qed.

Lemma tight_tl : forall s, tight s = true -> tight (tl s) = true.
Proof.
  intros [| c s] H; [reflexivity |]. cbn [tight] in H.
  now apply andb_true_iff in H as [_ H].
Qed.

Lemma process_text_pre_line_tight : forall flag t,
  tight (fst (process_text "pre-line" flag t)) = true.
Proof.
  intros flag t. unfold process_text.
  cbn -[re_sub replace startswith endswith tl]. rewrite re_sub_spaces.
  assert (H : tight (collapse_spaces false
                       (replace TAB SPACE (re_sub newline_re (fun _ => [LF]) t))) = true).
  { apply tight_collapse. rewrite tight_replace_tab.
    exact (proj1 (@sub_from_newline_tight (List.length t) t (le_n _))). }
  destruct (flag && _); [now apply tight_tl | exact H].
Qed.

Lemma without_blanks_drop_while : forall s,
  without_blanks (drop_while tab_cr_space s) = without_blanks s.
Proof.
  induction s as [| c s IH]; [reflexivity |].
  cbn [drop_while]. unfold without_blanks in *. cbn [filter].
  destruct (tab_cr_space c) eqn:E; [exact IH |]. cbn [filter]. now rewrite E.
Qed.

Lemma sub_from_newline_kept : forall n s,
  List.length s <= n ->
  without_blanks (sub_from newline_re (fun _ => [LF]) 0 s) = without_blanks s.
Proof.
  induction n as [| n IH]; intros s Hn.
  - destruct s; [reflexivity | cbn [List.length] in Hn; lia].
  - destruct s as [| c s]; [reflexivity |].
    cbn [List.length] in Hn. rewrite sub_from_newline_step.
    assert (Hcopy :
      without_blanks (c :: sub_from newline_re (fun _ => [LF]) 0 s) =
      without_blanks (c :: s)).
    { unfold without_blanks in *. cbn [filter]. now rewrite (IH s ltac:(lia)). }
    destruct (drop_while tab_cr_space (c :: s)) as [| x rest0] eqn:Ed;
      [exact Hcopy |].
    destruct (LF =? x)%N eqn:E; [| exact Hcopy].
    apply N.eqb_eq in E. subst x.
    assert (Hlen : List.length (drop_while tab_cr_space rest0) <= n).
    { pose proof (length_drop_while tab_cr_space (c :: s)) as H1.
      pose proof (length_drop_while tab_cr_space rest0) as H2.
      rewrite Ed in H1. cbn [List.length] in H1. lia. }
    rewrite <- (without_blanks_drop_while (c :: s)), Ed.
    change (without_blanks (LF :: ?l)) with (LF :: without_blanks l).
    now rewrite (IH _ Hlen), without_blanks_drop_while.
Qed.

Lemma without_blanks_replace_tab : forall s,
  without_blanks (replace TAB SPACE s) = without_blanks s.
Proof.
  unfold without_blanks, replace. induction s as [| c s IH]; [reflexivity |].
  cbn [map filter]. rewrite IH.
  destruct (c =? TAB)%N eqn:E; [| reflexivity].
  apply N.eqb_eq in E. now subst c.
Qed.

Lemma without_blanks_collapse : forall s after,
  without_blanks (collapse_spaces after s) = without_blanks s.
Proof.
  unfold without_blanks. induction s as [| c s IH]; intros after; [reflexivity |].
  cbn [collapse_spaces]. destruct (c =? SPACE)%N eqn:E.
  - apply N.eqb_eq in E. subst c. destruct after; cbn [filter]; apply IH.
  - cbn [filter]. now rewrite IH.
Qed.

Lemma without_blanks_strip : forall (flag : bool) s,
  without_blanks (if flag && startswith s SPACE then tl s else s) = without_blanks s.
Proof.
  intros flag s. destruct (flag && startswith s SPACE) eqn:H; [| reflexivity].
  apply andb_true_iff in H as [_ H]. destruct s as [| c s]; [reflexivity |].
  cbn [startswith] in H. apply N.eqb_eq in H. now subst c.
Qed.

Lemma process_text_pre_line_kept : forall flag t,
  without_blanks (fst (process_text "pre-line" flag t)) = without_blanks t.
Proof.
  intros flag t. unfold process_text.
  cbn -[re_sub replace startswith endswith tl]. rewrite re_sub_spaces.
  rewrite without_blanks_strip, without_blanks_collapse, without_blanks_replace_tab.
  exact (@sub_from_newline_kept (List.length t) t (le_n _)).
Qed.

Lemma thread_pre_line : forall doc leaves flag,
  Forall2 (fun old new =>
             fst new = fst old /\
             (text_handling doc (fst old) = "pre-line" ->
              tight (snd new) = true /\
              without_blanks (snd new) = without_blanks (snd old)))
          leaves (thread doc flag leaves).
Proof.
  intros doc leaves. induction leaves as [| [e t] leaves IH]; intros flag;
    [constructor |].
  cbn [thread]. destruct (truthy t) eqn:Ht.
  - cbv zeta. destruct (collapsing (text_handling doc e)) eqn:Hc.
    + constructor; [| apply IH]. cbn [fst snd]. split; [reflexivity |].
      intros Hh.
      pose proof (process_text_pre_line_tight flag t) as H1.
      pose proof (process_text_pre_line_kept flag t) as H2.
      rewrite process_text_flag in H1, H2. rewrite Hh. now split.
    + constructor; [| apply IH]. cbn [fst snd]. split; [reflexivity |].
      intros Hh. rewrite Hh in Hc. discriminate.
  - constructor; [| apply IH]. cbn [fst snd]. split; [reflexivity |].
    intros _. destruct t; [now split | discriminate].
Qed.

(** X7.  [process_whitespace] on the text boxes of the mode pre-line, each
    compared with what it was: in the new text no tab, carriage return or
    space stands just before or just after a newline, and the characters
    other than tab, carriage return and space, the newlines among them, are
    those of the old text, in the same order. *)
Theorem process_whitespace_pre_line : forall doc b,
  Forall2 (fun old new =>
             fst new = fst old /\
             (text_handling doc (fst old) = "pre-line" ->
              tight (snd new) = true /\
              without_blanks (snd new) = without_blanks (snd old)))
          (text_boxes b) (text_boxes (process_whitespace doc b)).
Proof.
  intros doc b. rewrite process_whitespace_walk, (proj1 (walk_thread doc b false)).
  apply thread_pre_line.
Qed.

(** ** Building boxes: when it succeeds, and how it fails *)

Section BuildOutcome.

Variable doc : document.
Variable handle_element : document -> element -> option box.

Lemma built_ids_eq : forall elt,
  built_ids doc handle_element elt =
  if display (style_for doc (el_id elt)) =? "none" then []
  else
    match handle_element doc elt with
    | Some _ => []
    | None =>
        el_id elt ::
        flat_map (fun child =>
                    match el_tag child with
                    | Some _ => built_ids doc handle_element child
                    | None => []
                    end) (el_children elt)
    end.
Proof. now intros []. Qed.

(** The box made for an element, or the exception that names its value. *)
Lemma new_box_outcome : forall elt,
  match new_box doc (display (style_for doc (el_id elt))) elt with
  | Ok b =>
      buildable doc (el_id elt) = true /\
      no_anonymous b = true /\
      exists c cs m, b = ParentBox c (el_id elt) cs m
  | Raise ex => buildable doc (el_id elt) = false /\ build_error doc (el_id elt) ex
  | OutOfFuel => False
  end.
Proof.
  intros elt. unfold new_box, buildable, build_error, supported_display, in_.
  cbn [existsb]. set (d := display (style_for doc (el_id elt))).
  destruct (d =? "block") eqn:Hb.
  - cbn [orb]. destruct (d =? "list-item") eqn:Hl.
    + apply String.eqb_eq in Hb, Hl. congruence.
    + cbn [andb]. split; [reflexivity |]. split; [reflexivity | eauto].
  - cbn [orb]. destruct (d =? "list-item") eqn:Hl.
    + cbn [andb]. unfold add_list_marker, list_marker_box, marker_ok.
      cbn [box_element box_children truthy].
      destruct (match list_style_image (style_for doc (el_id elt)) with
                | Some uri => get_image_surface_from_uri doc uri
                | None => None
                end) as [s |].
      * cbn [bind].
        destruct (_ =? "inside"); [| destruct (_ =? "outside")]; cbn;
          (split; [reflexivity |]); (split; [reflexivity | eauto]).
      * destruct (list_style_type (style_for doc (el_id elt)) =? "none") eqn:Hn.
        -- cbn. split; [reflexivity |]. split; [reflexivity | eauto].
        -- cbn [orb].
           destruct (GLYPH_LIST_MARKERS _) as [g |]; cbn [bind].
           ++ destruct (_ =? "inside"); [| destruct (_ =? "outside")]; cbn;
                (split; [reflexivity |]); (split; [reflexivity | eauto]).
           ++ split; [reflexivity | now right].
    + destruct (d =? "inline") eqn:Hi.
      * cbn. split; [reflexivity |]. split; [reflexivity | eauto].
      * destruct (d =? "inline-block") eqn:Hib.
        -- cbn. split; [reflexivity |]. split; [reflexivity | eauto].
        -- cbn. split; [reflexivity | now left].
Qed.

Lemma all_child_boxes_outcome : forall j children,
  Forall (fun child =>
            outcome doc (built_ids doc handle_element child)
              (dom_to_box doc handle_element child)) children ->
  outcome doc (children_built doc handle_element children)
    (all_child_boxes doc handle_element j children).
Proof.
  intros j children IH. induction IH as [| child rest Hchild _ IHrest].
  - constructor.
  - cbn [all_child_boxes children_built flat_map]. fold (children_built doc handle_element rest).
    unfold child_boxes. destruct (el_tag child) as [tag |].
    + destruct (dom_to_box doc handle_element child) as [r | ex |];
        cbn [bind outcome] in *.
      * destruct (all_child_boxes doc handle_element j rest) as [l | ex |];
          cbn [bind outcome] in *.
        -- apply Forall_app. now split.
        -- destruct IHrest as (i & Hi & Hbad). exists i. split; [| exact Hbad].
           apply in_or_app. now right.
        -- exact IHrest.
      * destruct Hchild as (i & Hi & Hbad). exists i. split; [| exact Hbad].
        apply in_or_app. now left.
      * exact Hchild.
    + cbn [bind app].
      destruct (all_child_boxes doc handle_element j rest) as [l | ex |];
        cbn [bind outcome] in *; exact IHrest.
Qed.

Lemma dom_to_box_built : forall elt,
  outcome doc (built_ids doc handle_element elt) (dom_to_box doc handle_element elt).
Proof.
  intros elt. induction elt as [tag j t children tl IH] using element_ind.
  rewrite built_ids_eq. cbn [el_id el_children].
  destruct (display (style_for doc j) =? "none") eqn:Hd.
  - rewrite dom_to_box_eq. cbv zeta. cbn [el_id]. rewrite Hd. constructor.
  - destruct (handle_element doc (Element tag j t children tl)) as [r |] eqn:Hh.
    + rewrite dom_to_box_eq. cbv zeta. cbn [el_id]. rewrite Hd, Hh. constructor.
    + rewrite (@dom_to_box_default doc handle_element _ Hh Hd). cbn [el_id el_children el_text].
      pose proof (new_box_outcome (Element tag j t children tl)) as Hnew.
      cbn [el_id] in Hnew.
      pose proof (all_child_boxes_outcome j IH) as Hall.
      fold (children_built doc handle_element children).
      destruct (new_box doc _ _) as [b | ex |]; cbn [bind outcome].
      * destruct Hnew as (Hgood & _).
        destruct (all_child_boxes doc handle_element j children) as [l | ex |];
          cbn [bind outcome] in *.
        -- now constructor.
        -- destruct Hall as (i & Hi & Hbad). exists i. split; [now right | exact Hbad].
        -- exact Hall.
      * exists j. split; [now left | exact Hnew].
      * exact Hnew.
Qed.

End BuildOutcome.

(** X8.  [dom_to_box] succeeds exactly when every element it constructs a box
    for by default (neither pruned nor handled by the hook, nor below such an
    element) has a supported [display] and, for a list item without an image
    marker, a [list-style-type] that is [none] or has a glyph.  Otherwise it
    raises the [NotImplementedError] or the [KeyError] of such an element,
    and no other exception. *)
Theorem dom_to_box_outcome : forall doc handle_element elt,
  match dom_to_box doc handle_element elt with
  | Ok _ =>
      Forall (fun i => buildable doc i = true) (built_ids doc handle_element elt)
  | Raise ex =>
      exists i,
        In i (built_ids doc handle_element elt) /\
        buildable doc i = false /\
        (ex = NotImplementedError
                ("Unsupported display: " ++ display (style_for doc i)) \/
         ex = KeyError (list_style_type (style_for doc i)))
  | OutOfFuel => False
  end.
Proof. intros doc handle_element elt. exact (dom_to_box_built doc handle_element elt). Qed.

(** ** The boxes built from the document have no line box *)

Section BuildShape.

Variable doc : document.
Variable handle_element : document -> element -> option box.

Hypothesis hook_plain : forall elt b,
  handle_element doc elt = Some b -> no_anonymous b = true.

Lemma all_child_boxes_plain : forall j children,
  Forall (fun child => forall b,
            dom_to_box doc handle_element child = Ok (Some b) ->
            no_anonymous b = true) children ->
  forall l, all_child_boxes doc handle_element j children = Ok l ->
  forallb no_anonymous l = true.
Proof.
  intros j children IH. induction IH as [| child rest Hchild _ IHrest]; intros l Hl.
  - inversion Hl. reflexivity.
  - cbn [all_child_boxes] in Hl. unfold child_boxes in Hl.
    assert (Htail : forallb no_anonymous (text_box j (el_tail child)) = true).
    { unfold text_box. now destruct (truthy _). }
    destruct (el_tag child) as [tag |].
    + destruct (dom_to_box doc handle_element child) as [[b |] | |] eqn:Hb;
        cbn [bind] in Hl; try discriminate;
        destruct (all_child_boxes doc handle_element j rest) as [l2 | |];
        cbn [bind] in Hl; try discriminate; injection Hl as <-;
        cbn [forallb]; rewrite forallb_app, Htail, (IHrest l2 eq_refl).
      * now rewrite (Hchild b eq_refl).
      * reflexivity.
    + cbn [bind] in Hl.
      destruct (all_child_boxes doc handle_element j rest) as [l2 | |];
        cbn [bind] in Hl; try discriminate; injection Hl as <-.
      now rewrite !forallb_app, Htail, (IHrest l2 eq_refl).
Qed.

Lemma dom_to_box_plain : forall elt b,
  dom_to_box doc handle_element elt = Ok (Some b) -> no_anonymous b = true.
Proof.
  intros elt. induction elt as [tag j t children tl IH] using element_ind.
  intros b H.
  destruct (display (style_for doc j) =? "none") eqn:Hd.
  - rewrite dom_to_box_eq in H. cbv zeta in H. cbn [el_id] in H.
    rewrite Hd in H. discriminate.
  - destruct (handle_element doc (Element tag j t children tl)) as [r |] eqn:Hh.
    + rewrite dom_to_box_eq in H. cbv zeta in H. cbn [el_id] in H.
      rewrite Hd, Hh in H. inversion H; subst r. exact (hook_plain Hh).
    + rewrite (@dom_to_box_default doc handle_element _ Hh Hd) in H.
      cbn [el_id el_children el_text] in H.
      pose proof (new_box_outcome doc (Element tag j t children tl)) as Hnew.
      cbn [el_id] in Hnew.
      destruct (new_box doc _ _) as [b0 | |]; cbn [bind] in H; try discriminate.
      destruct Hnew as (_ & Hplain & c & cs & m & ->).
      destruct (all_child_boxes doc handle_element j children) as [l | |] eqn:Hl;
        cbn [bind] in H; try discriminate.
      inversion H; subst b. cbn [append_children no_anonymous] in *.
      assert (Htext : forallb no_anonymous (text_box j t) = true).
      { unfold text_box. now destruct (truthy _). }
      destruct c; try discriminate;
        now rewrite !forallb_app, Hplain, Htext, (all_child_boxes_plain j IH Hl).
Qed.

End BuildShape.

Lemma no_anonymous_no_lines : forall b, no_anonymous b = true -> no_lines b = true.
Proof.
  induction b as [e t | e s | c e cs m IH _] using box_ind; try reflexivity.
  cbn [no_anonymous no_lines is_LineBox]. intros H.
  assert (Hcs : forallb no_anonymous cs = true) by (destruct c; now try discriminate).
  assert (Hall : forallb no_lines cs = true).
  { clear H. induction IH as [| x rest Hx _ IHrest]; [reflexivity |].
    cbn [forallb] in *. apply andb_true_iff in Hcs as [H1 H2].
    now rewrite (Hx H1), (IHrest H2). }
  rewrite Hall. destruct c; try reflexivity; discriminate.
Qed.

(** X9.  [dom_to_box] builds block, inline and inline-block boxes with text and
    marker leaves only: when the boxes of the element hook hold no line box
    and no anonymous block box, neither does the box built for an element. *)
Theorem dom_to_box_no_anonymous : forall doc handle_element elt b,
  (forall x r, handle_element doc x = Some r -> no_anonymous r = true) ->
  dom_to_box doc handle_element elt = Ok (Some b) ->
  no_anonymous b = true.
Proof.
  intros doc handle_element elt b Hook H.
  exact (@dom_to_box_plain doc handle_element Hook elt b H).
Qed.

Lemma dom_to_box_no_anonymous_witness :
  (forall x r, default_handling (plain_document paragraph_styles) x = Some r ->
               no_anonymous r = true) /\
  no_anonymous
    (ParentBox BlockBox 0
       [TextBox 0 (u "Some ");
        ParentBox InlineBox 1 [TextBox 1 (u "emphasised")] None;
        TextBox 0 (u " text.")] None) = true.
Proof.
  split; [discriminate |].
  apply (@dom_to_box_no_anonymous (plain_document paragraph_styles) default_handling
           emphasised_paragraph).
  - discriminate.
  - reflexivity.
Defined.

(** ** Whitespace processing keeps the structure *)

Section WhitespaceShape.

Variable doc : document.

Lemma walk_children_related : forall (R : box -> box -> Prop) cs,
  Forall (fun b => forall f, R b (fst (walk doc b f))) cs ->
  forall f, Forall2 R cs (fst (walk_children doc cs f)).
Proof.
  induction 1 as [| c cs Hc Hcs IH]; intros f; [constructor |].
  cbn [walk_children]. specialize (Hc f). destruct (walk doc c f) as [c1 f1].
  specialize (IH f1). destruct (walk_children doc cs f1) as [cs' f'].
  now constructor.
Qed.

Lemma forallb_related : forall (g : box -> bool) cs cs',
  Forall2 (fun c c' => g c' = g c) cs cs' -> forallb g cs' = forallb g cs.
Proof.
  induction 1 as [| c c' cs cs' Hc _ IH]; [reflexivity |].
  cbn [forallb]. now rewrite Hc, IH.
Qed.

Lemma existsb_related : forall (g : box -> bool) cs cs',
  Forall2 (fun c c' => g c' = g c) cs cs' -> existsb g cs' = existsb g cs.
Proof.
  induction 1 as [| c c' cs cs' Hc _ IH]; [reflexivity |].
  cbn [existsb]. now rewrite Hc, IH.
Qed.

Lemma single_line_related : forall cs cs',
  Forall2 (fun x x' => is_LineBox x' = is_LineBox x) cs cs' ->
  match cs' with [x] => is_LineBox x | _ => false end =
  match cs with [x] => is_LineBox x | _ => false end.
Proof.
  intros cs cs' [| x x' l l' Hx [| y y' l2 l2' _ _]]; [reflexivity | exact Hx |].
  reflexivity.
Qed.

Lemma walk_shape : forall b f, same_shape b (fst (walk doc b f)).
Proof.
  induction b as [e t | e s | c e cs m IH _] using box_ind; intros f.
  - cbn [walk]. destruct (truthy t); [| now repeat split].
    destruct (process_text _ f t). now repeat split.
  - now repeat split.
  - rewrite walk_parent. cbv zeta.
    pose proof (walk_children_related same_shape IH f) as Hcs.
    destruct (walk_children doc cs f) as [cs' f']. cbn [fst] in *.
    assert (Hline : Forall2 (fun x x' => is_LineBox x' = is_LineBox x) cs cs').
    { eapply Forall2_impl; [| exact Hcs]. intros x x' (Hc & _).
      now destruct (class_preserved _ _ Hc) as (_ & -> & _). }
    assert (Hplaced : Forall2 (fun x x' => lines_placed x' = lines_placed x) cs cs').
    { eapply Forall2_impl; [| exact Hcs]. now intros x x' (_ & H & _). }
    assert (Hclean : Forall2 (fun x x' => lines_clean x' = lines_clean x) cs cs').
    { eapply Forall2_impl; [| exact Hcs]. now intros x x' (_ & _ & _ & H & _). }
    assert (Hinline :
      Forall2 (fun x x' =>
                 negb (is_BlockLevelBox x') &&
                 (if is_InlineBox x' then inline_clean x' else true) =
                 negb (is_BlockLevelBox x) &&
                 (if is_InlineBox x then inline_clean x else true)) cs cs').
    { eapply Forall2_impl; [| exact Hcs]. intros x x' (Hc & _ & Hi & _).
      destruct (class_preserved _ _ Hc) as (-> & _ & -> & _). now rewrite Hi. }
    assert (Hlevel :
      Forall2 (fun x x' => is_BlockLevelBox x' = is_BlockLevelBox x) cs cs').
    { eapply Forall2_impl; [| exact Hcs]. intros x x' (Hc & _).
      now destruct (class_preserved _ _ Hc) as (-> & _). }
    assert (Hnormal : Forall2 (fun x x' => block_normal x' = block_normal x) cs cs').
    { eapply Forall2_impl; [| exact Hcs]. now intros x x' (_ & _ & _ & _ & H). }
    unfold same_shape.
    cbn [box_class lines_placed inline_clean lines_clean block_normal].
    rewrite (existsb_related _ Hline), (forallb_related _ Hplaced),
      (forallb_related _ Hclean), (forallb_related _ Hinline),
      (forallb_related _ Hlevel), (forallb_related _ Hnormal),
      (single_line_related Hline), <- (Forall2_length Hcs).
    now repeat split.
Qed.

Lemma process_whitespace_shape : forall b, same_shape b (process_whitespace doc b).
Proof. intros b. rewrite process_whitespace_walk. apply walk_shape. Qed.

End WhitespaceShape.

(** ** [block_in_inline] copies a box only when it has to *)

Section SplitterExact.

Variable bii : box -> result (box * bool).
Variable inner : box -> stack -> result search.
Hypothesis Hbii : bii_exact bii.
Hypothesis Hinner : inner_exact inner.

Lemma inner_loop_exact : forall rest index ncs res chg ncs' res' chg',
  inner_loop bii inner SNone index rest ncs res chg = Ok (ncs', None, res', chg') ->
  exists added,
    ncs' = ncs ++ added /\ (chg' = true -> chg = true \/ added <> rest).
Proof.
  induction rest as [| child rest IH]; intros index ncs res chg ncs' res' chg' H.
  - cbn [inner_loop] in H. inversion H; subst. exists []. rewrite app_nil_r. auto.
  - cbn [inner_loop] in H.
    destruct (is_BlockLevelBox child); [discriminate |].
    assert (Hstep : forall nc same res1,
      inner_loop bii inner SNone (S index) rest (ncs ++ [nc]) res1 (chg || negb same) =
        Ok (ncs', None, res', chg') ->
      (same = false -> nc <> child) ->
      exists added,
        ncs' = ncs ++ added /\ (chg' = true -> chg = true \/ added <> child :: rest)).
    { intros nc same res1 E Hnc.
      destruct (IH _ _ _ _ _ _ _ E) as (added & -> & Hchg).
      exists (nc :: added). rewrite <- app_assoc. split; [reflexivity |].
      intros Hc. destruct (Hchg Hc) as [Hor | Hne].
      - apply orb_true_iff in Hor as [Hor | Hor]; [now left |].
        right. intros Heq. inversion Heq.
        apply (Hnc (proj1 (negb_true_iff _) Hor)). assumption.
      - right. intros Heq. inversion Heq. now apply Hne. }
    destruct (is_InlineBox child).
    + destruct (inner child SNone) as [[[[nc same] blk] res1] | |] eqn:E;
        cbn [bind] in H; try discriminate.
      destruct blk; [discriminate |].
      apply (Hstep _ _ _ H). intros Hs. exact (Hinner E Hs).
    + destruct (is_ParentBox child).
      * destruct (bii child) as [[nc same] | |] eqn:E; cbn [bind] in H;
          try discriminate.
        apply (Hstep _ _ _ H). intros Hs. exact (Hbii E Hs).
      * cbn [bind] in H. apply (Hstep _ _ _ H). discriminate.
Qed.

Lemma inner_body_exact : inner_exact (inner_body bii inner).
Proof.
  intros [e t | e s | c e cs m] nb same res H Hs; try discriminate.
  cbn [inner_body skipn] in H.
  destruct (inner_loop bii inner SNone 0 cs [] SNone false)
    as [[[[ncs blk] res1] chg] | |] eqn:E; cbn [bind] in H; try discriminate.
  destruct blk; [discriminate |].
  destruct (inner_loop_exact _ _ _ _ _ E) as (added & -> & Hchg).
  cbn [Nat.ltb Nat.leb] in H. rewrite orb_false_r in H.
  destruct chg; cbn [negb] in H; inversion H; subst; [| discriminate].
  destruct (Hchg eq_refl) as [? | Hne]; [discriminate |].
  intros Heq. inversion Heq. now apply Hne.
Qed.

Lemma split_loop_grows : forall n e line st acc nl same nc,
  split_loop bii inner n e line st acc = Ok (nl, same, nc) ->
  exists more, nc = acc ++ more.
Proof.
  induction n as [| n IH]; intros e line st acc nl same nc H; [discriminate |].
  cbn [split_loop] in H.
  destruct (inner line st) as [[[[nl1 same1] blk] st1] | |]; cbn [bind] in H;
    try discriminate.
  destruct blk as [k |].
  - destruct (bii k) as [[nk samek] | |]; cbn [bind] in H; try discriminate.
    destruct (IH _ _ _ _ _ _ _ H) as (more & ->).
    rewrite <- !app_assoc. eauto.
  - inversion H. exists []. now rewrite app_nil_r.
Qed.

Lemma split_loop_exact : forall n e line nl same nc,
  split_loop bii inner n e line SNone [] = Ok (nl, same, nc) ->
  truthy nc = true \/ (nc = [] /\ (same = false -> nl <> line)).
Proof.
  intros [| n] e line nl same nc H; [discriminate |].
  cbn [split_loop] in H.
  destruct (inner line SNone) as [[[[nl1 same1] blk] st1] | |] eqn:E;
    cbn [bind] in H; try discriminate.
  destruct blk as [k |].
  - destruct (bii k) as [[nk samek] | |]; cbn [bind] in H; try discriminate.
    destruct (split_loop_grows _ _ _ _ _ H) as (more & ->). now left.
  - inversion H; subst. right. split; [reflexivity |].
    intros Hs. exact (Hinner E Hs).
Qed.

Lemma for_each_split_exact : forall n e k cs acc chg ncs' chg',
  for_each (split_child bii inner n e k) cs (acc, chg) = Ok (ncs', chg') ->
  (forall x, In x cs -> is_LineBox x = true -> (k =? 1)%nat = false) ->
  exists added,
    ncs' = acc ++ added /\ (chg' = true -> chg = true \/ added <> cs).
Proof.
  intros n e k. induction cs as [| child rest IH]; intros acc chg ncs' chg' H Hline.
  - inversion H; subst. exists []. rewrite app_nil_r. auto.
  - cbn [for_each] in H. unfold split_child at 1 in H.
    destruct (is_LineBox child) eqn:Hl.
    + rewrite (Hline child (or_introl eq_refl) Hl) in H. discriminate.
    + destruct (bii child) as [[nc same] | |] eqn:E; cbn [bind] in H;
        try discriminate.
      destruct (IH _ _ _ _ H) as (added & -> & Hchg).
      { intros x Hx. apply Hline. now right. }
      exists (nc :: added). rewrite <- app_assoc. split; [reflexivity |].
      intros Hc. destruct (Hchg Hc) as [Hor | Hne].
      * apply orb_true_iff in Hor as [Hor | Hor]; [now left |].
        right. intros Heq. inversion Heq.
        apply (Hbii E (proj1 (negb_true_iff _) Hor)). assumption.
      * right. intros Heq. inversion Heq. now apply Hne.
Qed.

Lemma block_in_inline_body_exact : forall n, bii_exact (block_in_inline_body bii inner n).
Proof.
  intros n [e t | e s | c e cs m] r same H Hs; try (inversion H; congruence).
  cbn [block_in_inline_body] in H.
  destruct (for_each _ cs ([], false)) as [[ncs chg] | |] eqn:E; cbn [bind] in H;
    try discriminate.
  destruct chg; inversion H; subst; [| discriminate]. clear H.
  intros Heq. inversion Heq; subst ncs. clear Heq.
  destruct (List.length cs =? 1)%nat eqn:Hlen.
  - destruct cs as [| x [| y rest]]; try discriminate.
    cbn [for_each] in E. unfold split_child in E. cbn [List.length Nat.eqb negb] in E.
    destruct (is_LineBox x).
    + destruct (split_loop bii inner n e x SNone []) as [[[nl same] nc] | |] eqn:El;
        cbn [bind] in E; try discriminate.
      destruct (split_loop_exact _ _ _ El) as [Ht | [-> Hnl]].
      * rewrite Ht in E. cbn [bind] in E. inversion E as [Hcs].
        destruct nc as [| a [| b l]]; discriminate.
      * cbn [truthy bind app] in E. inversion E as [[Hcs Hsame]].
        apply (Hnl (proj1 (negb_true_iff _) Hsame)). assumption.
    + destruct (bii x) as [[nc same] | |] eqn:Ex; cbn [bind] in E; try discriminate.
      cbn [app] in E. inversion E as [[Hcs Hsame]].
      apply (Hbii Ex (proj1 (negb_true_iff _) Hsame)). assumption.
  - destruct (for_each_split_exact _ _ _ _ _ _ E) as (added & Hadd & Hchg).
    { intros x _ _. exact Hlen. }
    cbn [app] in Hadd. subst added.
    destruct (Hchg eq_refl) as [? | Hne]; [discriminate | now apply Hne].
Qed.

End SplitterExact.

Lemma splitter_exact : forall fuel,
  bii_exact (block_in_inline fuel) /\ inner_exact (_inner_block_in_inline fuel).
Proof.
  induction fuel as [| fuel [IHb IHi]].
  - split; intros b; intros; discriminate.
  - split.
    + exact (block_in_inline_body_exact IHb IHi fuel).
    + exact (inner_body_exact IHb IHi).
Qed.

(** X10.  [block_in_inline] returns its argument, the very same object, exactly
    when the tree it returns is the tree it was given: a new box is made for
    a box only when something below it changed. *)
Theorem block_in_inline_copy_on_change : forall fuel b r same,
  block_in_inline fuel b = Ok (r, same) -> (same = true <-> r = b).
Proof.
  intros fuel b r same H. split.
  - intros ->. destruct fuel as [| fuel]; [discriminate |].
    cbn [block_in_inline] in H.
    destruct b as [e t | e s | c e cs m]; cbn [block_in_inline_body] in H;
      try (now inversion H).
    destruct (for_each _ cs ([], false)) as [[ncs chg] | |]; cbn [bind] in H;
      try discriminate.
    destruct chg; now inversion H.
  - intros Heq. destruct same; [reflexivity |].
    destruct (splitter_exact fuel) as [Hb _]. now destruct (Hb _ _ _ H eq_refl).
Qed.

Lemma block_in_inline_copy_on_change_witness :
  block_in_inline 4 clean_block = Ok (clean_block, true) /\
  (true = true <-> clean_block = clean_block).
Proof.
  split; [reflexivity |].
  apply (@block_in_inline_copy_on_change 4 clean_block clean_block true). reflexivity.
Defined.

(** ** A line box with siblings is refused *)

Lemma for_each_split_alone : forall bii inner n e k cs st r,
  for_each (split_child bii inner n e k) cs st = Ok r ->
  existsb is_LineBox cs = true -> (k =? 1)%nat = true.
Proof.
  intros bii inner n e k. induction cs as [| child rest IH]; intros st r H Hex;
    [discriminate |].
  cbn [for_each] in H. cbn [existsb] in Hex.
  destruct (split_child bii inner n e k st child) as [st' | |] eqn:E;
    cbn [bind] in H; try discriminate.
  destruct (is_LineBox child) eqn:Hl.
  - unfold split_child in E. destruct st as [acc chg]. rewrite Hl in E.
    destruct (k =? 1)%nat; [reflexivity | discriminate].
  - exact (IH _ _ H Hex).
Qed.

(** X11.  The assertion of [block_in_inline].  A call that returns was given a
    box whose line box, if it has one among its children, is its only child;
    and a box whose first child is a line box with siblings raises an
    [AssertionError]. *)
Theorem block_in_inline_line_alone : forall fuel c e cs m,
  (forall r, block_in_inline fuel (ParentBox c e cs m) = Ok r ->
             existsb is_LineBox cs = true -> List.length cs = 1) /\
  (forall line rest,
     cs = line :: rest -> is_LineBox line = true -> rest <> [] ->
     block_in_inline (S fuel) (ParentBox c e cs m) = Raise AssertionError).
Proof.
  intros fuel c e cs m. split.
  - intros r H Hex. destruct fuel as [| fuel]; [discriminate |].
    cbn [block_in_inline block_in_inline_body] in H.
    destruct (for_each _ cs ([], false)) as [st | |] eqn:E; cbn [bind] in H;
      try discriminate.
    apply Nat.eqb_eq. exact (for_each_split_alone _ _ _ _ _ _ _ E Hex).
  - intros line rest -> Hl Hrest.
    cbn [block_in_inline block_in_inline_body for_each]. unfold split_child at 1.
    rewrite Hl. destruct rest as [| y rest]; [congruence |]. reflexivity.
Qed.

Lemma block_in_inline_line_alone_witness :
  block_in_inline 1
    (ParentBox BlockBox 0 [line_box 0 [TextBox 0 (u "a")]; TextBox 0 (u "b")] None) =
  Raise AssertionError.
Proof.
  apply (proj2 (block_in_inline_line_alone 0 BlockBox 0
                  [line_box 0 [TextBox 0 (u "a")]; TextBox 0 (u "b")] None)
           (line_box 0 [TextBox 0 (u "a")]) [TextBox 0 (u "b")]).
  - reflexivity.
  - reflexivity.
  - discriminate.
Defined.

(** ** The search finds the first block *)

Lemma first_block_parent : forall c e cs m,
  first_block (ParentBox c e cs m) = first_block_in cs.
Proof.
  intros c e cs m. cbn [first_block].
  induction cs as [| child rest IH]; [reflexivity |].
  cbn [first_block_in]. now rewrite IH.
Qed.

Section SplitterFirst.

Variable bii : box -> result (box * bool).
Variable inner : box -> stack -> result search.
Hypothesis Hinner : inner_first inner.

Lemma inner_loop_first : forall rest index ncs chg ncs' blk res' chg',
  inner_loop bii inner SNone index rest ncs SNone chg = Ok (ncs', blk, res', chg') ->
  blk = first_block_in rest /\ (blk = None -> res' = SNone).
Proof.
  induction rest as [| child rest IH]; intros index ncs chg ncs' blk res' chg' H.
  - cbn [inner_loop] in H. inversion H. now split.
  - cbn [inner_loop first_block_in] in *.
    destruct (is_BlockLevelBox child).
    + inversion H. split; [reflexivity | discriminate].
    + destruct (is_InlineBox child).
      * destruct (inner child SNone) as [[[[nc same] blk1] res1] | |] eqn:E;
          cbn [bind] in H; try discriminate.
        destruct (Hinner E) as [Hblk Hres]. rewrite <- Hblk.
        destruct blk1 as [k |].
        -- inversion H. split; [reflexivity | discriminate].
        -- rewrite (Hres eq_refl) in H. exact (IH _ _ _ _ _ _ _ H).
      * destruct (is_ParentBox child).
        -- destruct (bii child) as [[nc same] | |]; cbn [bind] in H;
             try discriminate.
           exact (IH _ _ _ _ _ _ _ H).
        -- cbn [bind] in H. exact (IH _ _ _ _ _ _ _ H).
Qed.

Lemma inner_body_first : inner_first (inner_body bii inner).
Proof.
  intros [e t | e s | c e cs m] nb same blk res H; try discriminate.
  rewrite first_block_parent. cbn [inner_body skipn] in H.
  destruct (inner_loop bii inner SNone 0 cs [] SNone false)
    as [[[[ncs blk1] res1] chg] | |] eqn:E; cbn [bind] in H; try discriminate.
  destruct (inner_loop_first _ _ _ _ E) as [Hblk Hres].
  destruct blk1 as [k |].
  - inversion H; subst. now split.
  - destruct (negb _); inversion H; subst; now split.
Qed.

End SplitterFirst.

Lemma splitter_first : forall fuel, inner_first (_inner_block_in_inline fuel).
Proof.
  induction fuel as [| fuel IH].
  - intros b; intros; discriminate.
  - exact (inner_body_first (block_in_inline fuel) IH).
Qed.

(** X12.  A search of [_inner_block_in_inline] from the start, on a line box
    or an inline box in which every line box is the only child of a block
    container, returns (with fuel of the size of the box), and it returns as
    [block_level_box] the first block-level box of the inline formatting
    context of the box in document order (among its children and those of
    the inline boxes nested in it, inline-block boxes being opaque), or
    [None] when there is none, and then [resume_at] is [None] too.  Whatever
    the box and the fuel, a search from the start that returns has returned
    that. *)
Theorem inner_block_in_inline_first : forall fuel b,
  (inline_context b = true -> lines_placed b = true -> size b <= fuel ->
   exists nb same res,
     _inner_block_in_inline fuel b SNone = Ok (nb, same, first_block b, res) /\
     (first_block b = None -> res = SNone)) /\
  (forall nb same blk res,
     _inner_block_in_inline fuel b SNone = Ok (nb, same, blk, res) ->
     blk = first_block b /\ (blk = None -> res = SNone)).
Proof.
  intros fuel b. split.
  - intros Hc Hp Hs. destruct (splitter_total fuel) as [_ Htotal].
    destruct (Htotal b SNone Hs Hc Hp) as (nb & same & blk & res & E & _).
    destruct (splitter_first fuel _ E) as [-> Hres].
    now exists nb, same, res.
  - intros nb same blk res H. exact (splitter_first fuel _ H).
Qed.

Lemma inner_block_in_inline_first_witness :
  first_block line_with_block = Some (ParentBox BlockBox 2 [] None) /\
  exists nb same res,
    _inner_block_in_inline 5 line_with_block SNone =
      Ok (nb, same, first_block line_with_block, res) /\
    (first_block line_with_block = None -> res = SNone).
Proof.
  split; [reflexivity |].
  apply (proj1 (inner_block_in_inline_first 5 line_with_block)).
  - reflexivity.
  - reflexivity.
  - vm_compute. lia.
Defined.

(** ** The outcomes of [add_list_marker] *)

Lemma list_marker_box_outcome : forall doc b,
  match list_marker_box doc b with
  | Ok _ => marker_ok doc (box_element b) = true
  | Raise ex =>
      ex = KeyError (list_style_type (style_for doc (box_element b))) /\
      marker_ok doc (box_element b) = false
  | OutOfFuel => False
  end.
Proof.
  intros doc b. unfold list_marker_box, marker_ok. cbv zeta.
  destruct (match list_style_image (style_for doc (box_element b)) with
            | Some uri => get_image_surface_from_uri doc uri
            | None => None
            end) as [s |]; [reflexivity |].
  destruct (list_style_type (style_for doc (box_element b)) =? "none");
    [reflexivity |].
  cbn [orb]. destruct (GLYPH_LIST_MARKERS _); [reflexivity | now split].
Qed.

(** X13.  What [add_list_marker] does to a parent box.  The marker is an
    image marker box when the image of [list-style-image] has a surface, else
    none when [list-style-type] is [none], else a text box of the glyph of
    [list-style-type]; a type with no glyph raises a [KeyError].  A marker to
    be put inside a box that has children already raises an
    [AssertionError]; nothing else is raised.  When the function returns:
    with no marker the box is as it was; with a marker and position
    [inside] the box, which had no children, has the marker and a text box
    of a no-break space as its children; with position [outside] it has the
    marker as its outside marker and its children untouched; with any other
    position it is as it was. *)
Theorem add_list_marker_outcome : forall doc c e cs m,
  let st := style_for doc e in
  let b := ParentBox c e cs m in
  let surface :=
    match list_style_image st with
    | Some uri => get_image_surface_from_uri doc uri
    | None => None
    end in
  let marker mk :=
    (exists s, surface = Some s /\ mk = ImageMarkerBox e s) \/
    (exists glyph,
       surface = None /\ list_style_type st <> "none" /\
       GLYPH_LIST_MARKERS (list_style_type st) = Some glyph /\
       mk = TextBox e glyph) in
  match add_list_marker doc b with
  | Ok b' =>
      marker_ok doc e = true /\
      ((surface = None /\ list_style_type st = "none" /\ b' = b) \/
       exists mk,
         marker mk /\ list_marker_box doc b = Ok (Some mk) /\
         ((list_style_position st = "inside" /\ cs = [] /\
           b' = ParentBox c e [mk; TextBox e [NBSP]] m) \/
          (list_style_position st = "outside" /\
           b' = ParentBox c e cs (Some mk)) \/
          (list_style_position st <> "inside" /\
           list_style_position st <> "outside" /\ b' = b)))
  | Raise ex =>
      (ex = KeyError (list_style_type st) /\ marker_ok doc e = false /\
       surface = None /\ list_style_type st <> "none" /\
       GLYPH_LIST_MARKERS (list_style_type st) = None) \/
      (ex = AssertionError /\ marker_ok doc e = true /\
       (exists mk, marker mk) /\
       list_style_position st = "inside" /\ cs <> [])
  | OutOfFuel => False
  end.
Proof.
  intros doc c e cs m st b surface marker. subst b. unfold add_list_marker.
  pose proof (list_marker_box_outcome doc (ParentBox c e cs m)) as Hm.
  assert (Hbox :
    match list_marker_box doc (ParentBox c e cs m) with
    | Ok (Some mk) => marker mk
    | Ok None => surface = None /\ list_style_type st = "none"
    | Raise _ =>
        surface = None /\ list_style_type st <> "none" /\
        GLYPH_LIST_MARKERS (list_style_type st) = None
    | OutOfFuel => False
    end).
  { unfold list_marker_box, marker. cbn [box_element]. cbv zeta.
    fold st. fold surface. destruct surface as [s |].
    - left. now exists s.
    - destruct (list_style_type st =? "none") eqn:Hn.
      + apply String.eqb_eq in Hn. now split.
      + apply String.eqb_neq in Hn.
        destruct (GLYPH_LIST_MARKERS (list_style_type st)) as [g |] eqn:Hg.
        * right. exists g. now repeat split.
        * now repeat split. }
  destruct (list_marker_box doc (ParentBox c e cs m)) as [[mk |] | ex |]; cbn [bind].
  - cbn [box_element] in *. fold st.
    destruct (list_style_position st =? "inside") eqn:Hin.
    + apply String.eqb_eq in Hin. destruct cs as [| x cs]; cbn.
      * split; [exact Hm |]. right. exists mk. split; [exact Hbox |].
        split; [reflexivity |]. left. now repeat split.
      * right. split; [reflexivity |]. split; [exact Hm |].
        split; [now exists mk |]. split; [exact Hin | discriminate].
    + apply String.eqb_neq in Hin.
      destruct (list_style_position st =? "outside") eqn:Hout.
      * apply String.eqb_eq in Hout. split; [exact Hm |]. right. exists mk.
        split; [exact Hbox |]. split; [reflexivity |]. right. left. now split.
      * apply String.eqb_neq in Hout. split; [exact Hm |]. right. exists mk.
        split; [exact Hbox |]. split; [reflexivity |]. right. right.
        now repeat split.
  - split; [exact Hm |]. left. destruct Hbox as [Hs Ht]. now repeat split.
  - left. destruct Hm as [-> Hm]. destruct Hbox as (Hs & Ht & Hg).
    cbn [box_element]. now repeat split.
  - exact Hm.
Qed.

(** ** Block containers after [inline_in_block] *)

Lemma forallb_true : forall (g : box -> bool) l,
  Forall (fun x => g x = true) l <-> forallb g l = true.
Proof.
  intros g l. rewrite Forall_forall, forallb_forall. reflexivity.
Qed.

Lemma anonymous_line_normal : forall e line,
  Forall (fun x => block_normal x = true) line ->
  block_normal (anonymous_block e (line_box e line)) = true.
Proof.
  intros e line H. apply forallb_true in H.
  unfold anonymous_block, line_box.
  cbn [block_normal block_container forallb is_BlockLevelBox block_level is_LineBox
       orb andb].
  now rewrite H.
Qed.

Lemma inline_in_block_loop_normal : forall e cs out line,
  Forall (fun x => block_normal x = true) cs ->
  Forall (fun x => is_BlockLevelBox x = true /\ block_normal x = true) out ->
  Forall (fun x => block_normal x = true) line ->
  Forall (fun x => is_BlockLevelBox x = true /\ block_normal x = true)
    (fst (fold_left (inline_in_block_step e) cs (out, line))) /\
  Forall (fun x => block_normal x = true)
    (snd (fold_left (inline_in_block_step e) cs (out, line))).
Proof.
  intros e cs. induction cs as [| c cs IH]; intros out line Hcs Hout Hline.
  - now split.
  - inversion Hcs as [| ? ? Hc Hcs']; subst.
    cbn [fold_left inline_in_block_step].
    destruct (is_BlockLevelBox c) eqn:Hbl.
    + destruct (truthy line).
      * apply IH; [assumption | | constructor].
        apply Forall_app. split; [| now repeat constructor].
        apply Forall_app. split; [assumption |]. constructor; [| constructor].
        split; [reflexivity | now apply anonymous_line_normal].
      * apply IH; [assumption | | assumption].
        apply Forall_app. split; [assumption | now repeat constructor].
    + destruct (is_LineBox c) eqn:Hl.
      * apply IH; [assumption | assumption |].
        apply Forall_app. split; [assumption |].
        destruct c as [? ? | ? ? | [] ? xs ?]; try discriminate.
        cbn [block_normal block_container andb box_children] in *.
        now apply forallb_true.
      * apply IH; [assumption | assumption |].
        apply Forall_app. split; [assumption | now repeat constructor].
Qed.

Lemma inline_in_block_block_normal : forall b,
  block_normal (fst (inline_in_block b)) = true.
Proof.
  induction b as [e t | e s | c e cs m IH _] using box_ind; try reflexivity.
  rewrite inline_in_block_parent. cbv zeta.
  assert (Hcs : Forall (fun x => block_normal x = true)
                  (map (fun child_box => fst (inline_in_block child_box)) cs)).
  { rewrite Forall_forall in IH. apply Forall_forall. intros x Hx.
    apply in_map_iff in Hx as (y & <- & Hy). now apply IH. }
  destruct (block_container c) eqn:Hc; cbn [negb fst].
  - destruct (inline_in_block_loop_normal e Hcs (Forall_nil _) (Forall_nil _))
      as [Hout Hline].
    destruct (fold_left (inline_in_block_step e) _ ([], [])) as [out line].
    cbn [fst snd] in *. cbn [inline_in_block_finish block_normal]. rewrite Hc.
    assert (Hlevel : forallb is_BlockLevelBox out = true).
    { apply forallb_true. eapply Forall_impl; [| exact Hout]. now intros x []. }
    assert (Hnormal : forallb block_normal out = true).
    { apply forallb_true. eapply Forall_impl; [| exact Hout]. now intros x []. }
    destruct (truthy line).
    + destruct (truthy out) eqn:Ho.
      * rewrite !forallb_app, Hlevel, Hnormal.
        cbn [forallb]. rewrite (anonymous_line_normal e Hline). reflexivity.
      * destruct out; [| discriminate]. apply forallb_true in Hline.
        unfold line_box.
        cbn [app forallb is_BlockLevelBox block_level is_LineBox orb andb
             block_normal block_container].
        now rewrite Hline.
    + now rewrite Hlevel, Hnormal.
  - cbn [block_normal]. rewrite Hc. now apply forallb_true.
Qed.

(** X14.  After [inline_in_block], whatever the tree, every block container in
    it holds either block-level boxes only or one line box only: no block
    container is left with an inline-level box beside a block-level one. *)
Theorem inline_in_block_normal : forall b,
  block_normal (fst (inline_in_block b)) = true.
Proof. exact inline_in_block_block_normal. Qed.

(** ** Block containers after [block_in_inline] *)

Section SplitterNormal.

Variable bii : box -> result (box * bool).
Variable inner : box -> stack -> result search.
Hypothesis Hbii : bii_normal bii.
Hypothesis Hinner : inner_normal inner.

Lemma inline_not_container : forall b,
  is_InlineBox b = true -> is_BlockContainerBox b = false.
Proof. intros [? ? | ? ? | [] ? ? ?]; simpl; congruence. Qed.

Lemma line_not_container : forall b,
  is_LineBox b = true -> is_BlockContainerBox b = false.
Proof. intros [? ? | ? ? | [] ? ? ?]; simpl; congruence. Qed.

Lemma anonymous_normal : forall e nl,
  is_LineBox nl = true -> block_normal nl = true ->
  block_normal (anonymous_block e nl) = true.
Proof.
  intros e nl Hl Hn. unfold anonymous_block.
  cbn [block_normal block_container forallb]. now rewrite Hl, Hn, orb_true_r.
Qed.

Lemma inner_loop_normal : forall rest st index ncs res chg ncs' blk res' chg',
  inner_loop bii inner st index rest ncs res chg = Ok (ncs', blk, res', chg') ->
  Forall (fun x => block_normal x = true) rest -> Forall (fun x => block_normal x = true) ncs ->
  Forall (fun x => block_normal x = true) ncs' /\
  (forall k, blk = Some k -> is_BlockLevelBox k = true /\ block_normal k = true).
Proof.
  induction rest as [| child rest IH];
    intros st index ncs res chg ncs' blk res' chg' H Hrest Hncs.
  - cbn [inner_loop] in H. inversion H; subst. split; [assumption | discriminate].
  - inversion Hrest as [| ? ? Hchild Hrest']; subst.
    cbn [inner_loop] in H.
    destruct (is_BlockLevelBox child) eqn:Hbl.
    + inversion H; subst. split; [assumption |]. intros k Hk. inversion Hk; subst.
      now split.
    + assert (Hstep : forall nc same blk1 res1,
        block_normal nc = true ->
        (forall k, blk1 = Some k -> is_BlockLevelBox k = true /\ block_normal k = true) ->
        match blk1 with
        | Some _ => Ok (ncs ++ [nc], blk1, SPair index res1, chg || negb same)
        | None =>
            inner_loop bii inner st (S index) rest (ncs ++ [nc]) res1
              (chg || negb same)
        end = Ok (ncs', blk, res', chg') ->
        Forall (fun x => block_normal x = true) ncs' /\
        (forall k, blk = Some k -> is_BlockLevelBox k = true /\ block_normal k = true)).
      { intros nc same blk1 res1 Hnc Hblk1 E.
        assert (Hnew : Forall (fun x => block_normal x = true) (ncs ++ [nc])).
        { apply Forall_app. split; [assumption | now repeat constructor]. }
        destruct blk1 as [k1 |].
        - inversion E; subst. now split.
        - exact (IH _ _ _ _ _ _ _ _ _ E Hrest' Hnew). }
      destruct (is_InlineBox child) eqn:Hi.
      * destruct (inner child st) as [[[[nc same] blk1] res1] | |] eqn:E;
          cbn [bind] in H; try discriminate.
        destruct (Hinner E (inline_not_container _ Hi) Hchild) as (_ & Hnc & Hblk1).
        exact (Hstep _ _ _ _ Hnc Hblk1 H).
      * destruct (is_ParentBox child).
        -- destruct (bii child) as [[nc same] | |] eqn:E; cbn [bind] in H;
             try discriminate.
           destruct (Hbii E) as (_ & Hnc).
           apply (Hstep nc same None res (Hnc Hchild)); [discriminate | exact H].
        -- cbn [bind] in H.
           apply (Hstep child true None res Hchild); [discriminate | exact H].
Qed.

Lemma inner_body_normal : inner_normal (inner_body bii inner).
Proof.
  intros [e t | e s | c e cs m] st nb same blk res H Hc Hn; try discriminate.
  cbn [is_BlockContainerBox] in Hc. cbn [block_normal] in Hn. rewrite Hc in Hn.
  cbn [andb] in Hn. apply forallb_true in Hn.
  cbn [inner_body] in H.
  destruct (match st with
            | SNone => (0, SNone)
            | SPair skip skip_stack => (skip, skip_stack)
            end) as [skip st1].
  assert (Hskip : Forall (fun x => block_normal x = true) (skipn skip cs)).
  { rewrite <- (firstn_skipn skip cs) in Hn. now apply Forall_app in Hn. }
  destruct (inner_loop bii inner st1 skip (skipn skip cs) [] SNone false)
    as [[[[ncs blk1] res1] chg] | |] eqn:E; cbn [bind] in H; try discriminate.
  destruct (@inner_loop_normal _ _ _ _ _ _ _ _ _ _ E Hskip (Forall_nil _))
    as [Hncs Hblk].
  assert (Hcopy : block_normal (ParentBox c e ncs m) = true).
  { cbn [block_normal]. rewrite Hc. now apply forallb_true. }
  assert (Hsame : block_normal (ParentBox c e cs m) = true).
  { cbn [block_normal]. rewrite Hc. now apply forallb_true. }
  destruct blk1 as [k |].
  - inversion H; subst. split; [reflexivity |]. split; assumption.
  - destruct (negb _); inversion H; subst; (split; [reflexivity |]);
      (split; [assumption | discriminate]).
Qed.

Lemma split_loop_normal : forall n e line st acc nl same nc,
  split_loop bii inner n e line st acc = Ok (nl, same, nc) ->
  is_LineBox line = true -> block_normal line = true ->
  box_class nl = box_class line /\ block_normal nl = true /\
  (Forall (fun x => block_normal x = true) acc -> Forall (fun x => block_normal x = true) nc) /\
  (Forall (fun x => is_BlockLevelBox x = true) acc -> Forall (fun x => is_BlockLevelBox x = true) nc).
Proof.
  induction n as [| n IH]; intros e line st acc nl same nc H Hl Hn; [discriminate |].
  cbn [split_loop] in H.
  destruct (inner line st) as [[[[nl1 same1] blk] st1] | |] eqn:E; cbn [bind] in H;
    try discriminate.
  destruct (Hinner E (line_not_container _ Hl) Hn) as (Hc1 & Hn1 & Hblk).
  destruct blk as [k |].
  - destruct (bii k) as [[nk samek] | |] eqn:Ek; cbn [bind] in H; try discriminate.
    destruct (Hblk k eq_refl) as [Hkl Hkn].
    destruct (Hbii Ek) as (Hck & Hnk).
    destruct (IH _ _ _ _ _ _ _ H Hl Hn) as (Hc & Hnl & Hnormal & Hlevel).
    assert (Hl1 : is_LineBox nl1 = true).
    { destruct (class_preserved _ _ Hc1) as (_ & -> & _). exact Hl. }
    split; [exact Hc |]. split; [exact Hnl |]. split.
    + intros Hacc. apply Hnormal.
      apply Forall_app. split; [| constructor; [now apply Hnk | constructor]].
      apply Forall_app. split; [assumption |].
      constructor; [| constructor]. now apply anonymous_normal.
    + intros Hacc. apply Hlevel.
      apply Forall_app. split.
      * apply Forall_app. split; [assumption | now repeat constructor].
      * constructor; [| constructor].
        destruct (class_preserved _ _ Hck) as (-> & _). exact Hkl.
  - inversion H; subst. now repeat split.
Qed.

Lemma for_each_split_normal : forall n e k cs acc chg ncs' chg',
  for_each (split_child bii inner n e k) cs (acc, chg) = Ok (ncs', chg') ->
  Forall (fun x => block_normal x = true) cs -> Forall (fun x => block_normal x = true) acc -> Forall (fun x => block_normal x = true) ncs'.
Proof.
  intros n e k. induction cs as [| child rest IH]; intros acc chg ncs' chg' H Hcs Hacc.
  - inversion H; subst. assumption.
  - inversion Hcs as [| ? ? Hchild Hrest]; subst.
    cbn [for_each] in H. unfold split_child at 1 in H.
    destruct (is_LineBox child) eqn:Hl.
    + destruct (negb (k =? 1)%nat); [discriminate |].
      destruct (split_loop bii inner n e child SNone acc) as [[[nl same] nc] | |] eqn:E;
        cbn [bind] in H; try discriminate.
      destruct (@split_loop_normal _ _ _ _ _ _ _ _ E Hl Hchild) as (Hc & Hnl & Hnormal & _).
      assert (Hl1 : is_LineBox nl = true).
      { destruct (class_preserved _ _ Hc) as (_ & -> & _). exact Hl. }
      destruct (truthy nc); cbn [bind] in H; apply (IH _ _ _ _ H Hrest);
        (apply Forall_app; split; [now apply Hnormal |]);
        (constructor; [| constructor]); [now apply anonymous_normal | exact Hnl].
    + destruct (bii child) as [[nc same] | |] eqn:E; cbn [bind] in H;
        try discriminate.
      destruct (Hbii E) as (_ & Hnc).
      apply (IH _ _ _ _ H Hrest).
      apply Forall_app. split; [assumption |]. constructor; [now apply Hnc | constructor].
Qed.

Lemma for_each_split_level : forall n e k cs acc chg ncs' chg',
  for_each (split_child bii inner n e k) cs (acc, chg) = Ok (ncs', chg') ->
  Forall (fun x => is_BlockLevelBox x = true) cs -> Forall (fun x => is_BlockLevelBox x = true) acc -> Forall (fun x => is_BlockLevelBox x = true) ncs'.
Proof.
  intros n e k. induction cs as [| child rest IH]; intros acc chg ncs' chg' H Hcs Hacc.
  - inversion H; subst. assumption.
  - inversion Hcs as [| ? ? Hchild Hrest]; subst.
    cbn [for_each] in H. unfold split_child at 1 in H.
    rewrite (block_level_not_line _ Hchild) in H.
    destruct (bii child) as [[nc same] | |] eqn:E; cbn [bind] in H; try discriminate.
    destruct (Hbii E) as (Hc & _).
    apply (IH _ _ _ _ H Hrest).
    apply Forall_app. split; [assumption |]. constructor; [| constructor].
    destruct (class_preserved _ _ Hc) as (-> & _). exact Hchild.
Qed.

Lemma block_in_inline_body_normal : forall n, bii_normal (block_in_inline_body bii inner n).
Proof.
  intros n [e t | e s | c e cs m] r same H;
    try (inversion H; subst; split; [reflexivity | trivial]).
  cbn [block_in_inline_body] in H.
  destruct (for_each _ cs ([], false)) as [[ncs chg] | |] eqn:E; cbn [bind] in H;
    try discriminate.
  destruct chg; inversion H; subst; (split; [reflexivity |]); [| trivial].
  intros Hn. cbn [block_normal] in *. apply andb_true_iff in Hn as [Hform Hcs].
  apply forallb_true in Hcs.
  pose proof (@for_each_split_normal _ _ _ _ _ _ _ _ E Hcs (Forall_nil _)) as Hncs.
  apply forallb_true in Hncs. rewrite Hncs, andb_true_r.
  destruct (block_container c); [| reflexivity].
  apply orb_true_iff in Hform as [Hlevel | Hline].
  - apply forallb_true in Hlevel.
    pose proof (@for_each_split_level _ _ _ _ _ _ _ _ E Hlevel (Forall_nil _)) as Hl.
    apply forallb_true in Hl. now rewrite Hl.
  - destruct cs as [| x [| y rest]]; try discriminate.
    cbn [for_each] in E. unfold split_child in E. rewrite Hline in E.
    cbn [List.length Nat.eqb negb] in E.
    inversion Hcs as [| ? ? Hx _]; subst.
    destruct (split_loop bii inner n e x SNone []) as [[[nl same] nc] | |] eqn:El;
      cbn [bind] in E; try discriminate.
    destruct (@split_loop_normal _ _ _ _ _ _ _ _ El Hline Hx) as (Hc & _ & _ & Hlevel).
    specialize (Hlevel (Forall_nil _)). apply forallb_true in Hlevel.
    destruct (truthy nc) eqn:Ht; cbn [bind] in E.
    + injection E as <-. rewrite forallb_app, Hlevel. reflexivity.
    + injection E as <- _. destruct nc; [| discriminate]. cbn [app].
      destruct (class_preserved _ _ Hc) as (_ & -> & _). rewrite Hline.
      apply orb_true_r.
Qed.

End SplitterNormal.

Lemma splitter_normal : forall fuel,
  bii_normal (block_in_inline fuel) /\ inner_normal (_inner_block_in_inline fuel).
Proof.
  induction fuel as [| fuel [IHb IHi]].
  - split; intros b; intros; discriminate.
  - split.
    + exact (block_in_inline_body_normal IHb IHi fuel).
    + exact (inner_body_normal IHb IHi).
Qed.

(** X15.  [block_in_inline] keeps the form that [inline_in_block] gives block
    containers: when every block container of the tree holds block-level
    boxes only or one line box only, this holds of the tree it returns too,
    the anonymous blocks it makes around the pieces of a split line
    included. *)
Theorem block_in_inline_normal : forall fuel b r same,
  block_in_inline fuel b = Ok (r, same) ->
  block_normal b = true -> block_normal r = true.
Proof.
  intros fuel b r same H Hn.
  destruct (splitter_normal fuel) as [Hb _]. now apply (Hb _ _ _ H).
Qed.

Lemma block_in_inline_normal_witness :
  exists r,
    block_in_inline 5 (ParentBox BlockBox 0 [line_with_block] None) = Ok (r, false) /\
    block_normal r = true.
Proof.
  eexists. split; [reflexivity |].
  apply (@block_in_inline_normal 5 (ParentBox BlockBox 0 [line_with_block] None) _ false);
    reflexivity.
Defined.

(** ** [block_in_inline] invents no content *)

Lemma leaf_boxes_cons : forall c cs,
  flat_map leaf_boxes (c :: cs) = leaf_boxes c ++ flat_map leaf_boxes cs.
Proof. reflexivity. Qed.

Lemma leaf_boxes_snoc : forall cs c,
  flat_map leaf_boxes (cs ++ [c]) = flat_map leaf_boxes cs ++ leaf_boxes c.
Proof. intros. now rewrite flat_map_app, flat_map_one. Qed.

Lemma leaf_boxes_skipn : forall n cs,
  incl (flat_map leaf_boxes (skipn n cs)) (flat_map leaf_boxes cs).
Proof.
  intros n cs. rewrite <- (firstn_skipn n cs) at 2. rewrite flat_map_app.
  apply incl_appr, incl_refl.
Qed.

Section SplitterContent.

Variable bii : box -> result (box * bool).
Variable inner : box -> stack -> result search.
Hypothesis Hbii : bii_no_new bii.
Hypothesis Hinner : inner_no_new inner.

Lemma inner_loop_no_new : forall rest st index ncs res chg ncs' blk res' chg',
  inner_loop bii inner st index rest ncs res chg = Ok (ncs', blk, res', chg') ->
  incl (flat_map leaf_boxes ncs')
       (flat_map leaf_boxes ncs ++ flat_map leaf_boxes rest) /\
  (forall k, blk = Some k -> incl (leaf_boxes k) (flat_map leaf_boxes rest)).
Proof.
  induction rest as [| child rest IH];
    intros st index ncs res chg ncs' blk res' chg' H.
  - cbn [inner_loop] in H. inversion H; subst.
    split; [apply incl_appl, incl_refl | discriminate].
  - rewrite leaf_boxes_cons. cbn [inner_loop] in H.
    destruct (is_BlockLevelBox child) eqn:Hbl.
    + inversion H; subst. split; [apply incl_appl, incl_refl |].
      intros k Hk. inversion Hk; subst. apply incl_appl, incl_refl.
    + assert (Hstep : forall nc same blk1 res1,
        incl (leaf_boxes nc) (leaf_boxes child) ->
        (forall k, blk1 = Some k -> incl (leaf_boxes k) (leaf_boxes child)) ->
        match blk1 with
        | Some _ => Ok (ncs ++ [nc], blk1, SPair index res1, chg || negb same)
        | None =>
            inner_loop bii inner st (S index) rest (ncs ++ [nc]) res1
              (chg || negb same)
        end = Ok (ncs', blk, res', chg') ->
        incl (flat_map leaf_boxes ncs')
             (flat_map leaf_boxes ncs ++ leaf_boxes child ++ flat_map leaf_boxes rest) /\
        (forall k, blk = Some k ->
                   incl (leaf_boxes k) (leaf_boxes child ++ flat_map leaf_boxes rest))).
      { intros nc same blk1 res1 Hnc Hblk1 E.
        destruct blk1 as [k1 |].
        - inversion E; subst. rewrite leaf_boxes_snoc. split.
          + apply incl_app; [apply incl_appl, incl_refl |].
            apply incl_appr, incl_appl. exact Hnc.
          + intros k Hk. apply incl_appl. now apply Hblk1.
        - destruct (IH _ _ _ _ _ _ _ _ _ E) as [Hncs Hblk].
          rewrite leaf_boxes_snoc in Hncs. split.
          + intros x Hx. apply Hncs in Hx. rewrite !in_app_iff in *.
            destruct Hx as [[Hx | Hx] | Hx]; auto.
          + intros k Hk. apply incl_appr. now apply Hblk. }
      destruct (is_InlineBox child) eqn:Hi.
      * destruct (inner child st) as [[[[nc same] blk1] res1] | |] eqn:E;
          cbn [bind] in H; try discriminate.
        destruct (Hinner E) as (Hnc & Hblk1).
        exact (Hstep _ _ _ _ Hnc Hblk1 H).
      * destruct (is_ParentBox child).
        -- destruct (bii child) as [[nc same] | |] eqn:E; cbn [bind] in H;
             try discriminate.
           apply (Hstep nc same None res (Hbii E)); [discriminate | exact H].
        -- cbn [bind] in H.
           apply (Hstep child true None res (incl_refl _)); [discriminate | exact H].
Qed.

Lemma inner_body_no_new : inner_no_new (inner_body bii inner).
Proof.
  intros [e t | e s | c e cs m] st nb same blk res H; try discriminate.
  cbn [inner_body] in H.
  destruct (match st with
            | SNone => (0, SNone)
            | SPair skip skip_stack => (skip, skip_stack)
            end) as [skip st1].
  destruct (inner_loop bii inner st1 skip (skipn skip cs) [] SNone false)
    as [[[[ncs blk1] res1] chg] | |] eqn:E; cbn [bind] in H; try discriminate.
  destruct (@inner_loop_no_new _ _ _ _ _ _ _ _ _ _ E) as [Hncs Hblk].
  cbn [flat_map app] in Hncs.
  assert (Hcopy : incl (leaf_boxes (ParentBox c e ncs m))
                       (leaf_boxes (ParentBox c e cs m))).
  { cbn [leaf_boxes]. eapply incl_tran; [exact Hncs | apply leaf_boxes_skipn]. }
  assert (Hfound : forall k, blk1 = Some k ->
            incl (leaf_boxes k) (leaf_boxes (ParentBox c e cs m))).
  { intros k Hk. cbn [leaf_boxes].
    eapply incl_tran; [exact (Hblk k Hk) | apply leaf_boxes_skipn]. }
  destruct blk1 as [k |].
  - inversion H; subst. now split.
  - destruct (negb _); inversion H; subst; (split; [| discriminate]);
      [apply incl_refl | exact Hcopy].
Qed.

Lemma split_loop_no_new : forall n e line st acc nl same nc,
  split_loop bii inner n e line st acc = Ok (nl, same, nc) ->
  incl (leaf_boxes nl) (leaf_boxes line) /\
  incl (flat_map leaf_boxes nc) (flat_map leaf_boxes acc ++ leaf_boxes line).
Proof.
  induction n as [| n IH]; intros e line st acc nl same nc H; [discriminate |].
  cbn [split_loop] in H.
  destruct (inner line st) as [[[[nl1 same1] blk] st1] | |] eqn:E; cbn [bind] in H;
    try discriminate.
  destruct (Hinner E) as (Hnl1 & Hblk).
  destruct blk as [k |].
  - destruct (bii k) as [[nk samek] | |] eqn:Ek; cbn [bind] in H; try discriminate.
    destruct (IH _ _ _ _ _ _ _ H) as (Hnl & Hnc). split; [exact Hnl |].
    rewrite !leaf_boxes_snoc in Hnc.
    change (leaf_boxes (anonymous_block e nl1)) with (flat_map leaf_boxes [nl1]) in Hnc.
    rewrite flat_map_one in Hnc.
    pose proof (incl_tran (Hbii Ek) (Hblk k eq_refl)) as Hk.
    intros x Hx. apply Hnc in Hx. rewrite !in_app_iff in *.
    destruct Hx as [[[Hx | Hx] | Hx] | Hx]; auto.
  - inversion H; subst. split; [exact Hnl1 | apply incl_appl, incl_refl].
Qed.

Lemma for_each_split_no_new : forall n e k cs acc chg ncs' chg',
  for_each (split_child bii inner n e k) cs (acc, chg) = Ok (ncs', chg') ->
  incl (flat_map leaf_boxes ncs') (flat_map leaf_boxes acc ++ flat_map leaf_boxes cs).
Proof.
  intros n e k. induction cs as [| child rest IH]; intros acc chg ncs' chg' H.
  - inversion H; subst. apply incl_appl, incl_refl.
  - rewrite leaf_boxes_cons.
    cbn [for_each] in H. unfold split_child at 1 in H.
    assert (Hstep : forall acc1 chg1,
      incl (flat_map leaf_boxes acc1) (flat_map leaf_boxes acc ++ leaf_boxes child) ->
      for_each (split_child bii inner n e k) rest (acc1, chg1) = Ok (ncs', chg') ->
      incl (flat_map leaf_boxes ncs')
           (flat_map leaf_boxes acc ++ leaf_boxes child ++ flat_map leaf_boxes rest)).
    { intros acc1 chg1 Hacc1 E. pose proof (IH _ _ _ _ E) as Hncs.
      intros x Hx. apply Hncs in Hx. rewrite !in_app_iff in *.
      destruct Hx as [Hx | Hx]; auto.
      apply Hacc1 in Hx. rewrite in_app_iff in Hx. destruct Hx; auto. }
    destruct (is_LineBox child) eqn:Hl.
    + destruct (negb (k =? 1)%nat); [discriminate |].
      destruct (split_loop bii inner n e child SNone acc) as [[[nl same] nc] | |] eqn:E;
        cbn [bind] in H; try discriminate.
      destruct (split_loop_no_new _ _ _ _ _ E) as (Hnl & Hnc).
      destruct (truthy nc); cbn [bind] in H; (eapply Hstep; [| exact H]);
        rewrite leaf_boxes_snoc;
        try (change (leaf_boxes (anonymous_block e nl)) with (flat_map leaf_boxes [nl]);
             rewrite flat_map_one);
        (apply incl_app; [exact Hnc | apply incl_appr; exact Hnl]).
    + destruct (bii child) as [[nc same] | |] eqn:E; cbn [bind] in H;
        try discriminate.
      eapply Hstep; [| exact H]. rewrite leaf_boxes_snoc.
      apply incl_app; [apply incl_appl, incl_refl | apply incl_appr; exact (Hbii E)].
Qed.

Lemma block_in_inline_body_no_new : forall n, bii_no_new (block_in_inline_body bii inner n).
Proof.
  intros n [e t | e s | c e cs m] r same H; try (inversion H; subst; apply incl_refl).
  cbn [block_in_inline_body] in H.
  destruct (for_each _ cs ([], false)) as [[ncs chg] | |] eqn:E; cbn [bind] in H;
    try discriminate.
  destruct chg; inversion H; subst; [| apply incl_refl].
  exact (@for_each_split_no_new _ _ _ _ _ _ _ _ E).
Qed.

End SplitterContent.

Lemma splitter_no_new : forall fuel,
  bii_no_new (block_in_inline fuel) /\ inner_no_new (_inner_block_in_inline fuel).
Proof.
  induction fuel as [| fuel [IHb IHi]].
  - split; intros b; intros; discriminate.
  - split.
    + exact (block_in_inline_body_no_new IHb IHi fuel).
    + exact (inner_body_no_new IHb IHi).
Qed.

(** X16.  [block_in_inline] invents no content: every text or image box of the
    tree it returns is one of the tree it was given.  (The converse fails: a
    resumed search can leave content out.) *)
Theorem block_in_inline_no_new_content : forall fuel b r same,
  block_in_inline fuel b = Ok (r, same) ->
  incl (leaf_boxes r) (leaf_boxes b).
Proof.
  intros fuel b r same H. destruct (splitter_no_new fuel) as [Hb _].
  exact (Hb _ _ _ H).
Qed.

Lemma block_in_inline_no_new_content_witness :
  exists r,
    block_in_inline 5 (ParentBox BlockBox 0 [line_with_block] None) = Ok (r, false) /\
    incl (leaf_boxes r) (leaf_boxes (ParentBox BlockBox 0 [line_with_block] None)).
Proof.
  eexists. split; [reflexivity |].
  apply (@block_in_inline_no_new_content 5
           (ParentBox BlockBox 0 [line_with_block] None) _ false).
  reflexivity.
Defined.

(** ** The whole construction *)

Section Pipeline.

Variable doc : document.
Variable handle_element : document -> element -> option box.

Lemma new_box_container : forall d elt b,
  new_box doc d elt = Ok b -> is_BlockContainerBox b = negb (d =? "inline").
Proof.
  intros d elt b H. unfold new_box in H.
  destruct (d =? "inline") eqn:Hi.
  - apply String.eqb_eq in Hi. subst d. cbn in H. now inversion H.
  - destruct ((d =? "block") || (d =? "list-item")).
    + destruct (d =? "list-item").
      * apply add_list_marker_parent in H as (cs & m & ->); reflexivity.
      * now inversion H.
    + destruct (d =? "inline-block"); [now inversion H | discriminate].
Qed.

Lemma dom_to_box_root : forall dom r,
  dom_to_box doc handle_element dom = Ok r ->
  match r with
  | None => root_container doc handle_element dom = false
  | Some b => is_BlockContainerBox b = root_container doc handle_element dom
  end.
Proof.
  intros dom r H. unfold root_container. cbv zeta.
  destruct (display (style_for doc (el_id dom)) =? "none") eqn:Hd.
  - rewrite dom_to_box_eq in H. cbv zeta in H. rewrite Hd in H.
    now inversion H.
  - cbn [negb andb].
    destruct (handle_element doc dom) as [b |] eqn:Hh.
    + rewrite dom_to_box_eq in H. cbv zeta in H. rewrite Hd, Hh in H.
      now inversion H.
    + rewrite (@dom_to_box_default doc handle_element _ Hh Hd) in H.
      destruct (new_box doc _ dom) as [b0 | |] eqn:Hb0; cbn [bind] in H;
        try discriminate.
      pose proof (new_box_container _ _ Hb0) as Hc.
      apply new_box_parent in Hb0 as (c & cs & m & ->).
      destruct (all_child_boxes doc handle_element _ _) as [l | |];
        cbn [bind] in H; try discriminate.
      inversion H. exact Hc.
Qed.

Lemma inline_in_block_result : forall b,
  snd (inline_in_block b) =
  if is_BlockContainerBox b then Some (fst (inline_in_block b)) else None.
Proof.
  intros [e t | e s | c e cs m]; try reflexivity.
  rewrite inline_in_block_parent. cbv zeta. simpl.
  destruct (block_container c); reflexivity.
Qed.

Lemma build_formatting_structure_fails : forall fuel dom,
  forallb (buildable doc) (built_ids doc handle_element dom) = false ->
  exists i ex,
    In i (built_ids doc handle_element dom) /\ buildable doc i = false /\
    build_error doc i ex /\
    build_formatting_structure fuel doc handle_element dom = Raise ex.
Proof.
  intros fuel dom Hbad. unfold build_formatting_structure.
  pose proof (dom_to_box_built doc handle_element dom) as Hout.
  destruct (dom_to_box doc handle_element dom) as [r | ex |]; cbn [outcome] in Hout.
  - rewrite Forall_forall in Hout. rewrite (proj2 (forallb_forall _ _) Hout) in Hbad.
    discriminate.
  - destruct Hout as (i & Hi & Hb & Herr). now exists i, ex.
  - contradiction.
Qed.

Lemma build_formatting_structure_built : forall dom,
  forallb (buildable doc) (built_ids doc handle_element dom) = true ->
  exists r, dom_to_box doc handle_element dom = Ok r.
Proof.
  intros dom Hgood.
  pose proof (dom_to_box_built doc handle_element dom) as Hout.
  destruct (dom_to_box doc handle_element dom) as [r | ex |]; cbn [outcome] in Hout.
  - now exists r.
  - destruct Hout as (i & Hi & Hb & _).
    rewrite (proj1 (forallb_forall _ _) Hgood i Hi) in Hb. discriminate.
  - contradiction.
Qed.

Lemma build_formatting_structure_no_root : forall fuel dom,
  forallb (buildable doc) (built_ids doc handle_element dom) = true ->
  root_container doc handle_element dom = false ->
  build_formatting_structure fuel doc handle_element dom =
  Raise (if display (style_for doc (el_id dom)) =? "none"
         then AssertionError else AttributeError).
Proof.
  intros fuel dom Hgood Hroot. unfold build_formatting_structure.
  destruct (build_formatting_structure_built dom Hgood) as (r & Hr).
  pose proof (dom_to_box_root dom Hr) as Hc. rewrite Hr. cbn [bind].
  destruct r as [b |].
  - rewrite inline_in_block_result, Hc, Hroot.
    destruct (display (style_for doc (el_id dom)) =? "none") eqn:Hd; [| reflexivity].
    rewrite dom_to_box_eq in Hr. cbv zeta in Hr. rewrite Hd in Hr. discriminate.
  - destruct (display (style_for doc (el_id dom)) =? "none") eqn:Hd; [reflexivity |].
    rewrite dom_to_box_eq in Hr. cbv zeta in Hr. rewrite Hd in Hr.
    destruct (handle_element doc dom) as [b |] eqn:Hh; [discriminate |].
    destruct (new_box doc _ dom) as [b0 | |]; cbn [bind] in Hr; try discriminate.
    destruct (add_text b0 _ _) as [b1 | |]; cbn [bind] in Hr; try discriminate.
    destruct (for_each _ _ b1) as [b2 | |]; cbn [bind] in Hr; discriminate.
Qed.

Hypothesis hook_plain : forall elt b,
  handle_element doc elt = Some b -> no_anonymous b = true.

Lemma build_formatting_structure_returns : forall dom,
  forallb (buildable doc) (built_ids doc handle_element dom) = true ->
  root_container doc handle_element dom = true ->
  exists n, forall fuel, n <= fuel ->
  exists t,
    build_formatting_structure fuel doc handle_element dom = Ok t /\
    is_BlockContainerBox t = true /\ well_placed t = true /\
    lines_clean t = true /\ block_normal t = true.
Proof.
  intros dom Hgood Hroot.
  destruct (build_formatting_structure_built dom Hgood) as (r & Hr).
  pose proof (dom_to_box_root dom Hr) as Hc.
  destruct r as [b |]; [| congruence]. rewrite Hroot in Hc.
  pose proof (no_anonymous_no_lines _ (@dom_to_box_plain doc handle_element hook_plain _ _ Hr)) as Hn.
  exists (size (fst (inline_in_block b))). intros fuel Hfuel.
  unfold build_formatting_structure. rewrite Hr. cbn [bind].
  rewrite inline_in_block_result, Hc.
  set (b1 := fst (inline_in_block b)) in *.
  assert (Hclass : box_class b1 = box_class b) by apply inline_in_block_class.
  assert (Hwp : well_placed b1 = true).
  { unfold well_placed. unfold b1 at 2. rewrite (inline_in_block_placed b Hn), andb_true_r.
    destruct (class_preserved _ _ Hclass) as (_ & -> & _).
    destruct b as [? ? | ? ? | [] ? ? ?]; try reflexivity; discriminate. }
  destruct (splitter_total fuel) as [Htotal _].
  destruct (Htotal _ Hfuel Hwp) as (t & same & E).
  destruct (splitter_sound fuel) as [Hsound _].
  destruct (Hsound _ _ _ E Hwp) as (Hct & Hp & Hcl & _ & _).
  rewrite E. cbn [bind]. exists (process_whitespace doc t). split; [reflexivity |].
  destruct (process_whitespace_shape doc t) as (Hcw & Hpw & _ & Hclw & Hnw).
  destruct (splitter_normal fuel) as [Hnormal _].
  destruct (Hnormal _ _ _ E) as (_ & Hnt).
  specialize (Hnt (inline_in_block_block_normal b)).
  assert (Hcc : box_class (process_whitespace doc t) = box_class b) by congruence.
  split; [| split; [| split]].
  - destruct (process_whitespace doc t) as [? ? | ? ? | c1 ? ? ?],
      b as [? ? | ? ? | c2 ? ? ?]; try discriminate. cbn in *. congruence.
  - unfold well_placed. rewrite Hpw, Hp, andb_true_r.
    destruct (class_preserved _ _ Hcc) as (_ & -> & _).
    destruct b as [? ? | ? ? | [] ? ? ?]; try reflexivity; discriminate.
  - now rewrite Hclw.
  - now rewrite Hnw.
Qed.

End Pipeline.

(** X17.  [build_formatting_structure] returns on every document it can build:
    when the boxes of the element hook hold no line box and no anonymous
    block box, every element constructed by default is buildable and the box
    of the root element is a block container, it returns a tree, with fuel
    from some bound on; the tree is a block container in which every line box
    is the only child of a block container and holds no block-level box in
    its inline formatting context, and every block container holds
    block-level boxes only or one line box only. *)
Theorem build_formatting_structure_total : forall doc handle_element dom,
  (forall x r, handle_element doc x = Some r -> no_anonymous r = true) ->
  forallb (buildable doc) (built_ids doc handle_element dom) = true ->
  root_container doc handle_element dom = true ->
  exists n, forall fuel, n <= fuel ->
  exists t,
    build_formatting_structure fuel doc handle_element dom = Ok t /\
    is_BlockContainerBox t = true /\ well_placed t = true /\
    lines_clean t = true /\ block_normal t = true.
Proof.
  intros doc handle_element dom Hook Hgood Hroot.
  exact (@build_formatting_structure_returns doc handle_element Hook dom Hgood Hroot).
Qed.

Lemma build_formatting_structure_total_witness :
  exists n, forall fuel, n <= fuel ->
  exists t,
    build_formatting_structure fuel (plain_document paragraph_styles)
      default_handling emphasised_paragraph = Ok t /\
    is_BlockContainerBox t = true /\ well_placed t = true /\
    lines_clean t = true /\ block_normal t = true.
Proof.
  apply (@build_formatting_structure_total (plain_document paragraph_styles)
           default_handling emphasised_paragraph).
  - discriminate.
  - reflexivity.
  - reflexivity.
Defined.

(** X18.  How [build_formatting_structure] fails.  When some element constructed
    by default is not buildable, it raises the exception of [dom_to_box] for
    such an element, a [NotImplementedError] or a [KeyError].  When all are
    buildable and the box of the root is no block container, it raises an
    [AssertionError] for a root with [display: none], and else an
    [AttributeError], from the [None] that [inline_in_block] returns.  Neither
    depends on the fuel. *)
Theorem build_formatting_structure_errors : forall fuel doc handle_element dom,
  (forallb (buildable doc) (built_ids doc handle_element dom) = false ->
   exists i ex,
     In i (built_ids doc handle_element dom) /\ buildable doc i = false /\
     (ex = NotImplementedError
             ("Unsupported display: " ++ display (style_for doc i)) \/
      ex = KeyError (list_style_type (style_for doc i))) /\
     build_formatting_structure fuel doc handle_element dom = Raise ex) /\
  (forallb (buildable doc) (built_ids doc handle_element dom) = true ->
   root_container doc handle_element dom = false ->
   build_formatting_structure fuel doc handle_element dom =
   Raise (if display (style_for doc (el_id dom)) =? "none"
          then AssertionError else AttributeError)).
Proof.
  intros fuel doc handle_element dom. split.
  - exact (@build_formatting_structure_fails doc handle_element fuel dom).
  - exact (@build_formatting_structure_no_root doc handle_element fuel dom).
Qed.

Lemma build_formatting_structure_errors_witness :
  build_formatting_structure 0 (plain_document (fun _ => plain_style "inline"))
    default_handling (Element (Some "span") 0 (u "text") [] []) =
  Raise AttributeError.
Proof.
  exact (proj2 (build_formatting_structure_errors 0
                  (plain_document (fun _ => plain_style "inline"))
                  default_handling (Element (Some "span") 0 (u "text") [] []))
           eq_refl eq_refl).
Defined.
